(** * followthemoney.schema: schema resolution, validation and export

    A shallow embedding of [followthemoney/schema.py].  Schema objects live
    in the model registry and are referred to by name (the class hashes and
    compares by name, so a Python set of schema objects is a set of names).
    Property objects carry an allocation stamp, which stands for their
    object identity.  Methods that recurse through the model take fuel. *)

From stdpp Require Import base option list strings gmap fin_sets fin_maps sorting.

Open Scope string_scope.
#[local] Set Warnings "-register-all,-clear-no-such-hyp".

(** ** Values exchanged with callers *)

(** The JSON-like values found in error payloads and in [to_dict]. *)
Inductive json :=
| JNull
| JBool (b : bool)
| JStr (s : string)
| JList (l : list json)
| JDict (d : list (string * json)).

Inductive exn :=
| InvalidModel (msg : string)
| InvalidData (msg : string) (errors : json)
| AttributeError (msg : string).

Inductive outcome (A : Type) :=
| Ok (a : A)
| Raise (e : exn).
Arguments Ok {A} a.
Arguments Raise {A} e.

(** ** Insertion-ordered dictionaries (Python [dict]) *)

Module Dict.
Section WithValue.
Context {V : Type}.

Fixpoint get (k : string) (d : list (string * V)) : option V :=
  match d with
  | [] => None
  | (k', v) :: d' => if decide (k = k') then Some v else get k d'
  end.

(** [d[k] = v]: replaces in place, or appends a new key at the end. *)
Fixpoint set (k : string) (v : V) (d : list (string * V)) : list (string * V) :=
  match d with
  | [] => [(k, v)]
  | (k', v') :: d' =>
      if decide (k = k') then (k, v) :: d' else (k', v') :: set k v d'
  end.

Definition keys (d : list (string * V)) : list string := map fst d.
Definition values (d : list (string * V)) : list V := map snd d.

(** [d1] is included in [d2]: every binding of [d1] is a binding of [d2]. *)
Definition incl (d1 d2 : list (string * V)) : Prop :=
  ∀ k v, get k d1 = Some v → get k d2 = Some v.
End WithValue.
End Dict.

(** ** Raw configuration *)

(** The raw configuration of a property.  The mapping under [reverse] has
    the same shape: [_add_reverse] turns it into the configuration of the
    synthesised property. *)
Inductive PropData := mkPropData {
  d_name : option string;
  d_type : option string;
  d_range : option string;
  d_hidden : option bool;
  d_stub : option bool;
  d_reverse : option PropData
}.

Record RawEdge := mkRawEdge {
  e_source : option string;
  e_target : option string;
  e_caption : list string;
  e_label : option string;
  e_directed : option bool
}.

(** The raw configuration of a schema.  List-valued keys are given after
    [ensure_list] (absent is the empty list) and flags are booleans. *)
Record RawSchema := mkRawSchema {
  r_label : option string;
  r_plural : option string;
  r_description : option string;
  r_abstract : option bool;
  r_generated : option bool;
  r_matchable : option bool;
  r_featured : list string;
  r_required : list string;
  r_caption : list string;
  r_edge : option RawEdge;
  r_extends : list string;
  r_properties : list (string * PropData)
}.

(** [banal.as_bool] on an optional boolean. *)
Definition as_bool (value : option bool) (default : bool) : bool :=
  match value with
  | Some b => b
  | None => default
  end.

(** Truth value of an optional string in a Python condition: [None] and the
    empty string are false. *)
Definition truthy (s : option string) : bool :=
  match s with
  | Some (String _ _) => true
  | _ => false
  end.

(** ** Properties *)

(** Modelled from the spec: the class [Property] of
    [followthemoney/property.py], which is not part of the sources at hand.
    A property is constructed from its owning schema, its name and its raw
    configuration; [p_id] is the allocation stamp of the object. *)
Record Property := mkProperty {
  p_id : nat;
  p_schema : string;
  p_name : string;
  p_data : PropData
}.

Definition p_hidden (p : Property) : bool := as_bool (d_hidden (p_data p)) false.
Definition p_stub (p : Property) : bool := as_bool (d_stub (p_data p)) false.

(** ** Schemas and the model *)

(** The members of [Schema].  The sets [extends], [schemata] and
    [descendants] hold schemas, that is their names; the URI of the schema
    plays no part in resolution, validation or export and is left out. *)
Record Schema := mkSchema {
  name : string;
  data : RawSchema;
  _label : string;
  _plural : string;
  _description : option string;
  abstract : bool;
  generated : bool;
  matchable : bool;
  featured : list string;
  required : list string;
  caption : list string;
  edge_source : option string;
  edge_target : option string;
  edge_caption : list string;
  _edge_label : string;
  edge_directed : bool;
  extends : gset string;
  schemata : gset string;
  names : gset string;
  descendants : gset string;
  properties : list (string * Property)
}.

(** The registry of schemas by name, and the next allocation stamp. *)
Record Model := mkModel {
  registry : gmap string Schema;
  next_id : nat
}.

(** Field updates of the five members that resolution mutates. *)
Definition upd_extends (f : gset string → gset string) (s : Schema) : Schema :=
  mkSchema (name s) (data s) (_label s) (_plural s) (_description s) (abstract s) (generated s) (matchable s) (featured s) (required s) (caption s) (edge_source s) (edge_target s) (edge_caption s) (_edge_label s) (edge_directed s) (f (extends s)) (schemata s) (names s) (descendants s) (properties s).

Definition upd_schemata (f : gset string → gset string) (s : Schema) : Schema :=
  mkSchema (name s) (data s) (_label s) (_plural s) (_description s) (abstract s) (generated s) (matchable s) (featured s) (required s) (caption s) (edge_source s) (edge_target s) (edge_caption s) (_edge_label s) (edge_directed s) (extends s) (f (schemata s)) (names s) (descendants s) (properties s).

Definition upd_names (f : gset string → gset string) (s : Schema) : Schema :=
  mkSchema (name s) (data s) (_label s) (_plural s) (_description s) (abstract s) (generated s) (matchable s) (featured s) (required s) (caption s) (edge_source s) (edge_target s) (edge_caption s) (_edge_label s) (edge_directed s) (extends s) (schemata s) (f (names s)) (descendants s) (properties s).

Definition upd_descendants (f : gset string → gset string) (s : Schema) : Schema :=
  mkSchema (name s) (data s) (_label s) (_plural s) (_description s) (abstract s) (generated s) (matchable s) (featured s) (required s) (caption s) (edge_source s) (edge_target s) (edge_caption s) (_edge_label s) (edge_directed s) (extends s) (schemata s) (names s) (f (descendants s)) (properties s).

Definition upd_properties (f : list (string * Property) → list (string * Property)) (s : Schema) : Schema :=
  mkSchema (name s) (data s) (_label s) (_plural s) (_description s) (abstract s) (generated s) (matchable s) (featured s) (required s) (caption s) (edge_source s) (edge_target s) (edge_caption s) (_edge_label s) (edge_directed s) (extends s) (schemata s) (names s) (descendants s) (f (properties s)).

(** Reading a member of a registered schema; an unregistered name reads as
    the given default (methods are only ever invoked on registered
    schemas). *)
Definition member {A : Type} (f : Schema → A) (dflt : A) (m : Model) (x : string) : A :=
  from_option f dflt (registry m !! x).

Definition props_of : Model → string → list (string * Property) := member properties [].
Definition schemata_of : Model → string → gset string := member schemata ∅.
Definition names_of : Model → string → gset string := member names ∅.
Definition descendants_of : Model → string → gset string := member descendants ∅.
Definition extends_of : Model → string → gset string := member extends ∅.

(** Mutating a registered schema in place. *)
Definition mutate (x : string) (f : Schema → Schema) (m : Model) : Model :=
  mkModel (alter f x (registry m)) (next_id m).

(** Modelled from the spec: [Model.get] of [followthemoney/model.py], the
    lookup of a schema by name, absent when the name is unknown. *)
Definition Model_get (m : Model) (x : string) : option Schema := registry m !! x.

(** [Schema.get]: [self.properties.get(name)]. *)
Definition get (m : Model) (self : string) (nm : string) : option Property :=
  Dict.get nm (props_of m self).

(** ** Computations on the model

    A method either runs out of fuel ([None]: the recursion never returns)
    or ends in a model and an outcome; a raised exception keeps the
    mutations made before it. *)
Definition M (A : Type) : Type := Model → option (Model * outcome A).

Definition ret {A : Type} (a : A) : M A := λ m, Some (m, Ok a).
Definition raise {A : Type} (e : exn) : M A := λ m, Some (m, Raise e).
Definition diverge {A : Type} : M A := λ _, None.
Definition bind {A B : Type} (c : M A) (k : A → M B) : M B :=
  λ m, match c m with
       | None => None
       | Some (m', Ok a) => k a m'
       | Some (m', Raise e) => Some (m', Raise e)
       end.
Definition modify (f : Model → Model) : M unit := λ m, Some (f m, Ok tt).
Definition reading {A B : Type} (f : Model → A) (k : A → M B) : M B := λ m, k (f m) m.

Notation "'let!' x ':=' c 'in' k" := (bind c (λ x, k))
  (at level 10, x name, c at level 100, k at level 200, only parsing).
Notation "c ;;; k" := (bind c (λ _, k))
  (at level 100, right associativity, only parsing).

Fixpoint for_each {A : Type} (xs : list A) (body : A → M unit) : M unit :=
  match xs with
  | [] => ret tt
  | x :: xs' => body x ;;; for_each xs' body
  end.

(** ** Construction: [Schema.__init__] *)

Section Construction.
(** The text lookup of [followthemoney.util], an external collaborator. *)
Variable gettext : string → string.

Definition label (s : Schema) : string := gettext (_label s).
Definition plural (s : Schema) : string := gettext (_plural s).
Definition description (s : Schema) : option string := gettext <$> _description s.
Definition edge_label (s : Schema) : string := gettext (_edge_label s).

(** The loop [self.properties[name] = Property(self, name, prop)] over the
    raw properties, allocating one property object per item. *)
Fixpoint init_properties (owner : string) (raw : list (string * PropData))
    (next : nat) (acc : list (string * Property)) : list (string * Property) * nat :=
  match raw with
  | [] => (acc, next)
  | (nm, prop) :: raw' =>
      init_properties owner raw' (S next)
        (Dict.set nm (mkProperty next owner nm prop) acc)
  end.

(** [Schema(model, name, data)]: the schema, and the next free stamp. *)
Definition __init__ (nm : string) (raw : RawSchema) (next : nat) : Schema * nat :=
  let lbl := default nm (r_label raw) in
  let plr := default (gettext lbl) (r_plural raw) in
  let src := r_edge raw ≫= e_source in
  let tgt := r_edge raw ≫= e_target in
  let '(props, next') := init_properties nm (r_properties raw) next [] in
  (mkSchema nm raw lbl plr (r_description raw)
     (as_bool (r_abstract raw) false)
     (as_bool (r_generated raw) false)
     (as_bool (r_matchable raw) true)
     (r_featured raw) (r_required raw) (r_caption raw)
     src tgt
     (from_option e_caption [] (r_edge raw))
     (default lbl (r_edge raw ≫= e_label))
     (default true (r_edge raw ≫= e_directed))
     ∅ {[ nm ]} {[ nm ]} ∅ props,
   next').
End Construction.

(** [self.edge = self.edge_source and self.edge_target]. *)
Definition edge (s : Schema) : option string :=
  if truthy (edge_source s) then edge_target s else edge_source s.

(** ** Reverse-link synthesis and property resolution *)

(** The name of the entity type in the type registry,
    [registry.entity.name]. *)
Definition entity_name : string := "entity".

(** The configuration that [_add_reverse] builds from the reverse mapping
    [data]: [data.update({...})], then [data['hidden'] = data.get('hidden',
    other.hidden)]. *)
Definition stub_data (data : PropData) (other : Property) : PropData :=
  mkPropData (d_name data)
    (Some entity_name)
    (Some (p_schema other))
    (Some (default (p_hidden other) (d_hidden data)))
    (Some true)
    (Some (mkPropData (Some (p_name other)) None None None None None)).

(** [Property(self, name, data)], taking the next allocation stamp. *)
Definition new_property (owner nm : string) (data : PropData) : M Property :=
  λ m, Some (mkModel (registry m) (S (next_id m)),
             Ok (mkProperty (next_id m) owner nm data)).

(** [self.properties[name] = prop]. *)
Definition set_property (self nm : string) (prop : Property) : M unit :=
  modify (mutate self (upd_properties (Dict.set nm prop))).

(** Modelled from the spec: [Property.generate] of
    [followthemoney/property.py], which is not part of the sources at hand:
    it binds the value kind (no effect on the schemas) and, for an
    entity-referencing property with declared reverse metadata, has the
    referenced schema create the paired reverse property.  A range that the
    model does not know is left alone.  [add_reverse] is
    [Schema._add_reverse] with the fuel left. *)
Definition Property_generate_with
    (add_reverse : string → PropData → Property → M Property)
    (prop : Property) : M unit :=
  match d_type (p_data prop), d_range (p_data prop), d_reverse (p_data prop) with
  | Some kind, Some range, Some rev =>
      if decide (kind = entity_name) then
        reading (λ m, Model_get m range) (λ target,
          match target with
          | Some _ => add_reverse range rev prop ;;; ret tt
          | None => ret tt
          end)
      else ret tt
  | _, _, _ => ret tt
  end.

(** [Schema._add_reverse(self, data, other)]. *)
Fixpoint _add_reverse (fuel : nat) (self : string) (data : PropData)
    (other : Property) : M Property :=
  match fuel with
  | 0 => diverge
  | S fuel' =>
      match d_name data with
      | None =>
          raise (InvalidModel ("Unnamed reverse: " +:+ p_schema other +:+ ":" +:+ p_name other))
      | Some nm =>
          reading (λ m, get m self nm) (λ found,
            match found with
            | Some prop => ret prop
            | None =>
                let! prop := new_property self nm (stub_data data other) in
                Property_generate_with (_add_reverse fuel') prop ;;;
                set_property self nm prop ;;;
                ret prop
            end)
      end
  end.

Definition Property_generate (fuel : nat) : Property → M unit :=
  Property_generate_with (_add_reverse fuel).

(** ** Resolution: [Schema.generate] *)

(** The loop of lines 75-77: each property of the parent is copied unless
    the name is taken. *)
Definition merge_item (acc : list (string * Property)) (item : string * Property)
    : list (string * Property) :=
  match Dict.get item.1 acc with
  | Some _ => acc
  | None => Dict.set item.1 item.2 acc
  end.

Definition merge_properties (self parent : string) : M unit :=
  reading (λ m, props_of m parent) (λ items,
    modify (mutate self (upd_properties (λ mine, foldl merge_item mine items)))).

(** The body of the loop of lines 80-83 for one ancestor. *)
Definition link_ancestor (self : string) (ancestor : string) (m : Model) : Model :=
  mutate ancestor (upd_descendants (λ d, d ∪ {[ self ]}))
    (mutate self (upd_names (λ n, n ∪ {[ ancestor ]}))
       (mutate self (upd_schemata (λ s, s ∪ {[ ancestor ]})) m)).

Definition link_ancestors (self parent : string) : M unit :=
  reading (λ m, schemata_of m parent) (λ ancestors,
    modify (λ m, set_fold (link_ancestor self) m ancestors)).

(** What a round does with a resolved parent (lines 75-83). *)
Definition adopt (self parent : string) : M unit :=
  merge_properties self parent ;;;
  modify (mutate self (upd_extends (λ e, e ∪ {[ parent ]}))) ;;;
  link_ancestors self parent.

(** One round of the loop over [extends] (lines 71-83).  A name that the
    model does not know makes [parent] be [None], and the call
    [parent.generate()] raises [AttributeError]. *)
Definition resolve_parent (generate : string → M unit) (self parent : string) : M unit :=
  reading (λ m, Model_get m parent) (λ found,
    match found with
    | None => raise (AttributeError "'NoneType' object has no attribute 'generate'")
    | Some _ => generate parent ;;; adopt self parent
    end).

(** [if self.get(name) is None: raise InvalidModel(msg % name)]. *)
Definition check_property (msg : string) (self nm : string) : M unit :=
  reading (λ m, get m self nm) (λ found,
    match found with
    | None => raise (InvalidModel (msg +:+ nm))
    | Some _ => ret tt
    end).

(** [self.get(self.edge_source)] and the like, on an optional name. *)
Definition get_opt (m : Model) (self : string) (nm : option string) : option Property :=
  nm ≫= get m self.

(** The checks of lines 100-107. *)
Definition check_edge (self : string) : M unit :=
  reading (λ m, registry m !! self) (λ me,
    match me with
    | None => ret tt
    | Some s =>
        if truthy (edge s) then
          reading (λ m, get_opt m self (edge_source s)) (λ src,
            match src with
            | None => raise (InvalidModel ("Missing edge source: " +:+ default "" (edge_source s)))
            | Some _ =>
                reading (λ m, get_opt m self (edge_target s)) (λ tgt,
                  match tgt with
                  | None => raise (InvalidModel ("Missing edge target: " +:+ default "" (edge_target s)))
                  | Some _ => ret tt
                  end)
            end)
        else ret tt
    end).

(** The loop over [extends] (lines 71-83), with [generate] for the parents. *)
Definition inherit (generate : string → M unit) (self : string) : M unit :=
  reading (λ m, member (λ s, r_extends (data s)) [] m self) (λ parents,
    for_each parents (resolve_parent generate self)).

(** The consistency checks (lines 88-107). *)
Definition checks (self : string) : M unit :=
  reading (λ m, member featured [] m self) (λ l,
    for_each l (check_property "Missing featured property: " self)) ;;;
  reading (λ m, member caption [] m self) (λ l,
    for_each l (check_property "Missing caption property: " self)) ;;;
  reading (λ m, member required [] m self) (λ l,
    for_each l (check_property "Missing required property: " self)) ;;;
  check_edge self.

(** The resolution of the properties (lines 85-86), over a copy of the
    values of the map. *)
Definition resolve_properties (fuel : nat) (self : string) : M unit :=
  reading (λ m, Dict.values (props_of m self)) (λ props,
    for_each props (Property_generate fuel)).

(** The resolution of the properties and the checks (lines 85-107). *)
Definition finalize (fuel : nat) (self : string) : M unit :=
  resolve_properties fuel self ;;; checks self.

(** [Schema.generate]. *)
Fixpoint generate (fuel : nat) (self : string) : M unit :=
  match fuel with
  | 0 => diverge
  | S fuel' => inherit (generate fuel') self ;;; finalize fuel' self
  end.

(** ** Matching, validation and export *)

(** [Schema.matchable_schemata]: the schemas the generator yields, in the
    order in which the set is traversed. *)
Definition matchable_schemata (m : Model) (self : string) : list string :=
  if member matchable false m self then
    filter (λ x, member matchable false m x = true)
      (elements (schemata_of m self ∪ descendants_of m self))
  else [].

(** [Schema.is_a]. *)
Definition is_a (m : Model) (self parent : string) : bool :=
  bool_decide (parent ∈ schemata_of m self).

(** [sorted] on a list of names. *)
Definition name_le (a b : string) : Prop := String.leb a b = true.

#[global] Instance name_le_dec : RelDecision name_le.
Proof. intros a b. unfold name_le. apply _. Defined.

Definition sorted (l : list string) : list string := merge_sort name_le l.

Definition jstrs (l : list string) : json := JList (JStr <$> l).

(** [m'] comes from [m] by any number of invocations of [generate] and
    [_add_reverse], on any schemas; an invocation that raises keeps its
    mutations. *)
Inductive evolves (m : Model) : Model → Prop :=
| evolves_refl : evolves m m
| evolves_generate m1 fuel self m2 r :
    evolves m m1 → generate fuel self m1 = Some (m2, r) → evolves m m2
| evolves_add_reverse m1 fuel self data other m2 r :
    evolves m m1 → _add_reverse fuel self data other m1 = Some (m2, r) → evolves m m2.

Section Collaborators.
Variable gettext : string → string.
(** The values of entity data, and [Property.validate] and
    [Property.to_dict] of [followthemoney/property.py]. *)
Variable value : Type.
Variable Property_validate : Property → list value → option string.
Variable Property_to_dict : Property → json.

(** The error of one property (lines 187-191). *)
Definition property_error (s : Schema) (supplied : list (string * list value))
    (item : string * Property) : option string :=
  let values := default [] (Dict.get item.1 supplied) in
  let error := Property_validate item.2 values in
  match error, values with
  | None, [] =>
      if bool_decide (p_name item.2 ∈ required s)
      then Some (gettext "Required") else error
  | _, _ => error
  end.

(** The body of the loop of lines 186-193. *)
Definition validate_item (s : Schema) (supplied : list (string * list value))
    (errors : list (string * string)) (item : string * Property)
    : list (string * string) :=
  match property_error s supplied item with
  | Some e => Dict.set item.1 e errors
  | None => errors
  end.

(** [Schema.validate]; [data] is the mapping under the key [properties]
    of the entity data, [None] when the key is missing. *)
Definition validate (s : Schema) (data : option (list (string * list value)))
    : outcome unit :=
  let supplied := default [] data in
  let errors := foldl (validate_item s supplied) [] (properties s) in
  match errors with
  | [] => Ok tt
  | _ :: _ =>
      Raise (InvalidData (gettext "Entity validation failed")
               (JDict [("properties", JDict (prod_map id JStr <$> errors))]))
  end.

Definition when (c : bool) (item : string * json) : list (string * json) :=
  if c then [item] else [].

(** [Schema.to_dict]: the keys in the order in which they are set. *)
Definition to_dict (s : Schema) : list (string * json) :=
  [ ("label", JStr (label gettext s));
    ("plural", JStr (plural gettext s));
    ("schemata", jstrs (sorted (elements (names s))));
    ("extends", jstrs (sorted (elements (extends s))));
    ("properties",
      JDict (prod_map id Property_to_dict <$>
               filter (λ item, p_schema item.2 = name s) (properties s))) ]
  ++ when (truthy (edge_source s) && truthy (edge_target s))
       ("edge", JDict [ ("source", JStr (default "" (edge_source s)));
                        ("target", JStr (default "" (edge_target s)));
                        ("caption", jstrs (edge_caption s));
                        ("label", JStr (edge_label gettext s));
                        ("directed", JBool (edge_directed s)) ])
  ++ when (negb (bool_decide (length (featured s) = 0))) ("featured", jstrs (featured s))
  ++ when (negb (bool_decide (length (required s) = 0))) ("required", jstrs (required s))
  ++ when (negb (bool_decide (length (caption s) = 0))) ("caption", jstrs (caption s))
  ++ when (truthy (description gettext s))
       ("description", JStr (default "" (description gettext s)))
  ++ when (abstract s) ("abstract", JBool true)
  ++ when (generated s) ("generated", JBool true)
  ++ when (matchable s) ("matchable", JBool true).

(** Modelled from the spec: the part of [Model] of
    [followthemoney/model.py] that constructs every schema from its raw
    configuration and registers it under its name. *)
Fixpoint load (raw : list (string * RawSchema)) (m : Model) : Model :=
  match raw with
  | [] => m
  | (nm, cfg) :: raw' =>
      let '(s, next) := __init__ gettext nm cfg (next_id m) in
      load raw' (mkModel (<[nm := s]> (registry m)) next)
  end.

Definition empty_model : Model := mkModel ∅ 0.

(** The models that a load, followed by any invocations of [generate] and
    [_add_reverse], can reach. *)
Definition reachable (m : Model) : Prop :=
  ∃ raw, evolves (load raw empty_model) m.
End Collaborators.

(** ** Notions used in the statements *)

(** A computation keeps the relation [R] between the model it starts from
    and the model it ends in, whatever its outcome. *)
Definition preserves (R : relation Model) {A : Type} (c : M A) : Prop :=
  ∀ m m' r, c m = Some (m', r) → R m m'.

(** The members of a schema that resolution never touches. *)
Definition frozen (s : Schema) : Schema :=
  upd_extends (λ _, ∅) (upd_schemata (λ _, ∅) (upd_names (λ _, ∅)
    (upd_descendants (λ _, ∅) (upd_properties (λ _, []) s)))).

(** [s'] is a later stage of the schema [s]: the sets have grown and every
    binding of the property map is still there. *)
Record schema_grows (s s' : Schema) : Prop := {
  sg_frozen : frozen s = frozen s';
  sg_extends : extends s ⊆ extends s';
  sg_schemata : schemata s ⊆ schemata s';
  sg_names : names s ⊆ names s';
  sg_descendants : descendants s ⊆ descendants s';
  sg_properties : Dict.incl (properties s) (properties s')
}.

(** [m'] is a later stage of the model [m]: the same schemas are
    registered, each a later stage of itself. *)
Record grows (m m' : Model) : Prop := {
  g_registered x : option_Forall2 schema_grows (registry m !! x) (registry m' !! x);
  g_next_id : (next_id m ≤ next_id m')%nat
}.

(** ** Example models *)

Module Examples.
Definition plain : RawSchema :=
  mkRawSchema None None None None None None [] [] [] None [] [].

Definition with_extends (parents : list string) (raw : RawSchema) : RawSchema :=
  mkRawSchema (r_label raw) (r_plural raw) (r_description raw) (r_abstract raw)
    (r_generated raw) (r_matchable raw) (r_featured raw) (r_required raw)
    (r_caption raw) (r_edge raw) parents (r_properties raw).

Definition with_properties (props : list (string * PropData)) (raw : RawSchema)
    : RawSchema :=
  mkRawSchema (r_label raw) (r_plural raw) (r_description raw) (r_abstract raw)
    (r_generated raw) (r_matchable raw) (r_featured raw) (r_required raw)
    (r_caption raw) (r_edge raw) (r_extends raw) props.

Definition with_required (req : list string) (raw : RawSchema) : RawSchema :=
  mkRawSchema (r_label raw) (r_plural raw) (r_description raw) (r_abstract raw)
    (r_generated raw) (r_matchable raw) (r_featured raw) req
    (r_caption raw) (r_edge raw) (r_extends raw) (r_properties raw).

Definition with_matchable (b : bool) (raw : RawSchema) : RawSchema :=
  mkRawSchema (r_label raw) (r_plural raw) (r_description raw) (r_abstract raw)
    (r_generated raw) (Some b) (r_featured raw) (r_required raw)
    (r_caption raw) (r_edge raw) (r_extends raw) (r_properties raw).

Definition with_edge (e : RawEdge) (raw : RawSchema) : RawSchema :=
  mkRawSchema (r_label raw) (r_plural raw) (r_description raw) (r_abstract raw)
    (r_generated raw) (r_matchable raw) (r_featured raw) (r_required raw)
    (r_caption raw) (Some e) (r_extends raw) (r_properties raw).

(** A property of a scalar kind, and an entity-valued property with a
    reverse link. *)
Definition scalar (kind : string) : PropData :=
  mkPropData None (Some kind) None None None None.
Definition link (range rev : string) : PropData :=
  mkPropData None (Some entity_name) (Some range) None None
    (Some (mkPropData (Some rev) None None None None None)).

(** The state of one schema, for inspection. *)
Definition the (m : Model) (x : string) : Schema :=
  default (__init__ id x plain 0).1 (registry m !! x).

(** The model after an invocation, whatever its outcome. *)
Definition after (c : M unit) (m : Model) : Model :=
  match c m with
  | Some (m', _) => m'
  | None => m
  end.

(** [X] extends a schema that the model does not have. *)
Definition orphan : Model :=
  load id [("X", with_extends ["Missing"] plain)] empty_model.

(** [Thing], [LegalEntity] extends [Thing], [Person] extends
    [LegalEntity]; [Asset] is not matchable. *)
Definition family : Model :=
  load id [ ("Thing", with_properties [("name", scalar "name")] plain);
            ("LegalEntity", with_extends ["Thing"] plain);
            ("Person", with_extends ["LegalEntity"] plain);
            ("Asset", with_matchable false (with_extends ["Thing"] plain)) ]
    empty_model.

Definition family_resolved : Model :=
  after (generate 4 "Asset") (after (generate 4 "Person") family).

(** A schema with two required properties. *)
Definition strict : Model :=
  after (generate 2 "Doc")
    (load id [ ("Doc", with_required ["name"; "title"]
                 (with_properties [("name", scalar "name"); ("title", scalar "string")]
                    plain)) ] empty_model).

(** A schema with one required property. *)
Definition strict1 : Model :=
  after (generate 2 "Doc")
    (load id [ ("Doc", with_required ["name"]
                 (with_properties [("name", scalar "name"); ("title", scalar "string")]
                    plain)) ] empty_model).

(** An edge whose source is the empty string, and a proper edge. *)
Definition blank_edge : Model :=
  after (generate 2 "Link")
    (load id [ ("Link", with_edge (mkRawEdge (Some "") (Some "to") [] None None)
                 (with_properties [("to", scalar "entity")] plain)) ] empty_model).

Definition proper_edge : Model :=
  after (generate 2 "Link")
    (load id [ ("Link", with_edge (mkRawEdge (Some "from") (Some "to") [] None None)
                 (with_properties [("from", scalar "entity"); ("to", scalar "entity")]
                    plain)) ] empty_model).

(** [Membership] extends [Group] and has a property [group] that refers
    to [Group] with the reverse link [members]. *)
Definition club : Model :=
  load id [ ("Group", plain);
            ("Membership", with_extends ["Group"]
               (with_properties [("group", link "Group" "members")] plain)) ]
    empty_model.


(** A diamond: [B] and [C] extend [A], and [D] extends both. *)
Definition kite : Model :=
  load id [ ("A", with_properties [("name", scalar "name")] plain);
            ("B", with_extends ["A"] (with_properties [("b", scalar "string")] plain));
            ("C", with_extends ["A"] (with_properties [("c", scalar "string")] plain));
            ("D", with_extends ["B"; "C"] plain) ]
    empty_model.

(** [X] extends [A] and [B], which both declare [p]. *)
Definition diamond : Model :=
  load id [ ("A", with_properties [("p", scalar "name")] plain);
            ("B", with_properties [("p", scalar "date"); ("q", scalar "date")] plain);
            ("X", with_extends ["A"; "B"] plain) ]
    empty_model.
End Examples.

(** The invariant of the registry: every schema is registered under its
    name, its fixed members are those that [__init__] derives from its raw
    configuration, and it belongs to its own [schemata] and [names]. *)
Definition registry_sound (gettext : string → string) (m : Model) : Prop :=
  ∀ x s, registry m !! x = Some s →
    frozen s = frozen (__init__ gettext x (data s) 0).1 ∧
    x ∈ schemata s ∧ x ∈ names s.

(** ** Resolved schemas *)

(** [child] has taken in [parent]: the round of [generate] for this parent
    would add nothing.  With [props] the properties are looked at too. *)
Record covers (props : bool) (m : Model) (child parent : string) : Prop := {
  cv_extends : parent ∈ extends_of m child;
  cv_schemata : schemata_of m parent ⊆ schemata_of m child;
  cv_names : schemata_of m parent ⊆ names_of m child;
  cv_descendants a :
    a ∈ schemata_of m parent → is_Some (registry m !! a) → child ∈ descendants_of m a;
  cv_properties k v :
    props = true → (k, v) ∈ props_of m parent → is_Some (Dict.get k (props_of m child))
}.

(** A schema is resolved when it has taken in each of its declared parents
    and these are resolved. *)
Inductive resolved (props : bool) (m : Model) : string → Prop :=
| resolved_intro X s :
    registry m !! X = Some s →
    (∀ P, P ∈ r_extends (data s) → resolved props m P) →
    (∀ P, P ∈ r_extends (data s) → covers props m X P) →
    resolved props m X.

(** The members of [W] that its own resolution settles are the same in [m]
    and [m']. *)
Record steady (props : bool) (m m' : Model) (W : string) : Prop := {
  st_schemata : schemata_of m' W = schemata_of m W;
  st_names : names_of m' W = names_of m W;
  st_extends : extends_of m' W = extends_of m W;
  st_properties : props = true → props_of m' W = props_of m W
}.

(** No property object was created between [m] and [m']. *)
Definition no_new_property (m m' : Model) : Prop := next_id m' = next_id m.

(** [m'] is a later stage of [m] in which the resolved schemas are steady;
    their properties too when none was created in between. *)
Record settled (props : bool) (m m' : Model) : Prop := {
  sd_grows : grows m m';
  sd_steady W :
    (props = true → no_new_property m m') → resolved props m W → steady props m m' W
}.

(** What the loop of lines 80-83 over the ancestors [l] has done between
    [m] and [m']. *)
Record linked (self : string) (l : list string) (m m' : Model) : Prop := {
  lk_registered x : is_Some (registry m' !! x) ↔ is_Some (registry m !! x);
  lk_next_id : next_id m' = next_id m;
  lk_properties W : props_of m' W = props_of m W;
  lk_extends W : extends_of m' W = extends_of m W;
  lk_schemata W x :
    x ∈ schemata_of m' W ↔
    x ∈ schemata_of m W ∨ (W = self ∧ is_Some (registry m !! self) ∧ x ∈ l);
  lk_names W x :
    x ∈ names_of m' W ↔
    x ∈ names_of m W ∨ (W = self ∧ is_Some (registry m !! self) ∧ x ∈ l);
  lk_descendants a x :
    x ∈ descendants_of m' a ↔
    x ∈ descendants_of m a ∨ (x = self ∧ a ∈ l ∧ is_Some (registry m !! a))
}.

(** [parent] is one of the declared parents of [self]. *)
Definition declared (m : Model) (self parent : string) : Prop :=
  ∃ s, registry m !! self = Some s ∧ parent ∈ r_extends (data s).

(** What [adopt self parent] has done between [m] and [m']. *)
Record adopted (self parent : string) (m m' : Model) : Prop := {
  ad_registered x : is_Some (registry m' !! x) ↔ is_Some (registry m !! x);
  ad_next_id : next_id m' = next_id m;
  ad_properties_self :
    is_Some (registry m !! self) →
    props_of m' self = foldl merge_item (props_of m self) (props_of m parent);
  ad_properties W : W ≠ self → props_of m' W = props_of m W;
  ad_extends W x :
    x ∈ extends_of m' W ↔
    x ∈ extends_of m W ∨ (W = self ∧ is_Some (registry m !! self) ∧ x = parent);
  ad_schemata W x :
    x ∈ schemata_of m' W ↔
    x ∈ schemata_of m W ∨
    (W = self ∧ is_Some (registry m !! self) ∧ x ∈ schemata_of m parent);
  ad_names W x :
    x ∈ names_of m' W ↔
    x ∈ names_of m W ∨
    (W = self ∧ is_Some (registry m !! self) ∧ x ∈ schemata_of m parent);
  ad_descendants a x :
    x ∈ descendants_of m' a ↔
    x ∈ descendants_of m a ∨
    (x = self ∧ a ∈ schemata_of m parent ∧ is_Some (registry m !! a))
}.

(** The sets of every schema are the same in [m] and [m']. *)
Definition same_sets (m m' : Model) : Prop :=
  ∀ x, schemata_of m' x = schemata_of m x ∧ names_of m' x = names_of m x ∧
       extends_of m' x = extends_of m x ∧ descendants_of m' x = descendants_of m x.

(** [m'] is a later stage of [m], and is [m] if no property was created. *)
Definition idle (m m' : Model) : Prop :=
  grows m m' ∧ (no_new_property m m' → m' = m).

(** ** Properties whose resolution returns *)

(** The resolution of [q] returns normally in [m]: if it has a reverse
    link to make on a registered range, the link has a name, and either
    the range has the name or [q] is bound on its own schema, so that the
    reverse property can find it. *)
Definition good (m : Model) (q : Property) : Prop :=
  ∀ range rev,
    d_type (p_data q) = Some entity_name → d_range (p_data q) = Some range →
    d_reverse (p_data q) = Some rev → is_Some (registry m !! range) →
    ∃ nm, d_name rev = Some nm ∧
      (is_Some (get m range nm) ∨ registry m !! p_schema q = None ∨
       is_Some (get m (p_schema q) (p_name q))).

(** Every property of [W] is good. *)
Definition tidy (m : Model) (W : string) : Prop :=
  ∀ k q, (k, q) ∈ props_of m W → good m q.

(** [m'] is a later stage of [m] whose new entries are good properties. *)
Definition later (m m' : Model) : Prop :=
  grows m m' ∧ ∀ W k q, (k, q) ∈ props_of m' W → good m' q ∨ (k, q) ∈ props_of m W.

(** The property maps are dictionaries: no name is bound twice, and every
    property is bound under its own name. *)
Definition keyed_properties (d : list (string * Property)) : Prop :=
  NoDup (Dict.keys d) ∧ ∀ k p, (k, p) ∈ d → p_name p = k.

Definition keyed (m : Model) : Prop :=
  ∀ x s, registry m !! x = Some s → keyed_properties (properties s).

(** A computation step that keeps the property maps dictionaries. *)
Definition keeps_keyed (m m' : Model) : Prop := keyed m → keyed m'.

(** The model after the allocation of one property object. *)
Definition bump (m : Model) : Model := mkModel (registry m) (S (next_id m)).

(** ** Further notions *)

(** Every parent that a registered schema declares is registered. *)
Definition closed_extends (m : Model) : Prop :=
  ∀ x s, registry m !! x = Some s →
    ∀ P, P ∈ r_extends (data s) → is_Some (registry m !! P).

(** The exceptions that a computation can raise all satisfy [E]. *)
Definition raises_only (E : exn → Prop) {A : Type} (c : M A) : Prop :=
  ∀ m m' e, c m = Some (m', Raise e) → E e.

(** A model-definition error. *)
Definition is_InvalidModel (e : exn) : Prop := ∃ msg, e = InvalidModel msg.

(** [self.source_prop] and [self.target_prop]. *)
Definition source_prop (m : Model) (self : string) : option Property :=
  registry m !! self ≫= λ s, get_opt m self (edge_source s).
Definition target_prop (m : Model) (self : string) : option Property :=
  registry m !! self ≫= λ s, get_opt m self (edge_target s).

(** Further example models. *)
Module Cases.
(** A schema that extends itself, and two that extend each other. *)
Definition selfish : Model :=
  load id [ ("X", Examples.with_extends ["X"] Examples.plain) ] empty_model.

Definition mutual : Model :=
  load id [ ("X", Examples.with_extends ["Y"] Examples.plain);
            ("Y", Examples.with_extends ["X"] Examples.plain) ] empty_model.

Definition with_featured (l : list string) (raw : RawSchema) : RawSchema :=
  mkRawSchema (r_label raw) (r_plural raw) (r_description raw) (r_abstract raw)
    (r_generated raw) (r_matchable raw) l (r_required raw)
    (r_caption raw) (r_edge raw) (r_extends raw) (r_properties raw).

Definition with_caption (l : list string) (raw : RawSchema) : RawSchema :=
  mkRawSchema (r_label raw) (r_plural raw) (r_description raw) (r_abstract raw)
    (r_generated raw) (r_matchable raw) (r_featured raw) (r_required raw)
    l (r_edge raw) (r_extends raw) (r_properties raw).

(** [Note] features a property that it does not have. *)
Definition dangling : Model :=
  load id [ ("Base", Examples.plain);
            ("Note", with_featured ["title"]
               (Examples.with_extends ["Base"]
                  (Examples.with_properties [("body", Examples.scalar "text")]
                     Examples.plain))) ] empty_model.
End Cases.

(** [m'] is a later stage of [m] that keeps the invariant [I]. *)
Definition keeps (I : Model → Prop) (m m' : Model) : Prop :=
  grows m m' ∧ (I m → I m').

(** A freshly loaded model: every schema has its own name in [schemata]
    and [names], and nothing else in its sets. *)
Definition fresh (m : Model) : Prop :=
  ∀ x s, registry m !! x = Some s →
    schemata s = {[ x ]} ∧ names s = {[ x ]} ∧ descendants s = ∅ ∧ extends s = ∅.

(** The indices of the model agree: [names] is [schemata], the sets hold
    registered schemas only, [descendants] is the inverse of [schemata],
    ancestors other than the schema itself are resolved, and [schemata] is
    closed under taking ancestors. *)
Record index_sound (m : Model) : Prop := {
  ix_names X : names_of m X = schemata_of m X;
  ix_registered X a : a ∈ schemata_of m X → is_Some (registry m !! a);
  ix_descendant X a : a ∈ schemata_of m X → a ≠ X → X ∈ descendants_of m a;
  ix_ancestor X a : X ∈ descendants_of m a → a ∈ schemata_of m X;
  ix_closed X P :
    P ∈ schemata_of m X → P ≠ X →
    resolved false m P ∧ schemata_of m P ⊆ schemata_of m X
}.

(** ** The order of the properties: [Schema.sorted_properties] *)


(** [sorted(l, key=key)]: the sort is stable, so the result is the one of
    an insertion sort that puts an element in front of the first one that
    is not smaller. *)
Section Sorting.
Context {A : Type} (key : A → bool * bool * string).


End Sorting.

Section Ordering.
(** [Property.label] of [followthemoney/property.py]. *)
Variable Property_label : Property → string.


End Ordering.


(** Inheritance shares property objects: every property that a schema
    has is bound under its own name, is the very object that its owning
    schema has under that name, and the owner is the schema or one of its
    ancestors. *)
Record shared (m : Model) : Prop := {
  sh_self x : is_Some (registry m !! x) → x ∈ schemata_of m x;
  sh_owner X k p :
    get m X k = Some p →
    p_name p = k ∧ get m (p_schema p) k = Some p ∧ p_schema p ∈ schemata_of m X
}.

(** The block that [to_dict] exports under the key [properties]. *)
Definition exported (d : list (string * json)) : list (string * json) :=
  match Dict.get "properties" d with
  | Some (JDict block) => block
  | _ => []
  end.

(** ** A second resolution *)

(** The reverse link of [q] is in place in [m]: if [q] has a reverse link
    to make on a registered range, the link has a name and the range has a
    property of that name, so that the resolution of [q] finds it. *)
Definition reversed (m : Model) (q : Property) : Prop :=
  ∀ range rev,
    d_type (p_data q) = Some entity_name → d_range (p_data q) = Some range →
    d_reverse (p_data q) = Some rev → is_Some (registry m !! range) →
    ∃ nm, d_name rev = Some nm ∧ is_Some (get m range nm).

(** Every property of [W] has its reverse link in place. *)
Definition all_reversed (m : Model) (W : string) : Prop :=
  ∀ k q, (k, q) ∈ props_of m W → reversed m q.

(** [m'] is a later stage of [m] whose new entries have their reverse
    links in place. *)
Definition traced (m m' : Model) : Prop :=
  grows m m' ∧
  ∀ W k q, (k, q) ∈ props_of m' W → reversed m' q ∨ (k, q) ∈ props_of m W.

(** [A] is [X], or is reached from [X] through declared parents: the
    schemas that [X.generate()] invokes [generate] on. *)
Inductive inherits_from (m : Model) : string → string → Prop :=
| inherits_refl X : inherits_from m X X
| inherits_step X P A :
    declared m X P → inherits_from m P A → inherits_from m X A.

(** Between [m] and [m'] the properties of [W] gained the entries [extra],
    appended in this order: each under a name that [W] lacked, bound to
    the property that a schema from which [W] inherits had under it. *)
Definition gained (m m' : Model) (W : string) (extra : list (string * Property)) : Prop :=
  props_of m' W = (props_of m W ++ extra)%list ∧
  ∀ k q, (k, q) ∈ extra →
    get m W k = None ∧ ∃ A, inherits_from m W A ∧ get m A k = Some q.

(** [m'] is a later stage of [m] in which no property object was created
    and the property maps only gained inherited entries. *)
Record quiet (m m' : Model) : Prop := {
  qt_grows : grows m m';
  qt_next_id : next_id m' = next_id m;
  qt_props W : ∃ extra, gained m m' W extra
}.

(** [X] extends [A] and [B], which both declare [p]; the property [q] of
    [A] refers to [X], with the reverse link [p]. *)
Definition back_link : Model :=
  load id [ ("A", Examples.with_properties
                    [("p", Examples.scalar "name"); ("q", Examples.link "X" "p")]
                    Examples.plain);
            ("B", Examples.with_properties [("p", Examples.scalar "date")] Examples.plain);
            ("X", Examples.with_extends ["A"; "B"] Examples.plain) ]
    empty_model.

(** An edge that declares its source only. *)
Definition half_edge : Model :=
  load id [ ("Link", Examples.with_edge (mkRawEdge (Some "from") None [] None None)
               Examples.plain) ] empty_model.

(** * Properties of the embedding *)

(** ** Dictionaries *)

Module DictFacts.
Section WithValue.
Context {V : Type}.
Implicit Types (d : list (string * V)) (k : string) (v : V).

Lemma get_set_eq k v d : Dict.get k (Dict.set k v d) = Some v.
Proof.
  induction d as [|[k' v'] d IH]; simpl.
  - by rewrite decide_True.
  - destruct (decide (k = k')) as [->|Hne]; simpl.
    + by rewrite decide_True.
    + by rewrite decide_False.
Qed.

Lemma get_set_ne k k' v d : k' ≠ k → Dict.get k' (Dict.set k v d) = Dict.get k' d.
Proof.
  intros Hne. induction d as [|[k0 v0] d IH]; simpl.
  - by rewrite decide_False.
  - destruct (decide (k = k0)) as [->|Hk]; simpl.
    + by rewrite !decide_False.
    + destruct (decide (k' = k0)); done.
Qed.

Lemma incl_refl d : Dict.incl d d.
Proof. by intros k v. Qed.

Lemma incl_trans d1 d2 d3 : Dict.incl d1 d2 → Dict.incl d2 d3 → Dict.incl d1 d3.
Proof. intros H12 H23 k v Hk. by apply H23, H12. Qed.

(** Binding a fresh name keeps every binding. *)
Lemma incl_set_fresh k v d : Dict.get k d = None → Dict.incl d (Dict.set k v d).
Proof.
  intros Hfresh k' v' Hk'. destruct (decide (k' = k)) as [->|Hne].
  - congruence.
  - by rewrite get_set_ne.
Qed.

Lemma get_Some_elem_of k v d : Dict.get k d = Some v → (k, v) ∈ d.
Proof.
  induction d as [|[k' v'] d IH]; simpl; [done|].
  destruct (decide (k = k')) as [->|Hne].
  - intros [= ->]. left.
  - intros H. right. by apply IH.
Qed.

Lemma elem_of_get_is_Some k v d : (k, v) ∈ d → is_Some (Dict.get k d).
Proof.
  induction d as [|[k' v'] d IH]; simpl.
  - intros H. by apply elem_of_nil in H.
  - intros H. destruct (decide (k = k')) as [->|Hne]; [by eexists|].
    apply elem_of_cons in H as [[= ? ?]|H]; [done|by apply IH].
Qed.
End WithValue.
End DictFacts.

(** ** Computations that keep a relation between the models *)

Section Preserves.
Context (R : relation Model) `{!PreOrder R}.
Local Abbreviation preserves := (preserves R).

Lemma preserves_ret {A} (a : A) : preserves (ret a).
Proof. intros m m' r [= <- _]. reflexivity. Qed.

Lemma preserves_raise {A} e : preserves (@raise A e).
Proof. intros m m' r [= <- _]. reflexivity. Qed.

Lemma preserves_diverge {A} : preserves (@diverge A).
Proof. intros m m' r [=]. Qed.

Lemma preserves_bind {A B} (c : M A) (k : A → M B) :
  preserves c → (∀ a, preserves (k a)) → preserves (bind c k).
Proof.
  intros Hc Hk m m' r. unfold bind.
  destruct (c m) as [[m1 [a|e]]|] eqn:E; [|intros [= <- _]; by eapply Hc|done].
  intros Hrun. etrans; [by eapply Hc|by eapply Hk].
Qed.

Lemma preserves_reading {A B} (f : Model → A) (k : A → M B) :
  (∀ a, preserves (k a)) → preserves (reading f k).
Proof. intros Hk m m' r Hrun. by eapply Hk. Qed.

Lemma preserves_modify (f : Model → Model) :
  (∀ m, R m (f m)) → preserves (modify f).
Proof. intros Hf m m' r [= <- _]. apply Hf. Qed.

Lemma preserves_for_each {A} (xs : list A) (body : A → M unit) :
  (∀ x, x ∈ xs → preserves (body x)) → preserves (for_each xs body).
Proof.
  induction xs as [|x xs IH]; intros Hbody; simpl.
  - apply preserves_ret.
  - apply preserves_bind.
    + apply Hbody. left.
    + intros _. apply IH. intros y Hy. apply Hbody. by right.
Qed.
End Preserves.

(** ** Computations that return *)

Lemma bind_Some {A B} (c : M A) (k : A → M B) m m' r :
  bind c k m = Some (m', r) →
  (∃ m1 a, c m = Some (m1, Ok a) ∧ k a m1 = Some (m', r)) ∨
  (∃ e, c m = Some (m', Raise e) ∧ r = Raise e).
Proof.
  unfold bind. destruct (c m) as [[m1 [a|e]]|]; [| |done].
  - intros Hk. left. eauto.
  - intros [= <- <-]. right. eauto.
Qed.

Lemma bind_Ok {A B} (c : M A) (k : A → M B) m m' b :
  bind c k m = Some (m', Ok b) →
  ∃ m1 a, c m = Some (m1, Ok a) ∧ k a m1 = Some (m', Ok b).
Proof. intros [H|(e & _ & [=])]%bind_Some. done. Qed.

(** ** Later stages of a model *)

Lemma schema_grows_refl s : schema_grows s s.
Proof. split; try done. apply DictFacts.incl_refl. Qed.

Lemma schema_grows_trans s1 s2 s3 :
  schema_grows s1 s2 → schema_grows s2 s3 → schema_grows s1 s3.
Proof.
  intros [] []. split; try (etrans; eassumption).
  eapply DictFacts.incl_trans; eassumption.
Qed.

#[global] Instance grows_preorder : PreOrder grows.
Proof.
  split.
  - intros m. split; [|done]. intros x.
    destruct (registry m !! x); constructor. apply schema_grows_refl.
  - intros m1 m2 m3 [H12 Hn12] [H23 Hn23]. split; [|lia]. intros x.
    specialize (H12 x). specialize (H23 x).
    destruct H12; inversion H23; subst; constructor.
    eapply schema_grows_trans; eassumption.
Qed.

Lemma grows_mutate x f m :
  (∀ s, registry m !! x = Some s → schema_grows s (f s)) → grows m (mutate x f m).
Proof.
  intros Hf. split; [|done]. intros y. simpl.
  destruct (decide (x = y)) as [->|Hne].
  - rewrite lookup_alter_eq. destruct (registry m !! y) eqn:E; constructor. by apply Hf.
  - rewrite lookup_alter_ne by done.
    destruct (registry m !! y); constructor. apply schema_grows_refl.
Qed.

Lemma schema_grows_extends f s :
  (∀ X, X ⊆ f X) → schema_grows s (upd_extends f s).
Proof. intros Hf. split; simpl; try done. apply DictFacts.incl_refl. Qed.

Lemma schema_grows_schemata f s :
  (∀ X, X ⊆ f X) → schema_grows s (upd_schemata f s).
Proof. intros Hf. split; simpl; try done. apply DictFacts.incl_refl. Qed.

Lemma schema_grows_names f s :
  (∀ X, X ⊆ f X) → schema_grows s (upd_names f s).
Proof. intros Hf. split; simpl; try done. apply DictFacts.incl_refl. Qed.

Lemma schema_grows_descendants f s :
  (∀ X, X ⊆ f X) → schema_grows s (upd_descendants f s).
Proof. intros Hf. split; simpl; try done. apply DictFacts.incl_refl. Qed.

Lemma schema_grows_properties f s :
  Dict.incl (properties s) (f (properties s)) → schema_grows s (upd_properties f s).
Proof. intros Hf. split; simpl; done. Qed.

(** What a later stage keeps. *)
Lemma grows_registered m m' x :
  grows m m' → is_Some (registry m !! x) ↔ is_Some (registry m' !! x).
Proof.
  intros [H _]. specialize (H x). destruct H; split; intros [? ?]; by eauto.
Qed.

Lemma grows_lookup m m' x s :
  grows m m' → registry m !! x = Some s →
  ∃ s', registry m' !! x = Some s' ∧ schema_grows s s'.
Proof.
  intros [H _] Hx. specialize (H x). rewrite Hx in H. inversion H; subst. eauto.
Qed.

Lemma grows_get m m' x k p :
  grows m m' → get m x k = Some p → get m' x k = Some p.
Proof.
  intros Hg. unfold get, props_of, member.
  destruct (registry m !! x) as [s|] eqn:E; [|done].
  destruct (grows_lookup _ _ _ _ Hg E) as (s' & -> & Hs). simpl.
  apply Hs.
Qed.

(** ** The merge of inherited properties *)

Lemma merge_item_incl (acc : list (string * Property)) item :
  Dict.incl acc (merge_item acc item).
Proof.
  unfold merge_item. destruct (Dict.get item.1 acc) eqn:E.
  - apply DictFacts.incl_refl.
  - by apply DictFacts.incl_set_fresh.
Qed.

Lemma merge_incl items (acc : list (string * Property)) :
  Dict.incl acc (foldl merge_item acc items).
Proof.
  revert acc. induction items as [|item items IH]; intros acc; simpl.
  - apply DictFacts.incl_refl.
  - eapply DictFacts.incl_trans; [apply merge_item_incl|apply IH].
Qed.

(** After the merge every name of the parent is bound. *)
Lemma merge_covers items (acc : list (string * Property)) k v :
  (k, v) ∈ items → is_Some (Dict.get k (foldl merge_item acc items)).
Proof.
  revert acc. induction items as [|item items IH]; intros acc Hin; simpl.
  - by apply elem_of_nil in Hin.
  - apply elem_of_cons in Hin as [<-|Hin]; [|by apply IH].
    assert (is_Some (Dict.get k (merge_item acc (k, v)))) as [w Hw].
    { unfold merge_item. simpl. destruct (Dict.get k acc) eqn:E; [by eexists|].
      rewrite DictFacts.get_set_eq. by eexists. }
    exists w. by apply merge_incl.
Qed.

(** A name that is free before the merge gets the parent's binding. *)
Lemma merge_inherits items (acc : list (string * Property)) k v :
  Dict.get k acc = None → Dict.get k items = Some v →
  Dict.get k (foldl merge_item acc items) = Some v.
Proof.
  revert acc. induction items as [|[k' v'] items IH]; intros acc Hfree Hk; simpl in *.
  - done.
  - destruct (decide (k = k')) as [<-|Hne].
    + injection Hk as ->. apply merge_incl.
      unfold merge_item. simpl. rewrite Hfree. apply DictFacts.get_set_eq.
    + apply IH; [|done]. unfold merge_item. simpl.
      destruct (Dict.get k' acc); [done|]. by rewrite DictFacts.get_set_ne.
Qed.

(** Merging a parent whose bindings are all there already changes nothing. *)
Lemma merge_absorbs items (acc : list (string * Property)) :
  (∀ k v, (k, v) ∈ items → is_Some (Dict.get k acc)) →
  foldl merge_item acc items = acc.
Proof.
  induction items as [|[k v] items IH]; intros Hall; simpl; [done|].
  destruct (Hall k v) as [w Hw]; [left|].
  unfold merge_item at 2. simpl. rewrite Hw.
  apply IH. intros k' v' Hin. apply (Hall k' v'). by right.
Qed.

(** ** Reverse-link synthesis *)

(** A reverse property whose two ends are both missing is never finished:
    each end asks the other to be created first. *)
Lemma stub_generate_diverges fuel : ∀ m self nm range n prop rev,
  is_Some (registry m !! self) → is_Some (registry m !! range) →
  get m self nm = None → get m range n = None →
  p_schema prop = self → p_name prop = nm →
  d_type (p_data prop) = Some entity_name →
  d_range (p_data prop) = Some range →
  d_reverse (p_data prop) = Some rev → d_name rev = Some n →
  Property_generate_with (_add_reverse fuel) prop m = None.
Proof.
  induction fuel as [|fuel IH];
    intros m self nm range n prop rev Hself [t Ht] Hnm Hn Hps Hpn Hty Hrg Hrev Hname;
    unfold Property_generate_with; rewrite Hty, Hrg, Hrev;
    rewrite decide_True by done; unfold reading, Model_get; rewrite Ht;
    unfold bind.
  - done.
  - simpl. rewrite Hname. unfold reading. rewrite Hn. unfold bind, new_property.
    rewrite (IH (bump m) range n self nm _
               (mkPropData (Some (p_name prop)) None None None None None)); try done.
    + simpl. by rewrite Hps.
    + simpl. by rewrite Hpn.
Qed.

(** Resolving a freshly synthesised reverse property changes nothing: its
    own reverse is the property it was made for. *)
Lemma stub_generate_noop fuel m self nm i data other m' r :
  is_Some (registry m !! self) → get m self nm = None →
  Property_generate_with (_add_reverse fuel)
    (mkProperty i self nm (stub_data data other)) m = Some (m', r) →
  m' = m ∧ r = Ok tt.
Proof.
  intros Hself Hnm. unfold Property_generate_with. simpl.
  unfold reading, Model_get.
  destruct (registry m !! p_schema other) as [t|] eqn:Ht; [|by intros [= <- <-]].
  unfold bind. destruct fuel as [|fuel]; [done|]. simpl. unfold reading.
  destruct (get m (p_schema other) (p_name other)) as [q|] eqn:Hq.
  - by intros [= <- <-].
  - unfold bind, new_property.
    rewrite (stub_generate_diverges fuel (bump m) (p_schema other) (p_name other) self nm _
               (mkPropData (Some nm) None None None None None)); try done.
Qed.

Lemma grows_bump m : grows m (bump m).
Proof.
  split; [|simpl; lia]. intros x. simpl.
  destruct (registry m !! x); constructor. apply schema_grows_refl.
Qed.

Lemma Property_generate_with_preserves (R : relation Model) `{!PreOrder R} add_reverse prop :
  (∀ x d p, preserves R (add_reverse x d p)) →
  preserves R (Property_generate_with add_reverse prop).
Proof.
  intros Hadd. unfold Property_generate_with.
  destruct (d_type (p_data prop)), (d_range (p_data prop)), (d_reverse (p_data prop));
    try apply preserves_ret; try done.
  case_decide; [|by apply preserves_ret].
  apply preserves_reading. intros [t|]; [|by apply preserves_ret].
  apply preserves_bind; [done|apply Hadd|]. intros _. by apply preserves_ret.
Qed.

(** [_add_reverse] only ever adds: no binding is removed or replaced. *)
Lemma _add_reverse_grows fuel : ∀ self data other,
  preserves grows (_add_reverse fuel self data other).
Proof.
  induction fuel as [|fuel IH]; intros self data other; simpl.
  - apply preserves_diverge.
  - destruct (d_name data) as [nm|]; [|apply preserves_raise; apply _].
    intros m m' r. unfold reading.
    destruct (get m self nm) as [q|] eqn:Hq; [by intros [= <- _]|].
    unfold bind at 1. unfold new_property.
    unfold bind at 1.
    destruct (Property_generate_with _ _ (mkModel _ _)) as [[m1 [[]|e]]|] eqn:Hgen; [| |done].
    + unfold bind, set_property, modify. intros [= <- _].
      assert (grows (bump m) m1) as Hg.
      { eapply Property_generate_with_preserves; [apply _|apply IH|apply Hgen]. }
      etrans; [apply grows_bump|]. etrans; [apply Hg|].
      apply grows_mutate. intros s Hs. apply schema_grows_properties.
      apply DictFacts.incl_set_fresh.
      assert (is_Some (registry (bump m) !! self)) as Hreg.
      { apply (grows_registered _ _ self Hg). by eexists. }
      destruct (stub_generate_noop _ _ _ _ _ _ _ _ _ Hreg Hq Hgen) as [-> _].
      revert Hq. unfold get, props_of, member. simpl in Hs. by rewrite Hs.
    + intros [= <- _]. etrans; [apply grows_bump|].
      eapply Property_generate_with_preserves; [apply _|apply IH|apply Hgen].
Qed.

Lemma Property_generate_grows fuel prop : preserves grows (Property_generate fuel prop).
Proof.
  apply Property_generate_with_preserves; [apply _|]. apply _add_reverse_grows.
Qed.

(** ** Resolution only ever adds *)

Lemma link_ancestor_grows self a m : grows m (link_ancestor self a m).
Proof.
  unfold link_ancestor.
  etrans; [|apply grows_mutate; intros s _; apply schema_grows_descendants; set_solver].
  etrans; [|apply grows_mutate; intros s _; apply schema_grows_names; set_solver].
  apply grows_mutate; intros s _; apply schema_grows_schemata; set_solver.
Qed.

Lemma link_ancestors_grows self parent : preserves grows (link_ancestors self parent).
Proof.
  apply preserves_reading. intros ancestors. apply preserves_modify.
  intros m. unfold set_fold. simpl.
  induction (elements ancestors) as [|a l IH]; simpl; [reflexivity|].
  etrans; [apply IH|apply link_ancestor_grows].
Qed.

Lemma merge_properties_grows self parent : preserves grows (merge_properties self parent).
Proof.
  apply preserves_reading. intros items. apply preserves_modify. intros m.
  apply grows_mutate. intros s _. apply schema_grows_properties, merge_incl.
Qed.

Lemma check_property_same msg self nm m m' r :
  check_property msg self nm m = Some (m', r) → m' = m.
Proof.
  unfold check_property, reading. destruct (get m self nm); by intros [= <- _].
Qed.

Lemma check_edge_same self m m' r : check_edge self m = Some (m', r) → m' = m.
Proof.
  unfold check_edge, reading. destruct (registry m !! self) as [s|]; [|by intros [= <- _]].
  destruct (truthy (edge s)); [|by intros [= <- _]].
  destruct (get_opt m self (edge_source s)); [|by intros [= <- _]].
  destruct (get_opt m self (edge_target s)); by intros [= <- _].
Qed.

Lemma checks_preserve (R : relation Model) `{!PreOrder R} msg self l :
  preserves R (for_each l (check_property msg self)).
Proof.
  apply preserves_for_each; [done|]. intros nm _ m m' r Hrun.
  apply check_property_same in Hrun as ->. reflexivity.
Qed.

Lemma check_edge_preserves (R : relation Model) `{!PreOrder R} self :
  preserves R (check_edge self).
Proof. intros m m' r Hrun. apply check_edge_same in Hrun as ->. reflexivity. Qed.

Lemma checks_same self m m' r : checks self m = Some (m', r) → m' = m.
Proof.
  assert (∀ msg l m m' r,
            for_each l (check_property msg self) m = Some (m', r) → m' = m) as Hall.
  { intros msg l. induction l as [|nm l IH]; intros m0 m1 r0; simpl.
    - by intros [= <- _].
    - intros [(m2 & [] & Hc & Hrest)|(e & Hc & _)]%bind_Some.
      + apply check_property_same in Hc as ->. by eapply IH.
      + by eapply check_property_same. }
  unfold checks.
  intros [(m1 & [] & H1 & Hrest)|(e & H1 & _)]%bind_Some; [|by eapply Hall].
  apply Hall in H1 as ->.
  apply bind_Some in Hrest as [(m1 & [] & H1 & Hrest)|(e & H1 & _)]; [|by eapply Hall].
  apply Hall in H1 as ->.
  apply bind_Some in Hrest as [(m1 & [] & H1 & Hrest)|(e & H1 & _)]; [|by eapply Hall].
  apply Hall in H1 as ->. by eapply check_edge_same.
Qed.

Lemma checks_preserves (R : relation Model) `{!PreOrder R} self : preserves R (checks self).
Proof. intros m m' r Hrun. apply checks_same in Hrun as ->. reflexivity. Qed.

Lemma finalize_preserves (R : relation Model) `{!PreOrder R} fuel self :
  (∀ prop, preserves R (Property_generate fuel prop)) →
  preserves R (finalize fuel self).
Proof.
  intros Hprop. unfold finalize.
  apply preserves_bind; [done| |intros _; by apply checks_preserves].
  apply preserves_reading. intros props. by apply preserves_for_each.
Qed.

Lemma inherit_preserves (R : relation Model) `{!PreOrder R} gen self :
  (∀ parent, preserves R (resolve_parent gen self parent)) →
  preserves R (inherit gen self).
Proof.
  intros Hparent. apply preserves_reading. intros parents. by apply preserves_for_each.
Qed.

(** The shape of [generate]: every relation that the rounds over the
    parents and the resolution of the properties keep is kept by the whole
    method. *)
Lemma generate_preserves (R : relation Model) `{!PreOrder R} fuel self :
  (∀ parent, preserves R (resolve_parent (generate fuel) self parent)) →
  (∀ prop, preserves R (Property_generate fuel prop)) →
  preserves R (generate (S fuel) self).
Proof.
  intros Hparent Hprop. simpl.
  apply preserves_bind; [done|by apply inherit_preserves|intros _].
  by apply finalize_preserves.
Qed.

Lemma resolve_parent_preserves (R : relation Model) `{!PreOrder R} gen self parent :
  preserves R (gen parent) → preserves R (adopt self parent) →
  preserves R (resolve_parent gen self parent).
Proof.
  intros Hgen Hadopt. unfold resolve_parent.
  apply preserves_reading. intros [p|]; [|by apply preserves_raise].
  by apply preserves_bind.
Qed.

Lemma adopt_grows self parent : preserves grows (adopt self parent).
Proof.
  unfold adopt.
  apply preserves_bind; [apply _|apply merge_properties_grows|intros _].
  apply preserves_bind; [apply _| |intros _; apply link_ancestors_grows].
  apply preserves_modify. intros m. apply grows_mutate. intros s _.
  apply schema_grows_extends. set_solver.
Qed.

Lemma resolve_parent_grows gen self parent :
  preserves grows (gen parent) → preserves grows (resolve_parent gen self parent).
Proof.
  intros Hgen. apply resolve_parent_preserves; [apply _|done|apply adopt_grows].
Qed.

Lemma generate_grows fuel : ∀ self, preserves grows (generate fuel self).
Proof.
  induction fuel as [|fuel IH]; intros self.
  - apply preserves_diverge.
  - apply generate_preserves; [apply _| |apply Property_generate_grows].
    intros parent. apply resolve_parent_grows, IH.
Qed.

Lemma finalize_grows fuel self : preserves grows (finalize fuel self).
Proof. apply finalize_preserves; [apply _|]. apply Property_generate_grows. Qed.

(** ** Invocations only ever add *)

Lemma evolves_grows m m' : evolves m m' → grows m m'.
Proof.
  induction 1 as [|m1 fuel self m2 r _ IH Hrun|m1 fuel self d o m2 r _ IH Hrun].
  - reflexivity.
  - etrans; [done|]. by eapply generate_grows.
  - etrans; [done|]. by eapply _add_reverse_grows.
Qed.

Lemma evolves_after fuel self m0 m :
  evolves m0 m → evolves m0 (Examples.after (generate fuel self) m).
Proof.
  intros Hm. unfold Examples.after.
  destruct (generate fuel self m) as [[m' r]|] eqn:E; [|done].
  by eapply evolves_generate.
Qed.

(** ** The invariant of the registry *)

Lemma frozen_init gettext nm raw next :
  frozen (__init__ gettext nm raw next).1 = frozen (__init__ gettext nm raw 0).1.
Proof.
  unfold __init__.
  destruct (init_properties nm (r_properties raw) next []) as [props n1].
  destruct (init_properties nm (r_properties raw) 0 []) as [props0 n0]. done.
Qed.

Lemma init_members gettext nm raw next :
  let s := (__init__ gettext nm raw next).1 in
  name s = nm ∧ data s = raw ∧ schemata s = {[ nm ]} ∧ names s = {[ nm ]} ∧
  descendants s = ∅ ∧ extends s = ∅ ∧
  abstract s = as_bool (r_abstract raw) false ∧
  generated s = as_bool (r_generated raw) false ∧
  matchable s = as_bool (r_matchable raw) true.
Proof.
  unfold __init__.
  destruct (init_properties nm (r_properties raw) next []) as [props n1]. done.
Qed.

Lemma frozen_data s s' : frozen s = frozen s' → data s = data s'.
Proof. intros H. by apply (f_equal data) in H. Qed.

Lemma frozen_name s s' : frozen s = frozen s' → name s = name s'.
Proof. intros H. by apply (f_equal name) in H. Qed.

Lemma frozen_matchable s s' : frozen s = frozen s' → matchable s = matchable s'.
Proof. intros H. by apply (f_equal matchable) in H. Qed.

Section Soundness.
Variable gettext : string → string.

Lemma registry_sound_empty : registry_sound gettext empty_model.
Proof. intros x s. simpl. by rewrite lookup_empty. Qed.

Lemma registry_sound_load raw : ∀ m,
  registry_sound gettext m → registry_sound gettext (load gettext raw m).
Proof.
  induction raw as [|[nm cfg] raw IH]; intros m Hm; simpl; [done|].
  pose proof (init_members gettext nm cfg (next_id m)) as Hinit.
  pose proof (frozen_init gettext nm cfg (next_id m)) as Hfrozen.
  destruct (__init__ gettext nm cfg (next_id m)) as [s next] eqn:E.
  simpl in Hinit, Hfrozen. destruct Hinit as (Hn & Hd & Hs & Hns & _).
  apply IH. intros x s'. simpl.
  destruct (decide (nm = x)) as [<-|Hne].
  - rewrite lookup_insert_eq. intros [= <-]. rewrite Hd, Hs, Hns, Hfrozen.
    split_and!; [done|set_solver..].
  - rewrite lookup_insert_ne by done. apply Hm.
Qed.

Lemma registry_sound_grows m m' :
  grows m m' → registry_sound gettext m → registry_sound gettext m'.
Proof.
  intros Hg Hm x s' Hs'.
  assert (is_Some (registry m !! x)) as [s Hs].
  { apply (grows_registered _ _ x Hg). by eexists. }
  destruct (grows_lookup _ _ _ _ Hg Hs) as (s2 & Hs2 & Hgrow).
  rewrite Hs' in Hs2. injection Hs2 as <-.
  destruct (Hm x s Hs) as (Hf & Hin & Hnm). destruct Hgrow.
  rewrite <- (frozen_data s s') by done. rewrite <- sg_frozen0.
  split_and!; [done|set_solver..].
Qed.

Lemma reachable_sound m : reachable gettext m → registry_sound gettext m.
Proof.
  intros [raw Hev]. eapply registry_sound_grows; [by apply evolves_grows|].
  apply registry_sound_load, registry_sound_empty.
Qed.
End Soundness.

(** ** Export *)

Lemma elem_of_keys_when c k (v : json) x :
  x ∈ Dict.keys (when c (k, v)) ↔ c = true ∧ x = k.
Proof.
  destruct c; simpl.
  - rewrite list_elem_of_singleton. naive_solver.
  - split; [by intros ?%elem_of_nil|naive_solver].
Qed.

Lemma elem_of_keys_app (d1 d2 : list (string * json)) x :
  x ∈ Dict.keys (d1 ++ d2) ↔ x ∈ Dict.keys d1 ∨ x ∈ Dict.keys d2.
Proof. unfold Dict.keys. rewrite map_app. apply elem_of_app. Qed.

Section ToDict.
Variable gettext : string → string.
Variable Property_to_dict : Property → json.
Local Abbreviation to_dict := (to_dict gettext Property_to_dict).

Lemma to_dict_has_edge s :
  "edge" ∈ Dict.keys (to_dict s) ↔
  truthy (edge_source s) = true ∧ truthy (edge_target s) = true.
Proof.
  unfold to_dict. rewrite !elem_of_keys_app, !elem_of_keys_when.
  rewrite andb_true_iff. simpl. rewrite !elem_of_cons, elem_of_nil.
  naive_solver.
Qed.

Lemma to_dict_has_featured s :
  "featured" ∈ Dict.keys (to_dict s) ↔ featured s ≠ [].
Proof.
  unfold to_dict. rewrite !elem_of_keys_app, !elem_of_keys_when.
  simpl. rewrite !elem_of_cons, elem_of_nil.
  rewrite negb_true_iff, bool_decide_eq_false.
  destruct (featured s); simpl; naive_solver.
Qed.

Lemma to_dict_matchable s :
  matchable s = true → ("matchable", JBool true) ∈ to_dict s.
Proof.
  intros Hm. unfold to_dict. rewrite Hm.
  repeat (apply elem_of_app; right). simpl. left.
Qed.
End ToDict.

(** C8, as the code has it: [to_dict] has the key [featured] exactly when
    the list of featured properties is not empty, and the key [edge]
    exactly when the source and the target of the edge are both set to a
    name that is not the empty string. *)
Theorem to_dict_sparse_keys gettext Property_to_dict (s : Schema) :
  ("featured" ∈ Dict.keys (to_dict gettext Property_to_dict s) ↔ featured s ≠ []) ∧
  ("edge" ∈ Dict.keys (to_dict gettext Property_to_dict s) ↔
     truthy (edge_source s) = true ∧ truthy (edge_target s) = true).
Proof. split; [apply to_dict_has_featured|apply to_dict_has_edge]. Qed.

(** C8 as stated fails: the resolved schema [Link] has both ends of its
    edge set, the source to the empty string, and [to_dict] leaves the edge
    block out. *)
Lemma to_dict_blank_edge_omitted :
  let s := Examples.the Examples.blank_edge "Link" in
  generate 2 "Link" (load id [("Link", data s)] empty_model)
    = Some (Examples.blank_edge, Ok tt) ∧
  ¬ (is_Some (edge_source s) → is_Some (edge_target s) →
     "edge" ∈ Dict.keys (to_dict id (λ _, JNull) s)).
Proof.
  split; [by vm_compute|].
  intros H. apply to_dict_has_edge in H as [H _]; [|by vm_compute; eexists..].
  by vm_compute in H.
Qed.

(** ** Unknown parents *)

(** C3 fails on the code: with a parent name that the model does not know,
    [generate] calls [generate] on [None] and ends in [AttributeError],
    where the other dangling references of the method raise
    [InvalidModel]. *)
Theorem generate_unknown_parent_AttributeError :
  Model_get Examples.orphan "Missing" = None ∧
  generate 1 "X" Examples.orphan
    = Some (Examples.orphan,
            Raise (AttributeError "'NoneType' object has no attribute 'generate'")).
Proof. split; by vm_compute. Qed.

(** ** Matchable schemas *)

Lemma matchable_schemata_members (m : Model) (self : string) (s : Schema) :
  registry m !! self = Some s → matchable s = true →
  ∀ x, x ∈ matchable_schemata m self ↔
       x ∈ schemata s ∪ descendants s ∧
       ∃ sx, registry m !! x = Some sx ∧ matchable sx = true.
Proof.
  intros Hs Hm x. unfold matchable_schemata, schemata_of, descendants_of, member.
  rewrite Hs. simpl. rewrite Hm. rewrite list_elem_of_filter, elem_of_elements.
  destruct (registry m !! x) as [sx|]; simpl; naive_solver.
Qed.

(** C7: a schema that is not matchable yields nothing; a matchable schema
    yields, once each, exactly the registered members of its [schemata]
    and its [descendants] that are matchable themselves. *)
Theorem matchable_schemata_spec (m : Model) (self : string) (s : Schema) :
  registry m !! self = Some s →
  (matchable s = false → matchable_schemata m self = []) ∧
  (matchable s = true →
     NoDup (matchable_schemata m self) ∧
     ∀ x, x ∈ matchable_schemata m self ↔
          x ∈ schemata s ∪ descendants s ∧
          ∃ sx, registry m !! x = Some sx ∧ matchable sx = true).
Proof.
  intros Hs. split.
  - intros Hm. unfold matchable_schemata, member. rewrite Hs. simpl. by rewrite Hm.
  - intros Hm. split; [|by apply matchable_schemata_members].
    unfold matchable_schemata, member. rewrite Hs. simpl. rewrite Hm.
    apply NoDup_filter, NoDup_elements.
Qed.

Lemma matchable_schemata_spec_witness :
  (matchable (Examples.the Examples.family_resolved "Thing") = false →
     matchable_schemata Examples.family_resolved "Thing" = []) ∧
  (matchable (Examples.the Examples.family_resolved "Thing") = true →
     NoDup (matchable_schemata Examples.family_resolved "Thing") ∧
     ∀ x, x ∈ matchable_schemata Examples.family_resolved "Thing" ↔
          x ∈ schemata (Examples.the Examples.family_resolved "Thing")
              ∪ descendants (Examples.the Examples.family_resolved "Thing") ∧
          ∃ sx, registry Examples.family_resolved !! x = Some sx ∧ matchable sx = true).
Proof.
  apply (matchable_schemata_spec Examples.family_resolved "Thing"). by vm_compute.
Defined.

(** ** Membership in one's own closure *)

Lemma reachable_after gettext fuel self m :
  reachable gettext m → reachable gettext (Examples.after (generate fuel self) m).
Proof. intros [raw Hev]. exists raw. by apply evolves_after. Qed.

Lemma reachable_load gettext raw : reachable gettext (load gettext raw empty_model).
Proof. exists raw. apply evolves_refl. Qed.

(** C6: in every model that a load followed by any invocations of
    [generate] (and of [_add_reverse]) reaches, whatever their outcome, a
    schema is a member of its own [schemata] and its name a member of its
    own [names]. *)
Theorem schema_in_own_schemata gettext (m : Model) (x : string) (s : Schema) :
  reachable gettext m → registry m !! x = Some s →
  name s = x ∧ name s ∈ schemata s ∧ name s ∈ names s.
Proof.
  intros Hm Hs. destruct (reachable_sound gettext m Hm x s Hs) as (Hf & Hin & Hnm).
  assert (name s = x) as ->; [|done].
  apply frozen_name in Hf. rewrite Hf.
  by destruct (init_members gettext x (data s) 0) as (-> & _).
Qed.

Lemma schema_in_own_schemata_witness :
  name (Examples.the Examples.family_resolved "Person") = "Person" ∧
  name (Examples.the Examples.family_resolved "Person")
    ∈ schemata (Examples.the Examples.family_resolved "Person") ∧
  name (Examples.the Examples.family_resolved "Person")
    ∈ names (Examples.the Examples.family_resolved "Person").
Proof.
  apply (schema_in_own_schemata id Examples.family_resolved "Person").
  - apply reachable_after, reachable_after, reachable_load.
  - by vm_compute.
Defined.

(** ** The default of [matchable] *)

(** C9: a schema whose raw configuration has no key [matchable] is
    matchable, from its construction on ([abstract] and [generated]
    default to false instead); its [to_dict] has the entry
    [matchable: true], and it is one of its own [matchable_schemata]. *)
Theorem matchable_defaults_to_true gettext Property_to_dict (m : Model) (x : string)
    (s : Schema) :
  reachable gettext m → registry m !! x = Some s → r_matchable (data s) = None →
  (∀ next, matchable (__init__ gettext x (data s) next).1 = true) ∧
  (r_abstract (data s) = None → ∀ next, abstract (__init__ gettext x (data s) next).1 = false) ∧
  (r_generated (data s) = None → ∀ next, generated (__init__ gettext x (data s) next).1 = false) ∧
  matchable s = true ∧
  ("matchable", JBool true) ∈ to_dict gettext Property_to_dict s ∧
  x ∈ matchable_schemata m x.
Proof.
  intros Hm Hs Hraw.
  destruct (reachable_sound gettext m Hm x s Hs) as (Hf & Hin & Hnm).
  assert (matchable s = true) as Hmatch.
  { apply frozen_matchable in Hf. rewrite Hf.
    destruct (init_members gettext x (data s) 0) as (_ & _ & _ & _ & _ & _ & _ & _ & ->).
    by rewrite Hraw. }
  split_and!; try done.
  - intros next.
    destruct (init_members gettext x (data s) next) as (_ & _ & _ & _ & _ & _ & _ & _ & ->).
    by rewrite Hraw.
  - intros Ha next.
    destruct (init_members gettext x (data s) next) as (_ & _ & _ & _ & _ & _ & -> & _).
    by rewrite Ha.
  - intros Hg next.
    destruct (init_members gettext x (data s) next) as (_ & _ & _ & _ & _ & _ & _ & -> & _).
    by rewrite Hg.
  - by apply to_dict_matchable.
  - apply (matchable_schemata_members m x s Hs Hmatch). split; [set_solver|eauto].
Qed.

Lemma matchable_defaults_to_true_witness :
  (∀ next, matchable (__init__ id "Person"
      (data (Examples.the Examples.family_resolved "Person")) next).1 = true) ∧
  (r_abstract (data (Examples.the Examples.family_resolved "Person")) = None →
   ∀ next, abstract (__init__ id "Person"
      (data (Examples.the Examples.family_resolved "Person")) next).1 = false) ∧
  (r_generated (data (Examples.the Examples.family_resolved "Person")) = None →
   ∀ next, generated (__init__ id "Person"
      (data (Examples.the Examples.family_resolved "Person")) next).1 = false) ∧
  matchable (Examples.the Examples.family_resolved "Person") = true ∧
  ("matchable", JBool true)
    ∈ to_dict id (λ _, JNull) (Examples.the Examples.family_resolved "Person") ∧
  "Person" ∈ matchable_schemata Examples.family_resolved "Person".
Proof.
  apply (matchable_defaults_to_true id (λ _, JNull) Examples.family_resolved "Person").
  - apply reachable_after, reachable_after, reachable_load.
  - by vm_compute.
  - by vm_compute.
Defined.

(** ** Bindings are never removed or replaced *)

Lemma evolves_get m m' x k p :
  evolves m m' → get m x k = Some p → get m' x k = Some p.
Proof. intros Hev. by apply grows_get, evolves_grows. Qed.

(** C10: once a schema maps a name to a property object, no later
    invocation of [generate], on any schema, or of [_add_reverse] removes
    the entry or binds the name to another object. *)
Theorem bindings_never_overwritten (m m' : Model) (T n : string) (p : Property) :
  evolves m m' → get m T n = Some p → get m' T n = Some p.
Proof. apply evolves_get. Qed.

Lemma bindings_never_overwritten_witness :
  get (Examples.after (generate 3 "Membership")
         (Examples.after (generate 3 "Membership") Examples.club)) "Group" "members"
  = Some (mkProperty 1 "Group" "members"
            (stub_data (mkPropData (Some "members") None None None None None)
               (mkProperty 0 "Membership" "group" (Examples.link "Group" "members")))).
Proof.
  apply (bindings_never_overwritten
           (Examples.after (generate 3 "Membership") Examples.club)).
  - apply evolves_after, evolves_refl.
  - by vm_compute.
Defined.

(** ** Reverse-link synthesis creates one property, once *)

Lemma get_set_property m self nm prop :
  is_Some (registry m !! self) →
  get (mutate self (upd_properties (Dict.set nm prop)) m) self nm = Some prop.
Proof.
  intros [s Hs]. unfold get, props_of, member, mutate. simpl.
  rewrite lookup_alter_eq, Hs. simpl. apply DictFacts.get_set_eq.
Qed.

(** On a schema that lacks the name, [_add_reverse] allocates one
    property, binds the name to it and returns it. *)
Lemma _add_reverse_fresh fuel self data other nm m m' r :
  is_Some (registry m !! self) → d_name data = Some nm → get m self nm = None →
  _add_reverse fuel self data other m = Some (m', r) →
  m' = mutate self
         (upd_properties (Dict.set nm (mkProperty (next_id m) self nm (stub_data data other))))
         (bump m) ∧
  r = Ok (mkProperty (next_id m) self nm (stub_data data other)).
Proof.
  intros Hreg Hname Hfree. destruct fuel as [|fuel]; [done|]. simpl.
  rewrite Hname. unfold reading. rewrite Hfree.
  unfold bind at 1. unfold new_property. unfold bind at 1.
  destruct (Property_generate_with _ _ (mkModel _ _)) as [[m1 r1]|] eqn:Hgen; [|done].
  apply stub_generate_noop in Hgen as [-> ->]; [|done..].
  by intros [= <- <-].
Qed.

(** On a schema that has the name, [_add_reverse] returns the property
    found and leaves the model as it is. *)
Lemma _add_reverse_found fuel self data other nm prop m :
  d_name data = Some nm → get m self nm = Some prop →
  _add_reverse (S fuel) self data other m = Some (m, Ok prop).
Proof. intros Hname Hfound. simpl. rewrite Hname. unfold reading. by rewrite Hfound. Qed.



(** ** Validation *)

Section Validation.
Variable gettext : string → string.
Variable value : Type.
Variable Property_validate : Property → list value → option string.
Local Abbreviation error_of := (property_error gettext value Property_validate).
Local Abbreviation step := (validate_item gettext value Property_validate).

(** Without supplied values, a required property whose kind has no
    complaint about the empty list is reported as required. *)
Lemma property_error_required s nm prop :
  p_name prop ∈ required s → Property_validate prop [] = None →
  error_of s [] (nm, prop) = Some (gettext "Required").
Proof.
  intros Hreq Hkind. unfold property_error. simpl.
  by rewrite Hkind, bool_decide_eq_true_2.
Qed.

(** Items under other names leave the error of a name as it is. *)
Lemma validate_items_other s sup k items : ∀ errors,
  k ∉ Dict.keys items →
  Dict.get k (foldl (step s sup) errors items) = Dict.get k errors.
Proof.
  induction items as [|[k' q] items IH]; intros errors Hk; simpl; [done|].
  apply not_elem_of_cons in Hk as [Hne Hk]. rewrite IH by done.
  unfold validate_item. destruct (error_of s sup (k', q)); [|done].
  simpl. by apply DictFacts.get_set_ne.
Qed.

(** The error recorded under a name is the error of its property. *)
Lemma validate_items_get s sup k prop items : ∀ errors,
  NoDup (Dict.keys items) → Dict.get k items = Some prop →
  Dict.get k errors = None →
  Dict.get k (foldl (step s sup) errors items) = error_of s sup (k, prop).
Proof.
  induction items as [|[k' q] items IH]; intros errors Hnd Hk Herr; simpl in *; [done|].
  apply NoDup_cons in Hnd as [Hfresh Hnd].
  destruct (decide (k = k')) as [<-|Hne].
  - injection Hk as ->. rewrite validate_items_other by done.
    unfold validate_item. destruct (error_of s sup (k, prop)); [|done].
    simpl. apply DictFacts.get_set_eq.
  - apply IH; [done..|]. unfold validate_item.
    destruct (error_of s sup (k', q)); [|done].
    simpl. by rewrite DictFacts.get_set_ne.
Qed.

(** Items without an error leave the errors as they are. *)
Lemma validate_items_silent s sup items : ∀ errors,
  (∀ k q, (k, q) ∈ items → error_of s sup (k, q) = None) →
  foldl (step s sup) errors items = errors.
Proof.
  induction items as [|[k q] items IH]; intros errors Hall; simpl; [done|].
  unfold validate_item at 2. rewrite (Hall k q) by left.
  apply IH. intros k' q' Hin. apply Hall. by right.
Qed.

(** When one property alone has an error, the errors are that entry. *)
Lemma validate_items_single s sup k prop e items : ∀ errors,
  NoDup (Dict.keys items) → Dict.get k items = Some prop →
  error_of s sup (k, prop) = Some e →
  (∀ k' q, (k', q) ∈ items → k' ≠ k → error_of s sup (k', q) = None) →
  foldl (step s sup) errors items = Dict.set k e errors.
Proof.
  induction items as [|[k' q] items IH]; intros errors Hnd Hk He Hothers; simpl in *; [done|].
  apply NoDup_cons in Hnd as [Hfresh Hnd].
  destruct (decide (k = k')) as [<-|Hne].
  - injection Hk as ->. unfold validate_item at 2. rewrite He. simpl.
    apply validate_items_silent. intros k' q' Hin. apply Hothers; [by right|].
    intros ->. apply Hfresh. unfold Dict.keys.
    apply list_elem_of_fmap. by exists (k, q').
  - unfold validate_item at 2. rewrite (Hothers k' q) by (by left || done).
    apply IH; [done..|]. intros k2 q2 Hin. apply Hothers. by right.
Qed.

Lemma get_fmap_JStr k (errors : list (string * string)) :
  Dict.get k (prod_map id JStr <$> errors) = JStr <$> Dict.get k errors.
Proof.
  induction errors as [|[k' e] errors IH]; simpl; [done|].
  destruct (decide (k = k')); done.
Qed.
End Validation.

(** The entry of a required property in the payload of [validate]. *)
Lemma validate_required_entry gettext value
    (Property_validate : Property → list value → option string)
    (s : Schema) (nm : string) (prop : Property) :
  NoDup (Dict.keys (properties s)) →
  Dict.get nm (properties s) = Some prop → p_name prop = nm → nm ∈ required s →
  Property_validate prop [] = None →
  ∃ errors,
    validate gettext value Property_validate s None
      = Raise (InvalidData (gettext "Entity validation failed")
                 (JDict [("properties", JDict errors)])) ∧
    Dict.get nm errors = Some (JStr (gettext "Required")) ∧
    ((∀ k q, (k, q) ∈ properties s → k ≠ nm →
        Property_validate q [] = None ∧ p_name q ∉ required s) →
     errors = [(nm, JStr (gettext "Required"))]).
Proof.
  intros Hnd Hget Hname Hreq Hkind.
  assert (property_error gettext value Property_validate s [] (nm, prop)
          = Some (gettext "Required")) as Herr.
  { apply property_error_required; [by rewrite Hname|done]. }
  pose proof (validate_items_get gettext value Property_validate s [] nm prop
                (properties s) [] Hnd Hget eq_refl) as Hfound.
  rewrite Herr in Hfound.
  exists (prod_map id JStr <$>
            foldl (validate_item gettext value Property_validate s []) [] (properties s)).
  split_and!.
  - unfold validate. simpl.
    destruct (foldl _ _ _) as [|item errors] eqn:E; [done|done].
  - by rewrite get_fmap_JStr, Hfound.
  - intros Hothers.
    rewrite (validate_items_single gettext value Property_validate s [] nm prop
               (gettext "Required")); [done..|].
    intros k q Hin Hne. destruct (Hothers k q Hin Hne) as [Hk Hr].
    unfold property_error. simpl. by rewrite Hk, bool_decide_eq_false_2.
Qed.

(** C5 as stated fails: the resolved schema [Doc] has the required
    properties [name] and [title]; the payload names both, so it is not
    the mapping with the single entry for [name]. *)
Lemma validate_two_required_payload :
  let s := Examples.the Examples.strict "Doc" in
  generate 2 "Doc" (load id [("Doc", data s)] empty_model)
    = Some (Examples.strict, Ok tt) ∧
  is_Some (Dict.get "name" (properties s)) ∧ "name" ∈ required s ∧
  ¬ ∃ msg, validate id unit (λ _ _, None) s None
           = Raise (InvalidData msg
                      (JDict [("properties", JDict [("name", JStr "Required")])])).
Proof.
  split_and!.
  - by vm_compute.
  - vm_compute. by eexists.
  - vm_compute. set_solver.
  - intros [msg H]. vm_compute in H. discriminate H.
Qed.

(** ** The leftmost parent wins *)

Lemma get_mutate_properties m self f k :
  is_Some (registry m !! self) →
  get (mutate self (upd_properties f) m) self k = Dict.get k (f (props_of m self)).
Proof.
  intros [s Hs]. unfold get, props_of, member, mutate. simpl.
  by rewrite lookup_alter_eq, Hs.
Qed.

(** A completed round for one parent: the parent is resolved, and its
    properties are merged into the state that its resolution left. *)
Lemma resolve_parent_Ok gen self parent m m' :
  is_Some (registry m !! self) → preserves grows (gen parent) →
  resolve_parent gen self parent m = Some (m', Ok tt) →
  ∃ mp, gen parent m = Some (mp, Ok tt) ∧ grows mp m' ∧
    ∀ k a, get mp parent k = Some a → get mp self k = None → get m' self k = Some a.
Proof.
  intros Hreg Hgen. unfold resolve_parent, reading.
  destruct (Model_get m parent); [|done].
  intros (mp & [] & Hp & Hrest)%bind_Ok. exists mp. split; [done|].
  split; [by eapply adopt_grows|].
  apply bind_Ok in Hrest as (m1 & [] & Hmerge & Hrest).
  assert (grows m1 m') as Hg1.
  { assert (preserves grows
      (modify (mutate self (upd_extends (λ e, e ∪ {[ parent ]}))) ;;;
       link_ancestors self parent)) as Htail; [|by eapply Htail].
    apply preserves_bind; [apply _| |intros _; apply link_ancestors_grows].
    apply preserves_modify. intros m0. apply grows_mutate. intros s0 _.
    apply schema_grows_extends. set_solver. }
  intros k a Ha Hfree. apply (grows_get m1); [done|].
  injection Hmerge as <-. rewrite get_mutate_properties.
  - by apply merge_inherits.
  - apply (grows_registered m mp self); [by eapply Hgen|done].
Qed.

(** C1: when [X] extends [A] and [B], in this order, the properties of
    [A], as its own resolution leaves them, are merged first: a name that
    [X] lacks at that point is bound to the property of [A], whatever [B]
    has under the name, and every property that [X] has, declared locally
    or present before the merge, stays as it is. *)
Theorem leftmost_parent_wins (fuel : nat) (X A B : string) (m m' : Model) (s : Schema) :
  registry m !! X = Some s → r_extends (data s) = [A; B] →
  generate (S fuel) X m = Some (m', Ok tt) →
  ∃ mA, generate fuel A m = Some (mA, Ok tt) ∧
    (∀ p a, get mA A p = Some a → get mA X p = None → get m' X p = Some a) ∧
    (∀ p x, get mA X p = Some x → get m' X p = Some x) ∧
    (∀ p x, get m X p = Some x → get m' X p = Some x).
Proof.
  intros Hs Hext Hrun. simpl in Hrun.
  apply bind_Ok in Hrun as (m1 & [] & Hinherit & Hfinal).
  unfold inherit, reading, member in Hinherit. rewrite Hs in Hinherit.
  simpl in Hinherit. rewrite Hext in Hinherit. simpl in Hinherit.
  apply bind_Ok in Hinherit as (m2 & [] & HA & HB).
  apply resolve_parent_Ok in HA as (mA & HgenA & HgA & Hmerged);
    [|by eexists|apply generate_grows].
  assert (grows m2 m') as Hg2.
  { etrans; [|by eapply finalize_grows].
    assert (preserves grows
      (resolve_parent (generate fuel) X B ;;; ret tt)) as Htail; [|by eapply Htail].
    apply preserves_bind; [apply _| |intros _; apply preserves_ret; apply _].
    apply resolve_parent_grows, generate_grows. }
  exists mA. split_and!; [done|..].
  - intros p a Ha Hfree. apply (grows_get m2); [done|]. by apply Hmerged.
  - intros p x Hx. apply (grows_get mA); [|done]. by etrans.
  - intros p x Hx. apply (grows_get m); [|done].
    etrans; [by eapply generate_grows|]. by etrans.
Qed.

Lemma leftmost_parent_wins_witness :
  ∃ mA, generate 2 "A" Examples.diamond = Some (mA, Ok tt) ∧
    (∀ p a, get mA "A" p = Some a → get mA "X" p = None →
       get (Examples.after (generate 3 "X") Examples.diamond) "X" p = Some a) ∧
    (∀ p x, get mA "X" p = Some x →
       get (Examples.after (generate 3 "X") Examples.diamond) "X" p = Some x) ∧
    (∀ p x, get Examples.diamond "X" p = Some x →
       get (Examples.after (generate 3 "X") Examples.diamond) "X" p = Some x).
Proof.
  apply (leftmost_parent_wins 2 "X" "A" "B" Examples.diamond _
           (Examples.the Examples.diamond "X")).
  - by vm_compute.
  - by vm_compute.
  - by vm_compute.
Defined.

(** C1 as stated fails: [X] extends [A] and [B], which both define [p],
    and declares no property.  The property [q] of [A] refers to [X] with
    the reverse link [p], so the resolution of [A] (line 73) puts a
    reverse property [p] on [X] before the properties of [A] are merged
    (lines 75-77).  [X] keeps it: its [p] is not the property of [A]. *)
Lemma leftmost_parent_loses_to_reverse :
  let pA := mkProperty 0 "A" "p" (Examples.scalar "name") in
  let stub := mkProperty 3 "X" "p"
                (stub_data (mkPropData (Some "p") None None None None None)
                   (mkProperty 1 "A" "q" (Examples.link "X" "p"))) in
  let mA := Examples.after (generate 3 "A") back_link in
  let mB := Examples.after (generate 3 "B") back_link in
  let m' := Examples.after (generate 4 "X") back_link in
  r_extends (data (Examples.the back_link "X")) = ["A"; "B"] ∧
  props_of back_link "X" = [] ∧
  generate 3 "A" back_link = Some (mA, Ok tt) ∧ get mA "A" "p" = Some pA ∧
  generate 3 "B" back_link = Some (mB, Ok tt) ∧
  get mB "B" "p" = Some (mkProperty 2 "B" "p" (Examples.scalar "date")) ∧
  generate 4 "X" back_link = Some (m', Ok tt) ∧
  get m' "A" "p" = Some pA ∧
  get m' "X" "p" = Some stub ∧
  get m' "X" "p" ≠ get m' "A" "p".
Proof. split_and!; by vm_compute. Qed.

(** ** Reading the members of a model *)

Lemma member_mutate {A} (f : Schema → A) dflt x g m y :
  member f dflt (mutate x g m) y
  = if decide (x = y) then member (f ∘ g) dflt m y else member f dflt m y.
Proof.
  unfold member, mutate. simpl. case_decide as Hxy.
  - subst. rewrite lookup_alter_eq. by destruct (registry m !! y).
  - by rewrite lookup_alter_ne.
Qed.

Lemma registered_mutate x g m y :
  is_Some (registry (mutate x g m) !! y) ↔ is_Some (registry m !! y).
Proof.
  unfold mutate. simpl. destruct (decide (x = y)) as [->|Hne].
  - rewrite lookup_alter_eq. by rewrite fmap_is_Some.
  - by rewrite lookup_alter_ne.
Qed.

Lemma grows_member_subseteq (f : Schema → gset string) m m' x :
  (∀ s s', schema_grows s s' → f s ⊆ f s') → grows m m' →
  member f ∅ m x ⊆ member f ∅ m' x.
Proof.
  intros Hf [Hg _]. unfold member. specialize (Hg x).
  destruct Hg as [s s' Hs|]; simpl; [by apply Hf|done].
Qed.

Lemma grows_schemata m m' x : grows m m' → schemata_of m x ⊆ schemata_of m' x.
Proof. apply grows_member_subseteq. by intros s s' []. Qed.

Lemma grows_names m m' x : grows m m' → names_of m x ⊆ names_of m' x.
Proof. apply grows_member_subseteq. by intros s s' []. Qed.

Lemma grows_descendants m m' x : grows m m' → descendants_of m x ⊆ descendants_of m' x.
Proof. apply grows_member_subseteq. by intros s s' []. Qed.

Lemma grows_extends m m' x : grows m m' → extends_of m x ⊆ extends_of m' x.
Proof. apply grows_member_subseteq. by intros s s' []. Qed.

Lemma grows_data m m' x s s' :
  grows m m' → registry m !! x = Some s → registry m' !! x = Some s' → data s' = data s.
Proof.
  intros Hg Hs Hs'. destruct (grows_lookup _ _ _ _ Hg Hs) as (s2 & Hs2 & Hgrow).
  rewrite Hs' in Hs2. injection Hs2 as <-. symmetry. apply frozen_data. by destruct Hgrow.
Qed.

Lemma grows_bound m m' x k :
  grows m m' → is_Some (Dict.get k (props_of m x)) → is_Some (Dict.get k (props_of m' x)).
Proof. intros Hg [v Hv]. exists v. by apply (grows_get m m' x k v Hg). Qed.

Lemma grows_next_id m m' : grows m m' → (next_id m ≤ next_id m')%nat.
Proof. by intros []. Qed.

(** ** Resolved schemas stay resolved *)

Lemma steady_refl props m W : steady props m m W.
Proof. by split. Qed.

Lemma steady_trans props m1 m2 m3 W :
  steady props m1 m2 W → steady props m2 m3 W → steady props m1 m3 W.
Proof.
  intros [Ha1 Hb1 Hc1 Hd1] [Ha2 Hb2 Hc2 Hd2]. split; [congruence..|].
  intros Hp. rewrite Hd2, Hd1; done.
Qed.

Lemma covers_later props m m' child parent :
  grows m m' → steady props m m' parent →
  covers props m child parent → covers props m' child parent.
Proof.
  intros Hg [Hs _ _ Hp] [He Hsc Hn Hd Hpr]. split.
  - by apply (grows_extends m m').
  - rewrite Hs. etrans; [exact Hsc|]. exact (grows_schemata m m' child Hg).
  - rewrite Hs. etrans; [exact Hn|]. exact (grows_names m m' child Hg).
  - intros a Ha Hreg. rewrite Hs in Ha.
    apply (grows_descendants m m'); [done|]. apply Hd; [done|].
    by apply (grows_registered m m').
  - intros k v Hprops Hin. rewrite Hp in Hin by done.
    apply (grows_bound m m'); [done|]. by eapply Hpr.
Qed.

Lemma resolved_later props m m' W :
  grows m m' → (∀ V, resolved props m V → steady props m m' V) →
  resolved props m W → resolved props m' W.
Proof.
  intros Hg Hsteady. induction 1 as [X s Hs Hparents IH Hcov].
  destruct (grows_lookup _ _ _ _ Hg Hs) as (s' & Hs' & Hgrow).
  assert (data s' = data s) as Hdata by by eapply grows_data.
  apply (resolved_intro _ _ X s'); [done|rewrite Hdata..].
  - done.
  - intros P HP. apply (covers_later props m); [done| |by apply Hcov].
    by apply Hsteady, Hparents.
Qed.

#[global] Instance settled_preorder props : PreOrder (settled props).
Proof.
  split.
  - intros m. split; [reflexivity|]. intros W _ _. apply steady_refl.
  - intros m1 m2 m3 [Hg12 Hs12] [Hg23 Hs23]. split; [by etrans|].
    intros W Hnew HW.
    assert (props = true → no_new_property m1 m2 ∧ no_new_property m2 m3) as Hsplit.
    { intros Hp. specialize (Hnew Hp). unfold no_new_property in *.
      apply grows_next_id in Hg12, Hg23. lia. }
    eapply steady_trans.
    + apply Hs12; [naive_solver|done].
    + apply Hs23; [naive_solver|].
      apply (resolved_later props m1); [done| |done].
      intros V HV. apply Hs12; [naive_solver|done].
Qed.

(** ** The loop over the ancestors *)

Ltac members :=
  unfold props_of, schemata_of, names_of, descendants_of, extends_of;
  rewrite ?member_mutate; unfold member;
  repeat case_decide; subst;
  repeat match goal with
         | |- context [registry ?m !! ?x] => destruct (registry m !! x) eqn:?
         end;
  simpl.

Lemma linked_nil self m : linked self [] m m.
Proof. split; try done; intros; set_solver. Qed.

Lemma linked_one self a m : linked self [a] m (link_ancestor self a m).
Proof.
  unfold link_ancestor. split.
  - intros x. by rewrite !registered_mutate.
  - done.
  - intros W. by members.
  - intros W. by members.
  - intros W x. members; rewrite ?is_Some_alt; set_solver.
  - intros W x. members; rewrite ?is_Some_alt; set_solver.
  - intros W x. members; rewrite ?is_Some_alt; set_solver.
Qed.

Lemma linked_app self l1 l2 m m1 m2 :
  linked self l1 m m1 → linked self l2 m1 m2 → linked self (l2 ++ l1) m m2.
Proof.
  intros [Hr1 Hn1 Hp1 He1 Hs1 Hm1 Hd1] [Hr2 Hn2 Hp2 He2 Hs2 Hm2 Hd2]. split.
  - intros x. by rewrite Hr2.
  - congruence.
  - intros W. by rewrite Hp2.
  - intros W. by rewrite He2.
  - intros W x. rewrite Hs2, Hs1, Hr1, elem_of_app. naive_solver.
  - intros W x. rewrite Hm2, Hm1, Hr1, elem_of_app. naive_solver.
  - intros a x. rewrite Hd2, Hd1, Hr1, elem_of_app. naive_solver.
Qed.

Lemma linked_foldr self l m : linked self l m (foldr (link_ancestor self) m l).
Proof.
  induction l as [|a l IH]; simpl; [apply linked_nil|].
  apply (linked_app self l [a] m _ _ IH), linked_one.
Qed.

(** ** What a round adds *)

Lemma adopt_spec self parent m m' r :
  adopt self parent m = Some (m', r) → r = Ok tt ∧ adopted self parent m m'.
Proof.
  unfold adopt, merge_properties, link_ancestors, bind, reading, modify, set_fold. simpl.
  intros [= <- <-]. split; [done|].
  set (m1 := mutate self (upd_properties
               (λ mine, foldl merge_item mine (props_of m parent))) m).
  set (m2 := mutate self (upd_extends (λ e, e ∪ {[ parent ]})) m1).
  assert (schemata_of m2 parent = schemata_of m parent) as Hsame.
  { unfold m2, m1. by members. }
  assert (∀ x, is_Some (registry m2 !! x) ↔ is_Some (registry m !! x)) as Hreg.
  { intros x. unfold m2, m1. by rewrite !registered_mutate. }
  destruct (linked_foldr self (elements (schemata_of m2 parent)) m2)
    as [Hr Hn Hp He Hs Hm Hd].
  split.
  - intros x. by rewrite Hr.
  - by rewrite Hn.
  - intros [s Hs0]. rewrite Hp. unfold m2, m1. members; congruence.
  - intros W HW. rewrite Hp. unfold m2, m1. by members.
  - intros W x. rewrite He. unfold m2, m1. members; rewrite ?is_Some_alt; set_solver.
  - intros W x. rewrite Hs, Hreg, elem_of_elements, Hsame.
    assert (schemata_of m2 W = schemata_of m W) as ->; [|done].
    unfold m2, m1. by members.
  - intros W x. rewrite Hm, Hreg, elem_of_elements, Hsame.
    assert (names_of m2 W = names_of m W) as ->; [|done].
    unfold m2, m1. by members.
  - intros a x. rewrite Hd, Hreg, elem_of_elements, Hsame.
    assert (descendants_of m2 a = descendants_of m a) as ->; [|done].
    unfold m2, m1. by members.
Qed.

Lemma resolved_covers props m X P :
  resolved props m X → declared m X P → covers props m X P.
Proof.
  intros HX (s & Hs & HP). destruct HX as [X s' Hs' _ Hcov].
  rewrite Hs in Hs'. injection Hs' as <-. by apply Hcov.
Qed.

Lemma resolved_parent props m X P :
  resolved props m X → declared m X P → resolved props m P.
Proof.
  intros HX (s & Hs & HP). destruct HX as [X s' Hs' Hpar _].
  rewrite Hs in Hs'. injection Hs' as <-. by apply Hpar.
Qed.

Lemma declared_later m m' X P : grows m m' → declared m X P → declared m' X P.
Proof.
  intros Hg (s & Hs & HP). destruct (grows_lookup _ _ _ _ Hg Hs) as (s' & Hs' & _).
  exists s'. split; [done|]. by rewrite (grows_data m m' X s s').
Qed.

(** A round for a parent that [self] has taken in already adds nothing to
    [self], and nothing to the descendants of any schema. *)
Lemma adopt_covered props self parent m m' :
  covers props m self parent → adopted self parent m m' →
  steady props m m' self ∧ ∀ a, descendants_of m' a = descendants_of m a.
Proof.
  intros [He Hs Hn Hd Hp] Had. split; [split|].
  - apply set_eq. intros x. rewrite (ad_schemata _ _ _ _ Had). set_solver.
  - apply set_eq. intros x. rewrite (ad_names _ _ _ _ Had). set_solver.
  - apply set_eq. intros x. rewrite (ad_extends _ _ _ _ Had). set_solver.
  - intros Hprops. destruct (registry m !! self) as [s|] eqn:Hreg.
    + rewrite (ad_properties_self _ _ _ _ Had) by by eexists.
      apply merge_absorbs. intros k v Hin. by eapply Hp.
    + assert (∀ m0, registry m0 !! self = None → props_of m0 self = []) as Hnone.
      { intros m0 H0. unfold props_of, member. by rewrite H0. }
      rewrite !Hnone; [done..|].
      destruct (registry m' !! self) eqn:E; [|done].
      assert (is_Some (registry m !! self)) as [? ?]; [|congruence].
      apply (ad_registered _ _ _ _ Had). by eexists.
  - intros a. apply set_eq. intros x. rewrite (ad_descendants _ _ _ _ Had).
    split; [|by left]. intros [?|(-> & Ha & Hreg)]; [done|]. by apply Hd.
Qed.

(** Schemas other than [self] keep their members through a round. *)
Lemma adopt_other props self parent m m' W :
  W ≠ self → adopted self parent m m' → steady props m m' W.
Proof.
  intros HW Had. split.
  - apply set_eq. intros x. rewrite (ad_schemata _ _ _ _ Had). naive_solver.
  - apply set_eq. intros x. rewrite (ad_names _ _ _ _ Had). naive_solver.
  - apply set_eq. intros x. rewrite (ad_extends _ _ _ _ Had). naive_solver.
  - intros _. by apply (ad_properties _ _ _ _ Had).
Qed.

Lemma adopt_settled props self parent m m' :
  declared m self parent → grows m m' → adopted self parent m m' → settled props m m'.
Proof.
  intros Hdecl Hg Had. split; [done|]. intros W _ HW.
  destruct (decide (W = self)) as [->|Hne].
  - eapply adopt_covered; [|done]. by apply resolved_covers.
  - by eapply adopt_other.
Qed.

(** After a round, [self] has taken in the parent. *)
Lemma adopt_covers props self parent m m' :
  is_Some (registry m !! self) → adopted self parent m m' → covers props m' self parent.
Proof.
  intros Hreg Had.
  assert (∀ x, x ∈ schemata_of m' parent → x ∈ schemata_of m parent) as Hpar.
  { intros x. rewrite (ad_schemata _ _ _ _ Had). naive_solver. }
  split.
  - rewrite (ad_extends _ _ _ _ Had). by right.
  - intros x Hx. rewrite (ad_schemata _ _ _ _ Had). right. by split_and!; [..|apply Hpar].
  - intros x Hx. rewrite (ad_names _ _ _ _ Had). right. by split_and!; [..|apply Hpar].
  - intros a Ha Ha'. rewrite (ad_descendants _ _ _ _ Had). right.
    split_and!; [done|by apply Hpar|by apply (ad_registered _ _ _ _ Had)].
  - intros k v _ Hin. destruct (decide (parent = self)) as [->|Hne].
    + by eapply DictFacts.elem_of_get_is_Some.
    + rewrite (ad_properties _ _ _ _ Had) in Hin by done.
      rewrite (ad_properties_self _ _ _ _ Had) by done. by eapply merge_covers.
Qed.

(** ** The resolution of properties leaves the sets alone *)

#[global] Instance same_sets_preorder : PreOrder same_sets.
Proof.
  split.
  - by intros m x.
  - intros m1 m2 m3 H12 H23 x.
    destruct (H12 x) as (? & ? & ? & ?), (H23 x) as (? & ? & ? & ?).
    split_and!; congruence.
Qed.

#[global] Instance idle_preorder : PreOrder idle.
Proof.
  split.
  - intros m. split; [reflexivity|done].
  - intros m1 m2 m3 [Hg12 H12] [Hg23 H23]. split; [by etrans|].
    unfold no_new_property in *. intros Hnew.
    apply grows_next_id in Hg12 as Hn12. apply grows_next_id in Hg23 as Hn23.
    rewrite H23 by lia. apply H12. lia.
Qed.

Lemma same_sets_bump m : same_sets m (bump m).
Proof. by intros x. Qed.

Lemma same_sets_set_property self nm prop m :
  same_sets m (mutate self (upd_properties (Dict.set nm prop)) m).
Proof. intros x. split_and!; by members. Qed.

Lemma _add_reverse_same_sets fuel : ∀ self data other,
  preserves same_sets (_add_reverse fuel self data other).
Proof.
  induction fuel as [|fuel IH]; intros self data other; simpl.
  - apply preserves_diverge.
  - destruct (d_name data) as [nm|]; [|apply preserves_raise; apply _].
    apply preserves_reading. intros [prop|]; [apply preserves_ret; apply _|].
    apply preserves_bind; [apply _| |intros prop].
    { intros m m' r [= <- _]. apply same_sets_bump. }
    apply preserves_bind; [apply _| |intros _].
    { apply Property_generate_with_preserves; [apply _|apply IH]. }
    apply preserves_bind; [apply _| |intros _; apply preserves_ret; apply _].
    apply preserves_modify. intros m. apply same_sets_set_property.
Qed.

Lemma Property_generate_same_sets fuel prop :
  preserves same_sets (Property_generate fuel prop).
Proof.
  apply Property_generate_with_preserves; [apply _|]. apply _add_reverse_same_sets.
Qed.

(** [_add_reverse] that creates no property changes nothing. *)
Lemma _add_reverse_idle fuel self data other :
  preserves idle (_add_reverse fuel self data other).
Proof.
  intros m m' r Hrun. split; [by eapply _add_reverse_grows|].
  destruct fuel as [|fuel]; [done|]. simpl in Hrun.
  destruct (d_name data) as [nm|]; [|by injection Hrun as <- _].
  unfold reading in Hrun. destruct (get m self nm) as [prop|]; [by injection Hrun as <- _|].
  unfold no_new_property. intros Hnew. exfalso.
  apply bind_Some in Hrun as [(m1 & prop & Hnewp & Hrest)|(e & [=] & _)].
  injection Hnewp as <- <-.
  assert (next_id (bump m) ≤ next_id m')%nat; [|simpl in *; lia].
  apply bind_Some in Hrest as [(m2 & [] & Hgen & Hrest)|(e & Hgen & _)].
  - apply bind_Some in Hrest as [(m3 & [] & Hset & Hret)|(e & [=] & _)].
    injection Hset as <-. injection Hret as <- _. simpl.
    apply (grows_next_id (bump m) m2).
    eapply Property_generate_with_preserves; [apply _|apply _add_reverse_grows|done].
  - apply (grows_next_id (bump m) m').
    eapply Property_generate_with_preserves; [apply _|apply _add_reverse_grows|done].
Qed.

Lemma Property_generate_idle fuel prop : preserves idle (Property_generate fuel prop).
Proof.
  apply Property_generate_with_preserves; [apply _|]. apply _add_reverse_idle.
Qed.

Lemma Property_generate_settled props fuel prop :
  preserves (settled props) (Property_generate fuel prop).
Proof.
  intros m m' r Hrun.
  destruct (Property_generate_idle _ _ _ _ _ Hrun) as [Hg Hidle].
  pose proof (Property_generate_same_sets _ _ _ _ _ Hrun) as Hsets.
  split; [done|]. intros W Hnew _. destruct (Hsets W) as (? & ? & ? & _).
  split; try done. intros Hp. by rewrite Hidle by auto.
Qed.

Lemma finalize_settled props fuel self : preserves (settled props) (finalize fuel self).
Proof. apply finalize_preserves; [apply _|]. apply Property_generate_settled. Qed.

Lemma finalize_same_sets fuel self : preserves same_sets (finalize fuel self).
Proof. apply finalize_preserves; [apply _|]. apply Property_generate_same_sets. Qed.

(** ** Resolution leaves resolved schemas as they are *)

Lemma settled_resolved props m m' W :
  settled props m m' → (props = true → no_new_property m m') →
  resolved props m W → resolved props m' W ∧ steady props m m' W.
Proof.
  intros [Hg Hsteady] Hnew HW. split; [|by apply Hsteady].
  apply (resolved_later props m); [done| |done].
  intros V HV. by apply Hsteady.
Qed.

(** The part of a no-creation condition that falls on each of two
    consecutive stages. *)
Lemma no_new_property_split (props : bool) m m1 m2 :
  grows m m1 → grows m1 m2 → (props = true → no_new_property m m2) →
  (props = true → no_new_property m m1) ∧ (props = true → no_new_property m1 m2).
Proof.
  intros Hg1 Hg2 Hnew. apply grows_next_id in Hg1, Hg2.
  unfold no_new_property in *. split; intros Hp; specialize (Hnew Hp); lia.
Qed.

Lemma resolve_parent_settled props gen self parent m m' r :
  (∀ P, preserves (settled props) (gen P)) → declared m self parent →
  resolve_parent gen self parent m = Some (m', r) → settled props m m'.
Proof.
  intros Hgen Hdecl. unfold resolve_parent, reading.
  destruct (Model_get m parent); [|intros [= <- _]; reflexivity].
  intros [(m1 & [] & Hp & Hadopt)|(e & Hp & _)]%bind_Some; [|by eapply Hgen].
  pose proof (Hgen _ _ _ _ Hp) as Hs1. etrans; [exact Hs1|].
  pose proof (adopt_grows _ _ _ _ _ Hadopt) as Hg.
  apply adopt_spec in Hadopt as [_ Had].
  eapply adopt_settled; [|done|done].
  apply (declared_later m); [by destruct Hs1|done].
Qed.

Lemma parents_settled props gen self l : ∀ m m' r,
  (∀ P, preserves (settled props) (gen P)) →
  (∀ P, P ∈ l → declared m self P) →
  for_each l (resolve_parent gen self) m = Some (m', r) → settled props m m'.
Proof.
  induction l as [|P l IH]; intros m m' r Hgen Hdecl; simpl.
  - intros [= <- _]. reflexivity.
  - intros [(m1 & [] & HP & Hrest)|(e & HP & _)]%bind_Some.
    + assert (settled props m m1) as Hs1.
      { eapply resolve_parent_settled; [done| |done]. apply Hdecl. left. }
      etrans; [exact Hs1|]. eapply IH; [done| |done].
      intros Q HQ. apply (declared_later m); [by destruct Hs1|]. apply Hdecl. by right.
    + eapply resolve_parent_settled; [done| |done]. apply Hdecl. left.
Qed.

Lemma inherit_settled props gen self :
  (∀ P, preserves (settled props) (gen P)) → preserves (settled props) (inherit gen self).
Proof.
  intros Hgen m m' r. unfold inherit, reading, member.
  destruct (registry m !! self) as [s|] eqn:Hs; simpl.
  - apply parents_settled; [done|]. intros P HP. by exists s.
  - intros [= <- _]. reflexivity.
Qed.

Lemma generate_settled props fuel : ∀ self, preserves (settled props) (generate fuel self).
Proof.
  induction fuel as [|fuel IH]; intros self; simpl.
  - apply preserves_diverge.
  - apply preserves_bind; [apply _|by apply inherit_settled|intros _].
    apply finalize_settled.
Qed.

(** ** A completed resolution leaves the schema resolved *)

Lemma resolve_parent_Ok_inv gen self parent m m' :
  resolve_parent gen self parent m = Some (m', Ok tt) →
  is_Some (registry m !! parent) ∧
  ∃ mp, gen parent m = Some (mp, Ok tt) ∧ adopt self parent mp = Some (m', Ok tt).
Proof.
  unfold resolve_parent, reading, Model_get.
  destruct (registry m !! parent); [|done].
  intros (mp & [] & Hp & Hadopt)%bind_Ok. eauto.
Qed.

Lemma parents_resolved props fuel self l : ∀ m m',
  (∀ P mP mP', generate fuel P mP = Some (mP', Ok tt) →
     is_Some (registry mP !! P) → (props = true → no_new_property mP mP') →
     resolved props mP' P) →
  is_Some (registry m !! self) →
  (∀ P, P ∈ l → declared m self P) →
  for_each l (resolve_parent (generate fuel) self) m = Some (m', Ok tt) →
  (props = true → no_new_property m m') →
  ∀ P, P ∈ l → resolved props m' P ∧ covers props m' self P.
Proof.
  induction l as [|P l IH]; intros m m' Hgen Hreg Hdecl Hrun Hnew Q HQ.
  { by apply elem_of_nil in HQ. }
  simpl in Hrun. apply bind_Ok in Hrun as (m1 & [] & HP & Hrest).
  assert (declared m self P) as HdP by (apply Hdecl; left).
  assert (settled props m m1) as Hs1.
  { eapply resolve_parent_settled; [apply generate_settled|done|done]. }
  assert (settled props m1 m') as Hs2.
  { eapply parents_settled; [apply generate_settled| |done].
    intros R HR. apply (declared_later m); [by destruct Hs1|]. apply Hdecl. by right. }
  destruct (no_new_property_split props m m1 m') as [Hnew1 Hnew2];
    [by destruct Hs1|by destruct Hs2|done|].
  apply elem_of_cons in HQ as [->|HQ].
  - apply resolve_parent_Ok_inv in HP as (HregP & mp & Hp & Hadopt).
    pose proof (generate_settled props _ _ _ _ _ Hp) as Hsp.
    pose proof (adopt_grows _ _ _ _ _ Hadopt) as Hga.
    destruct (no_new_property_split props m mp m1) as [Hnewp Hnewa];
      [by destruct Hsp|done|done|].
    apply adopt_spec in Hadopt as [_ Had].
    assert (is_Some (registry mp !! self)) as Hregp.
    { apply (grows_registered m mp self); [by destruct Hsp|done]. }
    assert (resolved props mp P) as HresP by (by eapply Hgen).
    assert (settled props mp m1) as Hsa.
    { eapply adopt_settled; [|done|done]. apply (declared_later m); [by destruct Hsp|done]. }
    destruct (settled_resolved props mp m1 P Hsa Hnewa HresP) as [HresP1 _].
    destruct (settled_resolved props m1 m' P Hs2 Hnew2 HresP1) as [HresP2 HstP].
    split; [done|]. apply (covers_later props m1); [by destruct Hs2|done|].
    by eapply adopt_covers.
  - eapply (IH m1); try done.
    + apply (grows_registered m m1 self); [by destruct Hs1|done].
    + intros R HR. apply (declared_later m); [by destruct Hs1|]. apply Hdecl. by right.
Qed.

(** A completed [generate] leaves the schema resolved; with [props], when
    the invocation created no property. *)
Lemma generate_resolved props fuel : ∀ self m m',
  generate fuel self m = Some (m', Ok tt) →
  is_Some (registry m !! self) → (props = true → no_new_property m m') →
  resolved props m' self.
Proof.
  induction fuel as [|fuel IH]; intros self m m' Hrun [s Hs] Hnew; [done|].
  simpl in Hrun. apply bind_Ok in Hrun as (m1 & [] & Hinherit & Hfinal).
  pose proof (inherit_settled props _ self (generate_settled props fuel) _ _ _ Hinherit) as Hs1.
  pose proof (finalize_settled props _ _ _ _ _ Hfinal) as Hs2.
  destruct (no_new_property_split props m m1 m') as [Hnew1 Hnew2];
    [by destruct Hs1|by destruct Hs2|done|].
  unfold inherit, reading, member in Hinherit. rewrite Hs in Hinherit. simpl in Hinherit.
  pose proof (parents_resolved props fuel self (r_extends (data s)) m m1 IH
                (ltac:(by eexists)) (ltac:(intros P HP; by exists s)) Hinherit Hnew1)
    as Hparents.
  assert (grows m m') as Hg by (etrans; [by destruct Hs1|by destruct Hs2]).
  destruct (grows_lookup _ _ _ _ Hg Hs) as (s' & Hs' & _).
  assert (data s' = data s) as Hdata by by eapply grows_data.
  apply (resolved_intro props m' self s'); [done|rewrite Hdata..].
  - intros P HP. destruct (Hparents P HP) as [HresP _].
    by apply (settled_resolved props m1 m' P).
  - intros P HP. destruct (Hparents P HP) as [HresP Hcov].
    apply (covers_later props m1); [by destruct Hs2| |done].
    by apply (settled_resolved props m1 m' P).
Qed.

(** ** Resolving a resolved schema adds no descendant *)

Lemma parents_descendants props fuel self l : ∀ m m' r,
  (∀ P mP mP' rP, resolved props mP P → generate fuel P mP = Some (mP', rP) →
     (props = true → no_new_property mP mP') →
     ∀ a, descendants_of mP' a = descendants_of mP a) →
  resolved props m self → (∀ P, P ∈ l → declared m self P) →
  for_each l (resolve_parent (generate fuel) self) m = Some (m', r) →
  (props = true → no_new_property m m') →
  ∀ a, descendants_of m' a = descendants_of m a.
Proof.
  induction l as [|P l IH]; intros m m' r Hgen Hres Hdecl Hrun Hnew a; simpl in Hrun.
  { by injection Hrun as <- _. }
  assert (declared m self P) as HdP by (apply Hdecl; left).
  assert (∀ m1 r1, resolve_parent (generate fuel) self P m = Some (m1, r1) →
            (props = true → no_new_property m m1) →
            ∀ a, descendants_of m1 a = descendants_of m a) as Hround.
  { intros m1 r1. unfold resolve_parent, reading.
    destruct (Model_get m P); [|by intros [= <- _]].
    intros Hround Hnew1 b.
    assert (resolved props m P) as HresP by by eapply resolved_parent.
    apply bind_Some in Hround as [(mp & [] & Hp & Hadopt)|(e & Hp & _)];
      [|by eapply Hgen].
    pose proof (generate_settled props _ _ _ _ _ Hp) as Hsp.
    pose proof (adopt_grows _ _ _ _ _ Hadopt) as Hga.
    destruct (no_new_property_split props m mp m1) as [Hnewp Hnewa];
      [by destruct Hsp|done|done|].
    apply adopt_spec in Hadopt as [_ Had].
    destruct (settled_resolved props m mp self Hsp Hnewp Hres) as [Hresp _].
    assert (covers props mp self P) as Hcov.
    { apply resolved_covers; [done|]. apply (declared_later m); [by destruct Hsp|done]. }
    destruct (adopt_covered props self P mp m1 Hcov Had) as [_ ->].
    by eapply Hgen. }
  apply bind_Some in Hrun as [(m1 & [] & HP & Hrest)|(e & HP & _)].
  - assert (settled props m m1) as Hs1.
    { eapply resolve_parent_settled; [apply generate_settled|done|done]. }
    assert (settled props m1 m') as Hs2.
    { eapply parents_settled; [apply generate_settled| |done].
      intros R HR. apply (declared_later m); [by destruct Hs1|]. apply Hdecl. by right. }
    destruct (no_new_property_split props m m1 m') as [Hnew1 Hnew2];
      [by destruct Hs1|by destruct Hs2|done|].
    rewrite (IH m1 m' r); try done.
    + by eapply Hround.
    + by apply (settled_resolved props m m1 self).
    + intros R HR. apply (declared_later m); [by destruct Hs1|]. apply Hdecl. by right.
  - by eapply Hround.
Qed.

Lemma generate_descendants props fuel : ∀ self m m' r,
  resolved props m self → generate fuel self m = Some (m', r) →
  (props = true → no_new_property m m') →
  ∀ a, descendants_of m' a = descendants_of m a.
Proof.
  induction fuel as [|fuel IH]; intros self m m' r Hres Hrun Hnew a; [done|].
  simpl in Hrun.
  assert (∀ m1 r1, inherit (generate fuel) self m = Some (m1, r1) →
            (props = true → no_new_property m m1) →
            ∀ a, descendants_of m1 a = descendants_of m a) as Hparents.
  { intros m1 r1. unfold inherit, reading, member.
    destruct (registry m !! self) as [s|] eqn:Hs; simpl; [|by intros [= <- _]].
    intros Hloop Hnew1. eapply parents_descendants; try done.
    intros P HP. by exists s. }
  apply bind_Some in Hrun as [(m1 & [] & Hinherit & Hfinal)|(e & Hinherit & _)];
    [|by eapply Hparents].
  pose proof (inherit_settled props _ self (generate_settled props fuel) _ _ _ Hinherit) as Hs1.
  pose proof (finalize_settled props _ _ _ _ _ Hfinal) as Hs2.
  destruct (no_new_property_split props m m1 m') as [Hnew1 Hnew2];
    [by destruct Hs1|by destruct Hs2|done|].
  destruct (finalize_same_sets _ _ _ _ _ Hfinal a) as (_ & _ & _ & ->).
  by eapply Hparents.
Qed.

(** ** Invoking [generate] again *)

(** What a second invocation of [generate], with any fuel and any outcome,
    leaves of a schema that a first invocation has resolved. *)
Lemma generate_again fuel fuel' self m m1 m2 r :
  is_Some (registry m !! self) →
  generate fuel self m = Some (m1, Ok tt) → generate fuel' self m1 = Some (m2, r) →
  schemata_of m2 self = schemata_of m1 self ∧
  names_of m2 self = names_of m1 self ∧
  descendants_of m2 self = descendants_of m1 self ∧
  Dict.incl (props_of m1 self) (props_of m2 self) ∧
  (no_new_property m m2 → props_of m2 self = props_of m1 self).
Proof.
  intros Hreg Hfirst Hsecond.
  pose proof (generate_grows _ _ _ _ _ Hfirst) as Hg1.
  pose proof (generate_grows _ _ _ _ _ Hsecond) as Hg2.
  assert (resolved false m1 self) as Hres by by eapply generate_resolved.
  destruct (settled_resolved false m1 m2 self) as [_ [Hs Hn _ _]];
    [by eapply generate_settled|done|done|].
  split_and!; [done|done| | |].
  - by eapply (generate_descendants false).
  - intros k v. apply (grows_get m1 m2 self k v Hg2).
  - intros Hnew.
    destruct (no_new_property_split true m m1 m2) as [Hnew1 Hnew2]; [done..|].
    assert (resolved true m1 self) as Hrest by by eapply generate_resolved.
    destruct (settled_resolved true m1 m2 self) as [_ [_ _ _ Hp]];
      [by eapply generate_settled|done|done|]. by apply Hp.
Qed.

(** ** Properties whose resolution returns *)

Lemma grows_unregistered m m' x :
  grows m m' → registry m !! x = None ↔ registry m' !! x = None.
Proof.
  intros Hg. rewrite !eq_None_not_Some. by rewrite (grows_registered m m' x Hg).
Qed.

Lemma good_later m m' q : grows m m' → good m q → good m' q.
Proof.
  intros Hg Hq range rev Hty Hrg Hrev Hreg.
  destruct (Hq range rev Hty Hrg Hrev) as (nm & Hnm & Hcase).
  { by apply (grows_registered m m' range Hg). }
  exists nm. split; [done|]. destruct Hcase as [[p Hp]|[Hnone|[p Hp]]].
  - left. exists p. by apply (grows_get m m').
  - right. left. by apply (grows_unregistered m m').
  - right. right. exists p. by apply (grows_get m m').
Qed.

#[global] Instance later_preorder : PreOrder later.
Proof.
  split.
  - intros m. split; [reflexivity|]. intros W k q Hin. by right.
  - intros m1 m2 m3 [Hg12 H12] [Hg23 H23]. split; [by etrans|].
    intros W k q Hin. destruct (H23 W k q Hin) as [Hgood|Hin2]; [by left|].
    destruct (H12 W k q Hin2) as [Hgood|Hin1]; [|by right].
    left. by apply (good_later m2 m3).
Qed.

Lemma tidy_later m m' W : later m m' → tidy m W → tidy m' W.
Proof.
  intros [Hg Hnew] Htidy k q Hin. destruct (Hnew W k q Hin) as [Hgood|Hold]; [done|].
  apply (good_later m m'); [done|]. by eapply Htidy.
Qed.

Lemma _add_reverse_unfold fuel self data other :
  _add_reverse (S fuel) self data other
  = match d_name data with
    | None =>
        raise (InvalidModel ("Unnamed reverse: " +:+ p_schema other +:+ ":" +:+ p_name other))
    | Some nm =>
        reading (λ m, get m self nm) (λ found,
          match found with
          | Some prop => ret prop
          | None =>
              let! prop := new_property self nm (stub_data data other) in
              Property_generate_with (_add_reverse fuel) prop ;;;
              set_property self nm prop ;;;
              ret prop
          end)
    end.
Proof. done. Qed.

(** The resolution of a reverse property returns when the property it was
    made for is bound on its schema. *)
Lemma stub_generate_returns fuel i self nm data other m :
  registry m !! p_schema other = None ∨ is_Some (get m (p_schema other) (p_name other)) →
  Property_generate_with (_add_reverse (S fuel))
    (mkProperty i self nm (stub_data data other)) m = Some (m, Ok tt).
Proof.
  intros Hcase. unfold Property_generate_with.
  remember (_add_reverse (S fuel)) as add eqn:Hadd. simpl. subst add.
  unfold reading, Model_get.
  destruct (registry m !! p_schema other) as [t|] eqn:Ht; [|done].
  destruct Hcase as [[=]|[p Hp]].
  unfold bind. by rewrite (_add_reverse_found _ _ _ _ (p_name other) p).
Qed.

Lemma _add_reverse_returns fuel self data other nm m :
  d_name data = Some nm → get m self nm = None →
  registry m !! p_schema other = None ∨ is_Some (get m (p_schema other) (p_name other)) →
  ∃ m' p, _add_reverse (S (S fuel)) self data other m = Some (m', Ok p).
Proof.
  intros Hnm Hfree Hcase. rewrite _add_reverse_unfold, Hnm.
  unfold reading. rewrite Hfree. unfold bind at 1. unfold new_property.
  unfold bind at 1.
  change (mkModel (registry m) (S (next_id m))) with (bump m).
  rewrite stub_generate_returns by done. by eexists _, _.
Qed.

(** A good property is resolved, with fuel for the property and its
    reverse. *)
Lemma good_generate fuel m q :
  good m q → ∃ m', Property_generate (S (S fuel)) q m = Some (m', Ok tt) ∧ grows m m'.
Proof.
  intros Hq.
  cut (∃ m', Property_generate (S (S fuel)) q m = Some (m', Ok tt)).
  { intros [m' Hrun]. exists m'. split; [done|]. by eapply Property_generate_grows. }
  unfold Property_generate, Property_generate_with. unfold good in Hq.
  destruct (d_type (p_data q)) as [kind|]; [|by eexists].
  destruct (d_range (p_data q)) as [range|]; [|by eexists].
  destruct (d_reverse (p_data q)) as [rev|]; [|by eexists].
  case_decide as Hkind; [subst kind|by eexists].
  unfold reading, Model_get. destruct (registry m !! range) as [t|] eqn:Ht; [|by eexists].
  destruct (Hq range rev eq_refl eq_refl eq_refl) as (nm & Hnm & Hcase); [by eexists|].
  unfold bind.
  destruct (get m range nm) as [p|] eqn:Hp.
  - rewrite (_add_reverse_found _ _ _ _ nm p) by done. by eexists.
  - destruct Hcase as [[p Hp']|Hcase]; [congruence|].
    destruct (_add_reverse_returns fuel range rev q nm m Hnm Hp Hcase) as (m' & p & ->).
    by eexists.
Qed.

(** A property whose resolution returned normally is good. *)
Lemma generate_Ok_good fuel m m' q :
  Property_generate fuel q m = Some (m', Ok tt) → good m q.
Proof.
  intros Hrun range rev Hty Hrg Hrev [t Ht].
  unfold Property_generate, Property_generate_with in Hrun.
  rewrite Hty, Hrg, Hrev, decide_True in Hrun by done.
  unfold reading, Model_get in Hrun. rewrite Ht in Hrun.
  apply bind_Ok in Hrun as (m1 & p & Hadd & _).
  destruct fuel as [|fuel]; [done|]. simpl in Hadd.
  destruct (d_name rev) as [nm|] eqn:Hnm; [|done]. exists nm. split; [done|].
  unfold reading in Hadd. destruct (get m range nm) as [p0|] eqn:Hp0; [left; by eexists|].
  right. destruct (registry m !! p_schema q) as [t'|] eqn:Ht'; [right|by left].
  destruct (get m (p_schema q) (p_name q)) as [p1|] eqn:Hp1; [by eexists|].
  exfalso. apply bind_Ok in Hadd as (m2 & stub & Hnew & Hrest).
  injection Hnew as <- <-.
  apply bind_Ok in Hrest as (m3 & [] & Hgen & _).
  rewrite (stub_generate_diverges fuel (bump m) range nm (p_schema q) (p_name q) _
             (mkPropData (Some (p_name q)) None None None None None)) in Hgen; done.
Qed.

Lemma elem_of_dict_set {V} k (v : V) d k' v' :
  (k', v') ∈ Dict.set k v d → (k', v') = (k, v) ∨ (k', v') ∈ d.
Proof.
  induction d as [|[k0 v0] d IH]; simpl.
  - intros ->%list_elem_of_singleton. by left.
  - case_decide; rewrite !elem_of_cons; naive_solver.
Qed.

Lemma elem_of_merge items : ∀ (acc : list (string * Property)) k v,
  (k, v) ∈ foldl merge_item acc items → (k, v) ∈ acc ∨ (k, v) ∈ items.
Proof.
  induction items as [|[k0 v0] items IH]; intros acc k v; simpl; [by left|].
  intros [Hacc|Hitems]%IH; [|right; by right].
  unfold merge_item in Hacc. simpl in Hacc.
  destruct (Dict.get k0 acc); [by left|].
  apply elem_of_dict_set in Hacc as [->|Hacc]; [right; left|by left].
Qed.

(** A reverse property bound on its schema is good. *)
Lemma good_stub i self nm data other m :
  is_Some (get m self nm) → good m (mkProperty i self nm (stub_data data other)).
Proof.
  intros Hbound range rev _ _ [= <-] _. simpl.
  exists (p_name other). split; [done|]. by right; right.
Qed.

(** Binding a reverse property on its schema adds a good entry. *)
Lemma later_set_stub self nm i data other m :
  grows m (mutate self (upd_properties
             (Dict.set nm (mkProperty i self nm (stub_data data other)))) m) →
  later m (mutate self (upd_properties
             (Dict.set nm (mkProperty i self nm (stub_data data other)))) m).
Proof.
  intros Hg. split; [done|]. intros W k q.
  destruct (decide (W = self)) as [->|Hne]; [|members; by right].
  destruct (registry m !! self) as [s|] eqn:Hs.
  - unfold props_of at 1. rewrite member_mutate, decide_True by done.
    unfold member. rewrite Hs. simpl.
    intros [[= -> ->]|Hold]%elem_of_dict_set.
    + left. apply good_stub. rewrite get_set_property; by eexists.
    + right. unfold props_of, member. by rewrite Hs.
  - members; by right.
Qed.

Lemma later_bump m : later m (bump m).
Proof. split; [apply grows_bump|]. intros W k q Hin. by right. Qed.

Lemma _add_reverse_later fuel : ∀ self data other,
  preserves later (_add_reverse fuel self data other).
Proof.
  induction fuel as [|fuel IH]; intros self data other m m' r Hrun; [done|].
  rewrite _add_reverse_unfold in Hrun.
  destruct (d_name data) as [nm|]; [|injection Hrun as <- _; reflexivity].
  unfold reading in Hrun.
  destruct (get m self nm) as [found|] eqn:Hfree; [injection Hrun as <- _; reflexivity|].
  apply bind_Some in Hrun as [(m0 & stub & Hnew & Hrest)|(e & [=] & _)].
  injection Hnew as <- <-. etrans; [apply later_bump|].
  assert (∀ m1 r1, Property_generate_with (_add_reverse fuel)
            (mkProperty (next_id m) self nm (stub_data data other)) (bump m)
            = Some (m1, r1) → later (bump m) m1) as Hgen.
  { intros m1 r1. apply Property_generate_with_preserves; [apply _|apply IH]. }
  apply bind_Some in Hrest as [(m1 & [] & Hstub & Hrest)|(e & Hstub & _)];
    [|by eapply Hgen].
  etrans; [by eapply Hgen|].
  apply bind_Some in Hrest as [(m2 & [] & Hset & Hret)|(e & [=] & _)].
  injection Hset as <-. injection Hret as <- _.
  apply later_set_stub, grows_mutate. intros s Hs.
  apply schema_grows_properties, DictFacts.incl_set_fresh.
  assert (is_Some (registry (bump m) !! self)) as Hreg.
  { apply (grows_registered (bump m) m1 self); [|by eexists].
    by destruct (Hgen _ _ Hstub). }
  destruct (stub_generate_noop _ _ _ _ _ _ _ _ _ Hreg Hfree Hstub) as [-> _].
  revert Hfree. unfold get, props_of, member. simpl in Hs. by rewrite Hs.
Qed.

Lemma Property_generate_later fuel prop : preserves later (Property_generate fuel prop).
Proof.
  apply Property_generate_with_preserves; [apply _|]. apply _add_reverse_later.
Qed.

(** A round for a parent whose properties are good adds good entries. *)
Lemma adopt_later self parent m m' :
  tidy m parent → grows m m' → adopted self parent m m' → later m m'.
Proof.
  intros Htidy Hg Had. split; [done|]. intros W k q Hin.
  destruct (decide (W = self)) as [->|Hne];
    [|right; by rewrite (ad_properties _ _ _ _ Had) in Hin].
  destruct (registry m !! self) as [s|] eqn:Hs.
  - rewrite (ad_properties_self _ _ _ _ Had) in Hin by by eexists.
    apply elem_of_merge in Hin as [Hold|Hparent]; [by right|].
    left. apply (good_later m m'); [done|]. by eapply Htidy.
  - exfalso. revert Hin. unfold props_of, member.
    destruct (registry m' !! self) eqn:E; [|by intros ?%elem_of_nil].
    assert (is_Some (registry m !! self)) as [? ?]; [|congruence].
    apply (ad_registered _ _ _ _ Had). by eexists.
Qed.

(** When the loop over the properties returns normally, each of them is
    good in the end. *)
Lemma for_each_Ok_good fuel l : ∀ m m',
  for_each l (Property_generate fuel) m = Some (m', Ok tt) →
  grows m m' ∧ ∀ q, q ∈ l → good m' q.
Proof.
  induction l as [|p l IH]; intros m m'; simpl.
  - intros [= <-]. split; [reflexivity|]. by intros q ?%elem_of_nil.
  - intros (m1 & [] & Hp & Hrest)%bind_Ok.
    destruct (IH _ _ Hrest) as [Hg Hgood].
    pose proof (Property_generate_grows _ _ _ _ _ Hp) as Hg1.
    split; [by etrans|]. intros q [->|Hq]%elem_of_cons; [|by apply Hgood].
    apply (good_later m m'); [by etrans|]. by eapply generate_Ok_good.
Qed.

Lemma resolve_properties_later fuel self : preserves later (resolve_properties fuel self).
Proof.
  apply preserves_reading. intros props. apply preserves_for_each; [apply _|].
  intros q _. apply Property_generate_later.
Qed.

Lemma parents_later fuel self l : ∀ m m' r,
  (∀ P mP mP' rP, generate fuel P mP = Some (mP', rP) →
     later mP mP' ∧ (rP = Ok tt → tidy mP' P)) →
  for_each l (resolve_parent (generate fuel) self) m = Some (m', r) → later m m'.
Proof.
  induction l as [|P l IH]; intros m m' r Hgen; simpl.
  { intros [= <- _]. reflexivity. }
  assert (∀ m1 r1, resolve_parent (generate fuel) self P m = Some (m1, r1) → later m m1)
    as Hround.
  { intros m1 r1. unfold resolve_parent, reading.
    destruct (Model_get m P); [|intros [= <- _]; reflexivity].
    intros [(mp & [] & Hp & Hadopt)|(e & Hp & _)]%bind_Some; [|by eapply Hgen].
    destruct (Hgen _ _ _ _ Hp) as [Hl Htidy]. etrans; [exact Hl|].
    pose proof (adopt_grows _ _ _ _ _ Hadopt) as Hg.
    apply adopt_spec in Hadopt as [_ Had]. eapply adopt_later; [by apply Htidy|done..]. }
  intros [(m1 & [] & HP & Hrest)|(e & HP & _)]%bind_Some; [|by eapply Hround].
  etrans; [by eapply Hround|by eapply IH].
Qed.

(** Every invocation of [generate] leads to a later stage with good new
    entries, and a completed one leaves the properties of the schema good. *)
Lemma generate_later fuel : ∀ self m m' r,
  generate fuel self m = Some (m', r) → later m m' ∧ (r = Ok tt → tidy m' self).
Proof.
  induction fuel as [|fuel IH]; intros self m m' r Hrun; [done|].
  simpl in Hrun.
  assert (∀ m1 r1, inherit (generate fuel) self m = Some (m1, r1) → later m m1) as Hinh.
  { intros m1 r1. unfold inherit, reading. by apply parents_later. }
  apply bind_Some in Hrun as [(m1 & [] & Hinherit & Hfinal)|(e & Hinherit & ->)];
    [|split; [by eapply Hinh|done]].
  apply Hinh in Hinherit.
  apply bind_Some in Hfinal as [(m2 & [] & Hprops & Hchecks)|(e & Hprops & ->)].
  - apply checks_same in Hchecks as ->.
    pose proof (resolve_properties_later _ _ _ _ _ Hprops) as Hl.
    split; [by etrans|]. intros _ k q Hin.
    destruct Hl as [Hg Hnew]. destruct (Hnew self k q Hin) as [Hgood|Hold]; [done|].
    destruct (for_each_Ok_good _ _ _ _ Hprops) as [_ Hall]. apply Hall.
    unfold Dict.values. apply list_elem_of_fmap. by exists (k, q).
  - split; [|done]. etrans; [done|]. by eapply resolve_properties_later.
Qed.

(** ** A later invocation returns *)

(** The members that resolution never touches read the same later. *)
Lemma grows_member_frozen {A} (f : Schema → A) dflt m m' x :
  (∀ s, f s = f (frozen s)) → grows m m' → member f dflt m' x = member f dflt m x.
Proof.
  intros Hf Hg. unfold member. destruct (registry m !! x) as [s|] eqn:Hs.
  - destruct (grows_lookup _ _ _ _ Hg Hs) as (s' & Hs' & [Hfr _ _ _ _ _]).
    rewrite Hs'. simpl. by rewrite (Hf s), (Hf s'), Hfr.
  - apply (grows_unregistered m m' x Hg) in Hs. by rewrite Hs.
Qed.

Lemma check_names_later msg self l m m' :
  for_each l (check_property msg self) m = Some (m, Ok tt) → grows m m' →
  for_each l (check_property msg self) m' = Some (m', Ok tt).
Proof.
  intros Hrun Hg. induction l as [|nm l IH]; simpl in *; [done|].
  apply bind_Ok in Hrun as (m1 & [] & Hc & Hrest).
  apply check_property_same in Hc as Heq. subst m1.
  unfold bind. revert Hc. unfold check_property, reading.
  destruct (get m self nm) as [p|] eqn:Hp; [|done]. intros _.
  rewrite (grows_get m m' self nm p Hg Hp). simpl. by apply IH.
Qed.

Lemma for_each_check_same msg self l m m' r :
  for_each l (check_property msg self) m = Some (m', r) → m' = m.
Proof.
  revert m m' r. induction l as [|nm l IH]; intros m m' r; simpl.
  - by intros [= <- _].
  - intros [(m2 & [] & Hc & Hrest)|(e & Hc & _)]%bind_Some.
    + apply check_property_same in Hc as ->. by eapply IH.
    + by eapply check_property_same.
Qed.

Lemma check_edge_later self m m' :
  check_edge self m = Some (m, Ok tt) → grows m m' →
  check_edge self m' = Some (m', Ok tt).
Proof.
  unfold check_edge, reading. intros Hrun Hg.
  destruct (registry m !! self) as [s|] eqn:Hs.
  - destruct (grows_lookup _ _ _ _ Hg Hs) as (s' & Hs' & [Hfr _ _ _ _ _]).
    rewrite Hs'.
    assert (edge_source s' = edge_source s) as Hsrc by by apply (f_equal edge_source) in Hfr.
    assert (edge_target s' = edge_target s) as Htgt by by apply (f_equal edge_target) in Hfr.
    unfold edge in *. rewrite Hsrc, Htgt.
    destruct (truthy (if truthy (edge_source s) then edge_target s else edge_source s));
      [|done].
    unfold get_opt in *.
    destruct (edge_source s) as [src|]; simpl in *; [|done].
    destruct (get m self src) as [p|] eqn:Hp; [|done].
    rewrite (grows_get m m' self src p Hg Hp).
    destruct (edge_target s) as [tgt|]; simpl in *; [|done].
    destruct (get m self tgt) as [p'|] eqn:Hp'; [|done].
    by rewrite (grows_get m m' self tgt p' Hg Hp').
  - apply (grows_unregistered m m' self Hg) in Hs. by rewrite Hs.
Qed.

(** Checks that pass keep passing. *)
Lemma checks_later self m m' :
  checks self m = Some (m, Ok tt) → grows m m' → checks self m' = Some (m', Ok tt).
Proof.
  unfold checks. intros Hrun Hg.
  apply bind_Ok in Hrun as (m1 & [] & H1 & Hrun).
  apply for_each_check_same in H1 as Heq. subst m1.
  apply bind_Ok in Hrun as (m1 & [] & H2 & Hrun).
  apply for_each_check_same in H2 as Heq. subst m1.
  apply bind_Ok in Hrun as (m1 & [] & H3 & Hrun).
  apply for_each_check_same in H3 as Heq. subst m1.
  unfold reading in *. unfold bind.
  rewrite (grows_member_frozen featured [] m m') by done.
  rewrite (check_names_later _ _ _ m m' H1 Hg).
  rewrite (grows_member_frozen caption [] m m') by done.
  rewrite (check_names_later _ _ _ m m' H2 Hg).
  rewrite (grows_member_frozen required [] m m') by done.
  rewrite (check_names_later _ _ _ m m' H3 Hg).
  by apply (check_edge_later self m m').
Qed.

Lemma adopt_total self parent m : ∃ m', adopt self parent m = Some (m', Ok tt).
Proof.
  unfold adopt, merge_properties, link_ancestors, bind, reading, modify. by eexists.
Qed.

Lemma properties_return fuel l : ∀ m,
  (∀ q, q ∈ l → good m q) →
  ∃ m', for_each l (Property_generate (S (S fuel))) m = Some (m', Ok tt) ∧ later m m'.
Proof.
  induction l as [|p l IH]; intros m Hgood; simpl.
  - exists m. split; [done|reflexivity].
  - destruct (good_generate fuel m p) as (m1 & Hp & Hg); [apply Hgood; left|].
    destruct (IH m1) as (m' & Hrest & Hl).
    { intros q Hq. apply (good_later m m1); [done|]. apply Hgood. by right. }
    exists m'. unfold bind. rewrite Hp. split; [done|].
    etrans; [by eapply Property_generate_later|done].
Qed.

Lemma parents_return fuel self l : ∀ m0 mE m,
  (∀ P mP mP' m1, generate fuel P mP = Some (mP', Ok tt) → later mP' m1 →
     ∃ m2, generate (S (S fuel)) P m1 = Some (m2, Ok tt)) →
  for_each l (resolve_parent (generate fuel) self) m0 = Some (mE, Ok tt) →
  later mE m →
  ∃ m', for_each l (resolve_parent (generate (S (S fuel))) self) m = Some (m', Ok tt) ∧
        later m m'.
Proof.
  induction l as [|P l IH]; intros m0 mE m Hgen Hrun Hl.
  { exists m. split; [done|reflexivity]. }
  simpl in Hrun. apply bind_Ok in Hrun as (m1 & [] & HP & Hrest).
  apply resolve_parent_Ok_inv in HP as (HregP & mp & Hp & Hadopt).
  destruct (generate_later _ _ _ _ _ Hp) as [Hl0 Htidy].
  pose proof (adopt_grows _ _ _ _ _ Hadopt) as Hga.
  apply adopt_spec in Hadopt as [_ Had].
  assert (later mp m1) as Hl1 by (eapply adopt_later; [by apply Htidy|done..]).
  assert (later m1 mE) as Hl2.
  { eapply parents_later; [|done]. intros ????. apply generate_later. }
  assert (later mp m) as Hlp by (etrans; [done|by etrans]).
  destruct (Hgen P m0 mp m Hp Hlp) as (mp2 & Hp2).
  destruct (generate_later _ _ _ _ _ Hp2) as [Hl3 Htidy2].
  destruct (adopt_total self P mp2) as (m2 & Hadopt2).
  pose proof (adopt_grows _ _ _ _ _ Hadopt2) as Hga2.
  pose proof Hadopt2 as Had2. apply adopt_spec in Had2 as [_ Had2].
  assert (later mp2 m2) as Hl4 by (eapply adopt_later; [by apply Htidy2|done..]).
  destruct (IH m1 mE m2 Hgen Hrest) as (m' & Hrest2 & Hl5).
  { etrans; [done|by etrans]. }
  exists m'. split; [|etrans; [done|by etrans]].
  cbn [for_each]. unfold bind at 1. unfold resolve_parent at 1. unfold reading, Model_get.
  assert (is_Some (registry m !! P)) as [t ->].
  { apply (grows_registered m0 m P); [|done].
    etrans; [by destruct Hl0|]. by destruct Hlp. }
  unfold bind at 1. by rewrite Hp2, Hadopt2.
Qed.

(** An invocation of [generate] that returned normally returns normally
    again at every later stage, with fuel for two more calls. *)
Lemma generate_returns fuel : ∀ self m0 m0' m,
  generate fuel self m0 = Some (m0', Ok tt) → later m0' m →
  ∃ m', generate (S (S fuel)) self m = Some (m', Ok tt).
Proof.
  induction fuel as [|fuel IH]; intros self m0 m0' m Hrun Hl; [done|].
  simpl in Hrun. apply bind_Ok in Hrun as (ma & [] & Hinherit & Hfinal).
  apply bind_Ok in Hfinal as (mb & [] & Hprops & Hchecks).
  apply checks_same in Hchecks as Heq. subst m0'.
  assert (later m0 ma) as Hl0.
  { revert Hinherit. unfold inherit, reading. apply parents_later.
    intros ????. apply generate_later. }
  pose proof (resolve_properties_later _ _ _ _ _ Hprops) as Hl1.
  assert (tidy mb self) as Htidy.
  { assert (generate (S fuel) self m0 = Some (mb, Ok tt)) as Hall.
    { simpl. unfold bind. rewrite Hinherit. unfold finalize, bind.
      by rewrite Hprops, Hchecks. }
    by apply (generate_later _ _ _ _ _ Hall). }
  assert (grows m0 m) as Hg0.
  { etrans; [by destruct Hl0|]. etrans; [by destruct Hl1|by destruct Hl]. }
  unfold inherit, reading in Hinherit.
  destruct (parents_return fuel self _ m0 ma m IH Hinherit) as (ma2 & Hinherit2 & Hl2);
    [by etrans|].
  destruct (properties_return fuel (Dict.values (props_of ma2 self)) ma2)
    as (mb2 & Hprops2 & Hl3).
  { intros q (kq & -> & Hin)%list_elem_of_fmap. destruct kq as [k q].
    assert (tidy ma2 self) as Htidy2 by (eapply tidy_later; [|done]; by etrans).
    by eapply Htidy2. }
  assert (checks self mb2 = Some (mb2, Ok tt)) as Hchecks2.
  { apply (checks_later self mb); [done|].
    etrans; [by destruct Hl|]. etrans; [by destruct Hl2|by destruct Hl3]. }
  exists mb2.
  change (generate (S (S (S fuel))) self)
    with (inherit (generate (S (S fuel))) self ;;; finalize (S (S fuel)) self).
  unfold bind at 1. unfold inherit at 1. unfold reading at 1.
  rewrite (grows_member_frozen (λ s, r_extends (data s)) [] m0 m) by done.
  rewrite Hinherit2. unfold finalize, bind, resolve_properties, reading.
  by rewrite Hprops2, Hchecks2.
Qed.

(** ** Reverse links that are in place *)

Lemma reversed_later m m' q : grows m m' → reversed m q → reversed m' q.
Proof.
  intros Hg Hq range rev Hty Hrg Hrev Hreg.
  destruct (Hq range rev Hty Hrg Hrev) as (nm & Hnm & [p Hp]).
  { by apply (grows_registered m m' range Hg). }
  exists nm. split; [done|]. exists p. by apply (grows_get m m').
Qed.

#[global] Instance traced_preorder : PreOrder traced.
Proof.
  split.
  - intros m. split; [reflexivity|]. intros W k q Hin. by right.
  - intros m1 m2 m3 [Hg12 H12] [Hg23 H23]. split; [by etrans|].
    intros W k q Hin. destruct (H23 W k q Hin) as [Hrev|Hin2]; [by left|].
    destruct (H12 W k q Hin2) as [Hrev|Hin1]; [|by right].
    left. by apply (reversed_later m2 m3).
Qed.

Lemma all_reversed_later m m' W : traced m m' → all_reversed m W → all_reversed m' W.
Proof.
  intros [Hg Hnew] Hall k q Hin. destruct (Hnew W k q Hin) as [Hrev|Hold]; [done|].
  apply (reversed_later m m'); [done|]. by eapply Hall.
Qed.

(** A reverse property whose resolution returns has its own reverse link,
    back to the property it was made for, in place. *)
Lemma stub_returns_reversed fuel m self nm i data other m' r :
  is_Some (registry m !! self) → get m self nm = None →
  Property_generate_with (_add_reverse fuel)
    (mkProperty i self nm (stub_data data other)) m = Some (m', r) →
  reversed m (mkProperty i self nm (stub_data data other)).
Proof.
  intros Hself Hfree Hrun range rev _ Hrg Hrev Hreg. simpl in Hrg, Hrev.
  injection Hrg as <-. injection Hrev as <-. simpl.
  exists (p_name other). split; [done|].
  destruct (get m (p_schema other) (p_name other)) as [p|] eqn:Hp; [by eexists|].
  exfalso.
  rewrite (stub_generate_diverges fuel m self nm (p_schema other) (p_name other) _
             (mkPropData (Some (p_name other)) None None None None None)) in Hrun; done.
Qed.

Lemma traced_set_stub self nm i data other m :
  grows m (mutate self (upd_properties
             (Dict.set nm (mkProperty i self nm (stub_data data other)))) m) →
  (is_Some (registry m !! self) →
     reversed m (mkProperty i self nm (stub_data data other))) →
  traced m (mutate self (upd_properties
              (Dict.set nm (mkProperty i self nm (stub_data data other)))) m).
Proof.
  intros Hg Hrev. split; [done|]. intros W k q.
  destruct (decide (W = self)) as [->|Hne]; [|members; by right].
  destruct (registry m !! self) as [s|] eqn:Hs.
  - unfold props_of at 1. rewrite member_mutate, decide_True by done.
    unfold member. rewrite Hs. simpl.
    intros [[= -> ->]|Hold]%elem_of_dict_set.
    + left. apply (reversed_later m); [done|]. apply Hrev. by eexists.
    + right. unfold props_of, member. by rewrite Hs.
  - members; by right.
Qed.

Lemma traced_bump m : traced m (bump m).
Proof. split; [apply grows_bump|]. intros W k q Hin. by right. Qed.

Lemma _add_reverse_traced fuel : ∀ self data other,
  preserves traced (_add_reverse fuel self data other).
Proof.
  induction fuel as [|fuel IH]; intros self data other m m' r Hrun; [done|].
  rewrite _add_reverse_unfold in Hrun.
  destruct (d_name data) as [nm|]; [|injection Hrun as <- _; reflexivity].
  unfold reading in Hrun.
  destruct (get m self nm) as [found|] eqn:Hfree; [injection Hrun as <- _; reflexivity|].
  apply bind_Some in Hrun as [(m0 & stub & Hnew & Hrest)|(e & [=] & _)].
  injection Hnew as <- <-. etrans; [apply traced_bump|].
  assert (∀ m1 r1, Property_generate_with (_add_reverse fuel)
            (mkProperty (next_id m) self nm (stub_data data other)) (bump m)
            = Some (m1, r1) → traced (bump m) m1) as Hgen.
  { intros m1 r1. apply Property_generate_with_preserves; [apply _|apply IH]. }
  apply bind_Some in Hrest as [(m1 & [] & Hstub & Hrest)|(e & Hstub & _)];
    [|by eapply Hgen].
  etrans; [by eapply Hgen|].
  apply bind_Some in Hrest as [(m2 & [] & Hset & Hret)|(e & [=] & _)].
  injection Hset as <-. injection Hret as <- _.
  assert (is_Some (registry m1 !! self) → is_Some (registry (bump m) !! self)) as Hback.
  { apply (grows_registered (bump m) m1 self). by destruct (Hgen _ _ Hstub). }
  apply traced_set_stub.
  - apply grows_mutate. intros s Hs.
    apply schema_grows_properties, DictFacts.incl_set_fresh.
    assert (is_Some (registry (bump m) !! self)) as Hreg by (apply Hback; by eexists).
    destruct (stub_generate_noop _ _ _ _ _ _ _ _ _ Hreg Hfree Hstub) as [-> _].
    revert Hfree. unfold get, props_of, member. simpl in Hs. by rewrite Hs.
  - intros Hreg1. pose proof (Hback Hreg1) as Hreg.
    destruct (stub_generate_noop _ _ _ _ _ _ _ _ _ Hreg Hfree Hstub) as [-> _].
    by eapply (stub_returns_reversed fuel (bump m)).
Qed.

Lemma Property_generate_traced fuel prop : preserves traced (Property_generate fuel prop).
Proof.
  apply Property_generate_with_preserves; [apply _|]. apply _add_reverse_traced.
Qed.

(** A property whose resolution returned normally has its reverse link in
    place. *)
Lemma generate_Ok_reversed fuel m m' q :
  Property_generate fuel q m = Some (m', Ok tt) → reversed m' q.
Proof.
  intros Hrun range rev Hty Hrg Hrev Hreg'.
  pose proof (Property_generate_grows _ _ _ _ _ Hrun) as Hg.
  assert (is_Some (registry m !! range)) as [t Ht]
    by by apply (grows_registered m m' range Hg).
  unfold Property_generate, Property_generate_with in Hrun.
  rewrite Hty, Hrg, Hrev, decide_True in Hrun by done.
  unfold reading, Model_get in Hrun. rewrite Ht in Hrun.
  apply bind_Ok in Hrun as (m1 & p & Hadd & Hret).
  assert (m1 = m') as -> by (by injection Hret).
  destruct fuel as [|fuel]; [done|]. pose proof Hadd as Hall.
  rewrite _add_reverse_unfold in Hadd.
  destruct (d_name rev) as [nm|] eqn:Hnm; [|done]. exists nm. split; [done|].
  unfold reading in Hadd. destruct (get m range nm) as [p0|] eqn:Hp0.
  - injection Hadd as <- <-. by eexists.
  - destruct (_add_reverse_fresh _ _ _ _ nm _ _ _ (mk_is_Some _ _ Ht) Hnm Hp0 Hall)
      as [-> _].
    rewrite get_set_property; [by eexists|]. simpl. by eexists.
Qed.

Lemma for_each_Ok_reversed fuel l : ∀ m m',
  for_each l (Property_generate fuel) m = Some (m', Ok tt) →
  ∀ q, q ∈ l → reversed m' q.
Proof.
  induction l as [|p l IH]; intros m m'; simpl.
  - intros _ q ?%elem_of_nil. done.
  - intros (m1 & [] & Hp & Hrest)%bind_Ok q [->|Hq]%elem_of_cons; [|by eapply IH].
    apply (reversed_later m1 m'); [|by eapply generate_Ok_reversed].
    revert Hrest. apply preserves_for_each; [apply _|].
    intros x _. apply Property_generate_grows.
Qed.

Lemma resolve_properties_traced fuel self :
  preserves traced (resolve_properties fuel self).
Proof.
  apply preserves_reading. intros props. apply preserves_for_each; [apply _|].
  intros q _. apply Property_generate_traced.
Qed.

(** A round for a parent whose properties have their reverse links in
    place adds such entries only. *)
Lemma adopt_traced self parent m m' :
  all_reversed m parent → grows m m' → adopted self parent m m' → traced m m'.
Proof.
  intros Hall Hg Had. split; [done|]. intros W k q Hin.
  destruct (decide (W = self)) as [->|Hne];
    [|right; by rewrite (ad_properties _ _ _ _ Had) in Hin].
  destruct (registry m !! self) as [s|] eqn:Hs.
  - rewrite (ad_properties_self _ _ _ _ Had) in Hin by by eexists.
    apply elem_of_merge in Hin as [Hold|Hparent]; [by right|].
    left. apply (reversed_later m m'); [done|]. by eapply Hall.
  - exfalso. revert Hin. unfold props_of, member.
    destruct (registry m' !! self) eqn:E; [|by intros ?%elem_of_nil].
    assert (is_Some (registry m !! self)) as [? ?]; [|congruence].
    apply (ad_registered _ _ _ _ Had). by eexists.
Qed.

(** ** The schemas that a resolution visits *)

Lemma declared_earlier m m' X P : grows m m' → declared m' X P → declared m X P.
Proof.
  intros Hg (s' & Hs' & HP).
  assert (is_Some (registry m !! X)) as [s Hs].
  { apply (grows_registered m m' X Hg). by eexists. }
  exists s. split; [done|]. by rewrite <- (grows_data m m' X s s').
Qed.

Lemma inherits_later m m' X A :
  grows m m' → inherits_from m X A ↔ inherits_from m' X A.
Proof.
  intros Hg. split; induction 1 as [X|X P A Hd _ IH]; try apply inherits_refl.
  - apply (inherits_step m' X P A); [by apply (declared_later m)|done].
  - apply (inherits_step m X P A); [by apply (declared_earlier m m')|done].
Qed.

Lemma inherits_trans m X A B :
  inherits_from m X A → inherits_from m A B → inherits_from m X B.
Proof.
  induction 1 as [X|X P A Hd _ IH]; [done|]. intros HB.
  apply (inherits_step m X P B); [done|by apply IH].
Qed.

Lemma inherits_inv m X A :
  inherits_from m X A → A = X ∨ ∃ P, declared m X P ∧ inherits_from m P A.
Proof. intros [X'|X' P A' Hd HA]; [by left|right; by exists P]. Qed.

Lemma parents_traced fuel self l : ∀ m m' r,
  (∀ P mP mP' rP, generate fuel P mP = Some (mP', rP) →
     traced mP mP' ∧
     (rP = Ok tt → ∀ W, inherits_from mP P W → all_reversed mP' W)) →
  for_each l (resolve_parent (generate fuel) self) m = Some (m', r) →
  traced m m' ∧
  (r = Ok tt → ∀ P W, P ∈ l → inherits_from m P W → all_reversed m' W).
Proof.
  induction l as [|P l IH]; intros m m' r Hgen; simpl.
  { intros [= <- _]. split; [reflexivity|]. by intros _ P W ?%elem_of_nil. }
  intros [(m1 & [] & HP & Hrest)|(e & HP & ->)]%bind_Some.
  - unfold resolve_parent, reading in HP.
    destruct (Model_get m P); [|done].
    apply bind_Ok in HP as (mp & [] & Hp & Hadopt).
    destruct (Hgen _ _ _ _ Hp) as [Hl0 Hall]. specialize (Hall eq_refl).
    pose proof (adopt_grows _ _ _ _ _ Hadopt) as Hga.
    apply adopt_spec in Hadopt as [_ Had].
    assert (traced mp m1) as Hl1.
    { eapply adopt_traced; [|done..]. apply Hall, inherits_refl. }
    destruct (IH _ _ _ Hgen Hrest) as [Hl2 Hrest_all].
    split; [etrans; [done|by etrans]|].
    intros Hr Q W [->|HQ]%elem_of_cons HW.
    + apply (all_reversed_later mp m'); [by etrans|]. by apply Hall.
    + apply (Hrest_all Hr Q W HQ).
      apply (inherits_later m m1); [|done]. etrans; [by destruct Hl0|by destruct Hl1].
  - split; [|done]. revert HP. unfold resolve_parent, reading.
    destruct (Model_get m P); [|intros [= <- _]; reflexivity].
    intros [(mp & [] & Hp & Hadopt)|(e' & Hp & _)]%bind_Some; [|by eapply Hgen].
    destruct (Hgen _ _ _ _ Hp) as [Hl0 Hall]. specialize (Hall eq_refl).
    pose proof (adopt_grows _ _ _ _ _ Hadopt) as Hga.
    apply adopt_spec in Hadopt as [_ Had].
    etrans; [done|]. eapply adopt_traced; [|done..]. apply Hall, inherits_refl.
Qed.

(** Every invocation of [generate] leads to a later stage whose new
    entries have their reverse links in place, and a completed one leaves
    it so for every property of every schema that it visited. *)
Lemma generate_traced fuel : ∀ self m m' r,
  generate fuel self m = Some (m', r) →
  traced m m' ∧ (r = Ok tt → ∀ W, inherits_from m self W → all_reversed m' W).
Proof.
  induction fuel as [|fuel IH]; intros self m m' r Hrun; [done|].
  simpl in Hrun.
  apply bind_Some in Hrun as [(m1 & [] & Hinherit & Hfinal)|(e & Hinherit & ->)].
  - unfold inherit, reading in Hinherit.
    destruct (parents_traced _ _ _ _ _ _ IH Hinherit) as [Hl0 Hparents].
    specialize (Hparents eq_refl).
    apply bind_Some in Hfinal as [(m2 & [] & Hprops & Hchecks)|(e & Hprops & ->)].
    + apply checks_same in Hchecks as ->.
      pose proof (resolve_properties_traced _ _ _ _ _ Hprops) as Hl.
      split; [by etrans|]. intros _ W HW.
      apply inherits_inv in HW as [->|(P & Hd & HA)].
      * intros k q Hin. destruct Hl as [Hg Hnew].
        destruct (Hnew self k q Hin) as [Hrev|Hold]; [done|].
        apply (for_each_Ok_reversed _ _ _ _ Hprops).
        unfold Dict.values. apply list_elem_of_fmap. by exists (k, q).
      * apply (all_reversed_later m1 m2); [done|]. apply (Hparents P W); [|done].
        destruct Hd as (s & Hs & HP). unfold member. by rewrite Hs.
    + split; [|done]. etrans; [done|]. by eapply resolve_properties_traced.
  - split; [|done]. unfold inherit, reading in Hinherit.
    by destruct (parents_traced _ _ _ _ _ _ IH Hinherit).
Qed.

(** ** Resolution that creates nothing *)

Lemma get_app {V} k (d e : list (string * V)) :
  Dict.get k (d ++ e)
  = match Dict.get k d with
    | Some v => Some v
    | None => Dict.get k e
    end.
Proof. induction d as [|[k' v'] d IH]; simpl; [done|]. by destruct (decide (k = k')). Qed.

Lemma set_fresh_app {V} k (v : V) d :
  Dict.get k d = None → Dict.set k v d = (d ++ [(k, v)])%list.
Proof.
  induction d as [|[k' v'] d IH]; simpl; [done|].
  destruct (decide (k = k')); [done|]. intros H. by rewrite IH.
Qed.

(** The merge appends, for each name that is not taken, the property that
    the parent has under it. *)
Lemma merge_appends items : ∀ acc : list (string * Property),
  ∃ extra, foldl merge_item acc items = (acc ++ extra)%list ∧
    ∀ k q, (k, q) ∈ extra → Dict.get k acc = None ∧ Dict.get k items = Some q.
Proof.
  induction items as [|[k0 v0] items IH]; intros acc; simpl.
  - exists []. split; [by rewrite app_nil_r|]. by intros k q ?%elem_of_nil.
  - unfold merge_item at 2. simpl. destruct (Dict.get k0 acc) as [w|] eqn:Hw.
    + destruct (IH acc) as (extra & Heq & Hextra). exists extra. split; [done|].
      intros k q Hin. destruct (Hextra k q Hin) as [Hnone Hq]. split; [done|].
      simpl. rewrite decide_False; [done|]. intros ->. congruence.
    + destruct (IH (Dict.set k0 v0 acc)) as (extra & Heq & Hextra).
      exists ((k0, v0) :: extra). split.
      { rewrite Heq, set_fresh_app by done. by rewrite <- app_assoc. }
      intros k q [[= -> ->]|Hin]%elem_of_cons.
      * split; [done|]. simpl. by rewrite decide_True.
      * destruct (Hextra k q Hin) as [Hnone Hq].
        destruct (decide (k = k0)) as [->|Hne].
        { by rewrite DictFacts.get_set_eq in Hnone. }
        rewrite DictFacts.get_set_ne in Hnone by done.
        by split.
Qed.

#[global] Instance quiet_preorder : PreOrder quiet.
Proof.
  split.
  - intros m. split; [reflexivity|done|]. intros W. exists [].
    split; [by rewrite app_nil_r|]. by intros k q ?%elem_of_nil.
  - intros m1 m2 m3 [Hg12 Hn12 Hp12] [Hg23 Hn23 Hp23]. split; [by etrans|congruence|].
    intros W. destruct (Hp12 W) as (e12 & Heq12 & He12).
    destruct (Hp23 W) as (e23 & Heq23 & He23).
    exists (e12 ++ e23)%list. split; [by rewrite Heq23, Heq12, <- app_assoc|].
    intros k q [Hin|Hin]%elem_of_app; [by apply He12|].
    destruct (He23 k q Hin) as (Hnone & A & HA & Hq). split.
    { revert Hnone. unfold get. rewrite Heq12, get_app.
      by destruct (Dict.get k (props_of m1 W)). }
    apply (inherits_later m1 m2) in HA; [|done].
    destruct (Hp12 A) as (eA & HeqA & HeA).
    revert Hq. unfold get at 1. rewrite HeqA, get_app.
    destruct (Dict.get k (props_of m1 A)) as [v|] eqn:Hv.
    + intros [= ->]. by exists A.
    + intros Hq%DictFacts.get_Some_elem_of.
      destruct (HeA k q Hq) as (_ & B & HB & HqB). exists B. split; [|done].
      by eapply inherits_trans.
Qed.

(** A round for a declared parent creates nothing. *)
Lemma adopt_quiet self parent m m' :
  declared m self parent → grows m m' → adopted self parent m m' → quiet m m'.
Proof.
  intros Hd Hg Had. split; [done|by apply (ad_next_id _ _ _ _ Had)|].
  intros W. destruct (decide (W = self)) as [->|Hne].
  - assert (is_Some (registry m !! self)) as Hreg.
    { destruct Hd as (s & Hs & _). by eexists. }
    destruct (merge_appends (props_of m parent) (props_of m self))
      as (extra & Heq & Hextra).
    exists extra. split; [by rewrite (ad_properties_self _ _ _ _ Had)|].
    intros k q Hin. destruct (Hextra k q Hin) as [Hnone Hq]. split; [done|].
    exists parent. split; [|done].
    apply (inherits_step m self parent parent); [done|apply inherits_refl].
  - exists []. split; [by rewrite (ad_properties _ _ _ _ Had), app_nil_r|].
    by intros k q ?%elem_of_nil.
Qed.

(** The resolution of a property whose reverse link is in place changes
    nothing. *)
Lemma reversed_generate_same fuel q m m' r :
  reversed m q → Property_generate fuel q m = Some (m', r) → m' = m.
Proof.
  intros Hq. unfold Property_generate, Property_generate_with. unfold reversed in Hq.
  destruct (d_type (p_data q)) as [kind|]; [|by intros [= <- _]].
  destruct (d_range (p_data q)) as [range|]; [|by intros [= <- _]].
  destruct (d_reverse (p_data q)) as [rev|]; [|by intros [= <- _]].
  case_decide as Hkind; [subst kind|by intros [= <- _]].
  unfold reading, Model_get.
  destruct (registry m !! range) as [t|] eqn:Ht; [|by intros [= <- _]].
  destruct (Hq range rev eq_refl eq_refl eq_refl) as (nm & Hnm & [p Hp]); [by eexists|].
  destruct fuel as [|fuel]; [done|].
  unfold bind. rewrite (_add_reverse_found _ _ _ _ nm p) by done. by intros [= <- _].
Qed.

Lemma properties_same fuel l : ∀ m m' r,
  (∀ q, q ∈ l → reversed m q) →
  for_each l (Property_generate fuel) m = Some (m', r) → m' = m.
Proof.
  induction l as [|p l IH]; intros m m' r Hall; simpl; [by intros [= <- _]|].
  intros [(m1 & [] & Hp & Hrest)|(e & Hp & _)]%bind_Some.
  - apply reversed_generate_same in Hp as ->; [|apply Hall; left].
    eapply IH; [|done]. intros q Hq. apply Hall. by right.
  - eapply reversed_generate_same; [|done]. apply Hall. left.
Qed.

Lemma finalize_same fuel self m m' r :
  all_reversed m self → finalize fuel self m = Some (m', r) → m' = m.
Proof.
  intros Hall. unfold finalize.
  assert (∀ m1 r1, resolve_properties fuel self m = Some (m1, r1) → m1 = m) as Hprops.
  { intros m1 r1. unfold resolve_properties, reading. apply properties_same.
    intros q (kq & -> & Hin)%list_elem_of_fmap. destruct kq as [k q]. by eapply Hall. }
  intros [(m1 & [] & Hp & Hc)|(e & Hp & _)]%bind_Some; [|by eapply Hprops].
  apply Hprops in Hp as ->. by eapply checks_same.
Qed.

Lemma quiet_all_reversed m m' X :
  quiet m m' → (∀ W, inherits_from m X W → all_reversed m W) →
  ∀ W, inherits_from m' X W → all_reversed m' W.
Proof.
  intros [Hg _ Hp] Hall W HW k q Hin.
  apply (inherits_later m m') in HW; [|done].
  destruct (Hp W) as (extra & Heq & Hextra). rewrite Heq in Hin.
  apply (reversed_later m m'); [done|].
  apply elem_of_app in Hin as [Hin|Hin]; [by eapply (Hall W)|].
  destruct (Hextra k q Hin) as (_ & A & HA & Hq).
  eapply (Hall A); [by eapply inherits_trans|].
  apply DictFacts.get_Some_elem_of. exact Hq.
Qed.

Lemma parents_quiet fuel self l : ∀ m m' r,
  (∀ P mP mP' rP, (∀ W, inherits_from mP P W → all_reversed mP W) →
     generate fuel P mP = Some (mP', rP) → quiet mP mP') →
  (∀ P, P ∈ l → declared m self P) →
  (∀ W, inherits_from m self W → all_reversed m W) →
  for_each l (resolve_parent (generate fuel) self) m = Some (m', r) → quiet m m'.
Proof.
  induction l as [|P l IH]; intros m m' r Hgen Hdecl Hall; simpl.
  { intros [= <- _]. reflexivity. }
  assert (declared m self P) as HdP by (apply Hdecl; left).
  assert (∀ m1 r1, resolve_parent (generate fuel) self P m = Some (m1, r1) →
            quiet m m1) as Hround.
  { intros m1 r1. unfold resolve_parent, reading.
    destruct (Model_get m P); [|intros [= <- _]; reflexivity].
    assert (∀ mp rp, generate fuel P m = Some (mp, rp) → quiet m mp) as HgenP.
    { intros mp rp. apply Hgen. intros W HW. apply Hall. by eapply inherits_step. }
    intros [(mp & [] & Hp & Hadopt)|(e & Hp & _)]%bind_Some; [|by eapply HgenP].
    pose proof (HgenP _ _ Hp) as Hq. etrans; [exact Hq|].
    pose proof (adopt_grows _ _ _ _ _ Hadopt) as Hga.
    apply adopt_spec in Hadopt as [_ Had].
    apply (adopt_quiet self P); [|done|done].
    apply (declared_later m); [by destruct Hq|done]. }
  intros [(m1 & [] & HP & Hrest)|(e & HP & _)]%bind_Some; [|by eapply Hround].
  pose proof (Hround _ _ HP) as Hq1. etrans; [exact Hq1|].
  eapply IH; [done| | |done].
  - intros Q HQ. apply (declared_later m); [by destruct Hq1|]. apply Hdecl. by right.
  - by apply (quiet_all_reversed m m1 self).
Qed.

(** Where every property of every schema that it visits has its reverse
    link in place, [generate] creates nothing: all it does is merge. *)
Lemma generate_quiet fuel : ∀ self m m' r,
  (∀ W, inherits_from m self W → all_reversed m W) →
  generate fuel self m = Some (m', r) → quiet m m'.
Proof.
  induction fuel as [|fuel IH]; intros self m m' r Hall Hrun; [done|].
  simpl in Hrun.
  assert (∀ m1 r1, inherit (generate fuel) self m = Some (m1, r1) → quiet m m1) as Hinh.
  { intros m1 r1. unfold inherit, reading, member.
    destruct (registry m !! self) as [s|] eqn:Hs; simpl;
      [|intros [= <- _]; reflexivity].
    apply parents_quiet; [intros P mP mP' rP HP; by apply IH| |done].
    intros P HP. by exists s. }
  apply bind_Some in Hrun as [(m1 & [] & Hinherit & Hfinal)|(e & Hinherit & _)];
    [|by eapply Hinh].
  pose proof (Hinh _ _ Hinherit) as Hq.
  apply finalize_same in Hfinal as ->; [done|].
  apply (quiet_all_reversed m m1 self Hq Hall), inherits_refl.
Qed.

(** A schema that is resolved, properties included, has every name that
    the schemas from which it inherits have. *)
Lemma resolved_has_inherited m X A k :
  resolved true m X → inherits_from m X A →
  is_Some (get m A k) → is_Some (get m X k).
Proof.
  intros HX HA. revert HX. induction HA as [X|X P A Hd _ IH]; intros HX HAk; [done|].
  destruct (IH (resolved_parent true m X P HX Hd) HAk) as [v Hv].
  destruct (resolved_covers true m X P HX Hd) as [_ _ _ _ Hp].
  apply (Hp k v eq_refl). by apply DictFacts.get_Some_elem_of.
Qed.

(** C2, as the code has it: after a completed [generate] on a registered
    schema, a second invocation returns normally, given fuel for two more
    calls.  Whatever its fuel and its outcome, it leaves the [schemata],
    the [names] and the [descendants] of the schema as they were, diamonds
    included, and creates no property.  The properties keep their entries,
    in their order; what is appended is, for names that the schema lacked,
    the property that a schema from which it inherits has under the name.
    So the properties are the same mapping when the schema has every name
    that the schemas from which it inherits have, and when the second
    invocation returns normally in this case only. *)
Theorem generate_second_invocation (fuel : nat) (self : string) (m m1 : Model) :
  is_Some (registry m !! self) →
  generate fuel self m = Some (m1, Ok tt) →
  (∃ m2, generate (S (S fuel)) self m1 = Some (m2, Ok tt)) ∧
  ∀ fuel' m2 r, generate fuel' self m1 = Some (m2, r) →
    schemata_of m2 self = schemata_of m1 self ∧
    names_of m2 self = names_of m1 self ∧
    descendants_of m2 self = descendants_of m1 self ∧
    no_new_property m1 m2 ∧
    (∃ extra, props_of m2 self = (props_of m1 self ++ extra)%list ∧
       ∀ k q, (k, q) ∈ extra →
         get m1 self k = None ∧
         ∃ A, inherits_from m1 self A ∧ get m1 A k = Some q) ∧
    ((∀ A k, inherits_from m1 self A → is_Some (get m1 A k) → is_Some (get m1 self k)) →
     props_of m2 self = props_of m1 self) ∧
    (r = Ok tt → props_of m2 self = props_of m1 self →
     ∀ A k, inherits_from m1 self A → is_Some (get m1 A k) → is_Some (get m1 self k)).
Proof.
  intros Hreg Hfirst. split.
  { apply (generate_returns fuel self m m1 m1 Hfirst). reflexivity. }
  intros fuel' m2 r Hsecond.
  destruct (generate_again fuel fuel' self m m1 m2 r Hreg Hfirst Hsecond)
    as (Hs & Hn & Hd & _ & _).
  pose proof (generate_grows _ _ _ _ _ Hfirst) as Hg1.
  destruct (generate_traced _ _ _ _ _ Hfirst) as [_ Hall]. specialize (Hall eq_refl).
  assert (quiet m1 m2) as [Hg2 Hnext Hprops].
  { eapply generate_quiet; [|done]. intros W HW. apply Hall.
    by apply (inherits_later m m1). }
  destruct (Hprops self) as (extra & Heq & Hextra).
  split_and!; [done|done|done|done|by exists extra| |].
  - intros Hhas. destruct extra as [|[k q] extra]; [by rewrite Heq, app_nil_r|].
    destruct (Hextra k q) as (Hnone & A & HA & Hq); [left|].
    destruct (Hhas A k HA) as [v Hv]; [by eexists|]. congruence.
  - intros -> Hsame A k HA [p Hp].
    assert (resolved true m2 self) as Hres.
    { apply (generate_resolved true fuel' self m1 m2 Hsecond);
        [by apply (grows_registered m m1 self Hg1)|by intros _]. }
    destruct (resolved_has_inherited m2 self A k Hres) as [v Hv].
    + by apply (inherits_later m1 m2).
    + exists p. by apply (grows_get m1 m2).
    + exists v. revert Hv. unfold get. by rewrite Hsame.
Qed.

Lemma generate_second_invocation_witness :
  let m1 := Examples.after (generate 3 "D") Examples.kite in
  (∃ m2, generate 5 "D" m1 = Some (m2, Ok tt)) ∧
  ∀ fuel' m2 r, generate fuel' "D" m1 = Some (m2, r) →
    schemata_of m2 "D" = schemata_of m1 "D" ∧
    names_of m2 "D" = names_of m1 "D" ∧
    descendants_of m2 "D" = descendants_of m1 "D" ∧
    no_new_property m1 m2 ∧
    (∃ extra, props_of m2 "D" = (props_of m1 "D" ++ extra)%list ∧
       ∀ k q, (k, q) ∈ extra →
         get m1 "D" k = None ∧
         ∃ A, inherits_from m1 "D" A ∧ get m1 A k = Some q) ∧
    ((∀ A k, inherits_from m1 "D" A → is_Some (get m1 A k) → is_Some (get m1 "D" k)) →
     props_of m2 "D" = props_of m1 "D") ∧
    (r = Ok tt → props_of m2 "D" = props_of m1 "D" →
     ∀ A k, inherits_from m1 "D" A → is_Some (get m1 A k) → is_Some (get m1 "D" k)).
Proof.
  apply (generate_second_invocation 3 "D" Examples.kite).
  - vm_compute. by eexists.
  - by vm_compute.
Defined.

(** C2 as stated fails: [Membership] extends [Group] and its property
    [group] puts the reverse property [members] on [Group].  The first
    invocation merges [Group] before [members] exists; the second one
    merges it into [Membership], whose properties are no longer the same. *)
Lemma generate_twice_differs :
  let m1 := Examples.after (generate 3 "Membership") Examples.club in
  let m2 := Examples.after (generate 3 "Membership") m1 in
  is_Some (Model_get Examples.club "Group") ∧
  generate 3 "Membership" Examples.club = Some (m1, Ok tt) ∧
  generate 3 "Membership" m1 = Some (m2, Ok tt) ∧
  Dict.keys (props_of m1 "Membership") = ["group"] ∧
  Dict.keys (props_of m2 "Membership") = ["group"; "members"] ∧
  props_of m2 "Membership" ≠ props_of m1 "Membership".
Proof.
  split_and!; try by vm_compute.
  vm_compute. by eexists.
Qed.

(** ** The property maps are dictionaries *)

Lemma keys_set {V} k (v : V) d :
  Dict.keys (Dict.set k v d)
  = if decide (k ∈ Dict.keys d) then Dict.keys d else (Dict.keys d ++ [k])%list.
Proof.
  induction d as [|[k0 v0] d IH]; simpl; [done|].
  destruct (decide (k = k0)) as [->|Hne]; simpl.
  - by rewrite decide_True by left.
  - rewrite IH. destruct (decide (k ∈ Dict.keys d)) as [Hin|Hout].
    + by rewrite decide_True by by right.
    + rewrite decide_False; [done|]. by intros [?|?]%elem_of_cons.
Qed.

Lemma keyed_set k p d :
  p_name p = k → keyed_properties d → keyed_properties (Dict.set k p d).
Proof.
  intros Hname [Hnd Hkeys]. split.
  - rewrite keys_set. case_decide as Hin; [done|].
    apply NoDup_app. split_and!; [done| |apply NoDup_singleton].
    intros x Hx ->%list_elem_of_singleton. done.
  - intros k' p' [[= -> ->]|Hold]%elem_of_dict_set; [done|by apply Hkeys].
Qed.

Lemma keyed_merge items : ∀ acc,
  keyed_properties items → keyed_properties acc →
  keyed_properties (foldl merge_item acc items).
Proof.
  induction items as [|[k p] items IH]; intros acc [Hnd Hkeys] Hacc; simpl; [done|].
  apply IH.
  - simpl in Hnd. apply NoDup_cons in Hnd as [_ Hnd].
    split; [done|]. intros k' p' Hin. apply Hkeys. by right.
  - unfold merge_item. simpl. destruct (Dict.get k acc); [done|].
    apply keyed_set; [|done]. apply Hkeys. left.
Qed.

#[global] Instance keeps_keyed_preorder : PreOrder keeps_keyed.
Proof.
  split.
  - intros m Hm. exact Hm.
  - intros m1 m2 m3 H12 H23 H1. by apply H23, H12.
Qed.

Lemma keeps_keyed_mutate x f m :
  (∀ s, registry m !! x = Some s → keyed m → keyed_properties (properties (f s))) →
  keeps_keyed m (mutate x f m).
Proof.
  intros Hf Hm y s'. unfold mutate. simpl.
  destruct (decide (x = y)) as [->|Hne].
  - rewrite lookup_alter_eq. destruct (registry m !! y) as [s|] eqn:Hs; [|done].
    intros [= <-]. by apply Hf.
  - rewrite lookup_alter_ne by done. apply Hm.
Qed.

Lemma _add_reverse_keeps_keyed fuel : ∀ self data other,
  preserves keeps_keyed (_add_reverse fuel self data other).
Proof.
  induction fuel as [|fuel IH]; intros self data other m m' r Hrun; [done|].
  rewrite _add_reverse_unfold in Hrun.
  destruct (d_name data) as [nm|]; [|by injection Hrun as <- _].
  unfold reading in Hrun.
  destruct (get m self nm) as [found|]; [by injection Hrun as <- _|].
  apply bind_Some in Hrun as [(m0 & stub & Hnew & Hrest)|(e & [=] & _)].
  injection Hnew as <- <-.
  assert (∀ m1 r1, Property_generate_with (_add_reverse fuel)
            (mkProperty (next_id m) self nm (stub_data data other)) (bump m)
            = Some (m1, r1) → keeps_keyed m m1) as Hgen.
  { intros m1 r1 Hstub. transitivity (bump m); [intros Hm; exact Hm|].
    revert Hstub. apply Property_generate_with_preserves; [apply _|apply IH]. }
  apply bind_Some in Hrest as [(m1 & [] & Hstub & Hrest)|(e & Hstub & _)];
    [|by eapply Hgen].
  etrans; [by eapply Hgen|].
  apply bind_Some in Hrest as [(m2 & [] & Hset & Hret)|(e & [=] & _)].
  injection Hset as <-. injection Hret as <- _.
  apply keeps_keyed_mutate. intros s Hs Hm1. simpl.
  apply keyed_set; [done|]. by apply (Hm1 self).
Qed.

Lemma Property_generate_keeps_keyed fuel prop :
  preserves keeps_keyed (Property_generate fuel prop).
Proof.
  apply Property_generate_with_preserves; [apply _|]. apply _add_reverse_keeps_keyed.
Qed.

Lemma keeps_keyed_link self a m : keeps_keyed m (link_ancestor self a m).
Proof.
  unfold link_ancestor.
  etrans; [|apply keeps_keyed_mutate; intros s Hs Hm; by apply (Hm _ _ Hs)].
  etrans; [|apply keeps_keyed_mutate; intros s Hs Hm; by apply (Hm _ _ Hs)].
  apply keeps_keyed_mutate; intros s Hs Hm; by apply (Hm _ _ Hs).
Qed.

Lemma keyed_props_of m x : keyed m → keyed_properties (props_of m x).
Proof.
  intros Hm. unfold props_of, member. destruct (registry m !! x) as [s|] eqn:Hs; simpl.
  - by apply (Hm x).
  - split; [apply NoDup_nil_2|]. by intros k p ?%elem_of_nil.
Qed.

Lemma adopt_keeps_keyed self parent : preserves keeps_keyed (adopt self parent).
Proof.
  intros m m' r.
  unfold adopt, merge_properties, link_ancestors, bind, reading, modify, set_fold. simpl.
  intros [= <- _].
  etrans; [|etrans]; [| |].
  - apply (keeps_keyed_mutate self
             (upd_properties (λ mine, foldl merge_item mine (props_of m parent))) m).
    intros s Hs Hm. simpl. apply keyed_merge; [by apply keyed_props_of|by apply (Hm self)].
  - apply (keeps_keyed_mutate self (upd_extends (λ e, e ∪ {[ parent ]}))).
    intros s Hs Hm. by apply (Hm _ _ Hs).
  - match goal with |- keeps_keyed ?m0 (foldr _ _ ?l) => generalize l end.
    intros l. induction l as [|a l IH]; simpl; [intros Hm; exact Hm|].
    etrans; [apply IH|apply keeps_keyed_link].
Qed.

Lemma generate_keeps_keyed fuel : ∀ self, preserves keeps_keyed (generate fuel self).
Proof.
  induction fuel as [|fuel IH]; intros self.
  - apply preserves_diverge.
  - apply generate_preserves; [apply _| |apply Property_generate_keeps_keyed].
    intros parent. apply resolve_parent_preserves; [apply _|apply IH|].
    apply adopt_keeps_keyed.
Qed.

Lemma init_properties_keyed owner raw : ∀ next acc,
  keyed_properties acc → keyed_properties (init_properties owner raw next acc).1.
Proof.
  induction raw as [|[nm pd] raw IH]; intros next acc Hacc; simpl; [done|].
  apply IH. by apply keyed_set.
Qed.

Lemma init_keyed gettext nm raw next :
  keyed_properties (properties (__init__ gettext nm raw next).1).
Proof.
  unfold __init__.
  pose proof (init_properties_keyed nm (r_properties raw) next []) as H.
  destruct (init_properties nm (r_properties raw) next []) as [props n1]. simpl in *.
  apply H. split; [apply NoDup_nil_2|]. by intros k p ?%elem_of_nil.
Qed.

Lemma load_keyed gettext raw : ∀ m, keyed m → keyed (load gettext raw m).
Proof.
  induction raw as [|[nm cfg] raw IH]; intros m Hm; simpl; [done|].
  pose proof (init_keyed gettext nm cfg (next_id m)) as Hinit.
  destruct (__init__ gettext nm cfg (next_id m)) as [s next]. simpl in Hinit.
  apply IH. intros x s'. simpl. destruct (decide (nm = x)) as [<-|Hne].
  - rewrite lookup_insert_eq. by intros [= <-].
  - rewrite lookup_insert_ne by done. apply Hm.
Qed.

Lemma evolves_keyed m m' : evolves m m' → keyed m → keyed m'.
Proof.
  induction 1 as [|m1 fuel self m2 r _ IH Hrun|m1 fuel self d o m2 r _ IH Hrun];
    intros Hm; [done|..].
  - by eapply generate_keeps_keyed; [|apply IH].
  - by eapply _add_reverse_keeps_keyed; [|apply IH].
Qed.

Lemma reachable_keyed gettext m : reachable gettext m → keyed m.
Proof.
  intros [raw Hev]. apply (evolves_keyed _ _ Hev), load_keyed.
  intros x s. simpl. by rewrite lookup_empty.
Qed.

(** ** Validation of a required property *)

(** C5, as the code has it: on a schema of a reachable model with a
    property [nm] that is listed in [required] and whose kind has no
    complaint about the empty list, [validate] of data without properties
    fails with [InvalidData]; the payload is a mapping under the key
    [properties] that maps [nm] to the text of [Required], and it is that
    single entry when no other property has an error to report. *)
Theorem validate_reports_required gettext value
    (Property_validate : Property → list value → option string)
    (m : Model) (x : string) (s : Schema) (nm : string) (prop : Property) :
  reachable gettext m → registry m !! x = Some s →
  Dict.get nm (properties s) = Some prop → nm ∈ required s →
  Property_validate prop [] = None →
  ∃ errors,
    validate gettext value Property_validate s None
      = Raise (InvalidData (gettext "Entity validation failed")
                 (JDict [("properties", JDict errors)])) ∧
    Dict.get nm errors = Some (JStr (gettext "Required")) ∧
    ((∀ k q, (k, q) ∈ properties s → k ≠ nm →
        Property_validate q [] = None ∧ p_name q ∉ required s) →
     errors = [(nm, JStr (gettext "Required"))]).
Proof.
  intros Hm Hs Hget Hreq Hkind.
  destruct (reachable_keyed gettext m Hm x s Hs) as [Hnd Hkeys].
  apply (validate_required_entry gettext value Property_validate s nm prop); try done.
  by apply Hkeys, DictFacts.get_Some_elem_of.
Qed.

Lemma validate_reports_required_witness :
  ∃ errors,
    validate id unit (λ _ _, None) (Examples.the Examples.strict1 "Doc") None
      = Raise (InvalidData "Entity validation failed"
                 (JDict [("properties", JDict errors)])) ∧
    Dict.get "name" errors = Some (JStr "Required") ∧
    ((∀ k q, (k, q) ∈ properties (Examples.the Examples.strict1 "Doc") → k ≠ "name" →
        (λ _ _, None) q (@nil unit) = @None string ∧
        p_name q ∉ required (Examples.the Examples.strict1 "Doc")) →
     errors = [("name", JStr "Required")]).
Proof.
  apply (validate_reports_required id unit (λ _ _, None) Examples.strict1 "Doc"
           (Examples.the Examples.strict1 "Doc") "name"
           (mkProperty 0 "Doc" "name" (Examples.scalar "name"))).
  - apply reachable_after, reachable_load.
  - by vm_compute.
  - by vm_compute.
  - vm_compute. set_solver.
  - done.
Defined.

(** * Further properties of the code *)

(** ** Cycles of parents *)

(** [generate] has no guard against cycles: on a set of schemas that is
    closed under taking the first declared parent, as a schema that
    extends itself is, the recursion of line 73 never returns. *)
Theorem generate_cycle_diverges (C : string → Prop) (m : Model) :
  (∀ x, C x → ∃ s y rest,
      registry m !! x = Some s ∧ r_extends (data s) = y :: rest ∧ C y) →
  ∀ fuel x, C x → generate fuel x m = None.
Proof.
  intros Hclosed fuel. induction fuel as [|fuel IH]; intros x Hx; [done|].
  destruct (Hclosed x Hx) as (s & y & rest & Hs & Hext & Hy).
  simpl. unfold bind at 1. unfold inherit, reading, member. rewrite Hs. simpl.
  rewrite Hext. cbn [for_each]. unfold bind at 1.
  unfold resolve_parent at 1. unfold reading, Model_get.
  destruct (Hclosed y Hy) as (sy & y' & rest' & Hsy & _). rewrite Hsy.
  unfold bind at 1. by rewrite (IH y Hy).
Qed.

Lemma generate_cycle_diverges_witness :
  (∀ fuel, generate fuel "X" Cases.mutual = None) ∧
  (∀ fuel, generate fuel "X" Cases.selfish = None).
Proof.
  split; intros fuel.
  - apply (generate_cycle_diverges (λ x, x = "X" ∨ x = "Y") Cases.mutual); [|by left].
    intros x [Hx | Hx]; subst x.
    + exists (Examples.the Cases.mutual "X"), "Y", [].
      split_and!; [by vm_compute..|by right].
    + exists (Examples.the Cases.mutual "Y"), "X", [].
      split_and!; [by vm_compute..|by left].
  - apply (generate_cycle_diverges (λ x, x = "X") Cases.selfish); [|done].
    intros x Hx; subst x. exists (Examples.the Cases.selfish "X"), "X", [].
    split_and!; by vm_compute.
Defined.

(** ** The checks of a completed resolution *)

Lemma check_names_Ok msg self l m m' :
  for_each l (check_property msg self) m = Some (m', Ok tt) →
  ∀ nm, nm ∈ l → is_Some (get m self nm).
Proof.
  revert m'. induction l as [|k l IH]; intros m' Hrun nm Hnm; simpl in Hrun.
  { by apply elem_of_nil in Hnm. }
  apply bind_Ok in Hrun as (m1 & [] & Hc & Hrest).
  apply check_property_same in Hc as Heq. subst m1.
  apply elem_of_cons in Hnm as [->|Hnm]; [|by eapply IH].
  revert Hc. unfold check_property, reading. by destruct (get m self k); [eexists|].
Qed.

Lemma checks_Ok self m m' s :
  checks self m = Some (m', Ok tt) → registry m !! self = Some s →
  (∀ nm, nm ∈ featured s ∨ nm ∈ caption s ∨ nm ∈ required s → is_Some (get m self nm)) ∧
  (truthy (edge s) = true →
     is_Some (get_opt m self (edge_source s)) ∧ is_Some (get_opt m self (edge_target s))).
Proof.
  unfold checks. intros Hrun Hs.
  apply bind_Ok in Hrun as (m1 & [] & H1 & Hrun).
  apply for_each_check_same in H1 as Heq. subst m1.
  apply bind_Ok in Hrun as (m1 & [] & H2 & Hrun).
  apply for_each_check_same in H2 as Heq. subst m1.
  apply bind_Ok in Hrun as (m1 & [] & H3 & Hrun).
  apply for_each_check_same in H3 as Heq. subst m1.
  unfold reading, member in H1, H2, H3. rewrite Hs in H1, H2, H3. simpl in *.
  split.
  - intros nm [Hin|[Hin|Hin]].
    + by apply (check_names_Ok _ _ _ _ _ H1).
    + by apply (check_names_Ok _ _ _ _ _ H2).
    + by apply (check_names_Ok _ _ _ _ _ H3).
  - intros Hedge. revert Hrun. unfold check_edge, reading. rewrite Hs, Hedge.
    destruct (get_opt m self (edge_source s)); [|done].
    destruct (get_opt m self (edge_target s)); [|done]. by split; eexists.
Qed.

Lemma truthy_edge s :
  truthy (edge s) = true ↔ truthy (edge_source s) = true ∧ truthy (edge_target s) = true.
Proof.
  unfold edge. destruct (truthy (edge_source s)) eqn:Hsrc; [naive_solver|].
  rewrite Hsrc. naive_solver.
Qed.

(** A completed [generate] has checked the schema: the names listed in
    [featured], [caption] and [required] are all bound to properties, and
    when the edge has both a source and a target that are not empty, the
    condition of line 100, [source_prop] and [target_prop] are both set.
    An edge with one end missing or empty is not checked. *)
Theorem generate_Ok_checked (fuel : nat) (self : string) (m m' : Model) (s : Schema) :
  generate fuel self m = Some (m', Ok tt) → registry m' !! self = Some s →
  (∀ nm, nm ∈ featured s ∨ nm ∈ caption s ∨ nm ∈ required s → is_Some (get m' self nm)) ∧
  (truthy (edge_source s) = true → truthy (edge_target s) = true →
     is_Some (source_prop m' self) ∧ is_Some (target_prop m' self)).
Proof.
  intros Hrun Hs. destruct fuel as [|fuel]; [done|]. simpl in Hrun.
  apply bind_Ok in Hrun as (ma & [] & _ & Hfinal).
  apply bind_Ok in Hfinal as (mb & [] & _ & Hchecks).
  apply checks_same in Hchecks as Heq. subst mb.
  unfold source_prop, target_prop. rewrite Hs. simpl.
  destruct (checks_Ok self m' m' s Hchecks Hs) as [Hnames Hedge].
  split; [done|]. intros Hsrc Htgt. by apply Hedge, truthy_edge.
Qed.

Lemma generate_Ok_checked_witness :
  (∀ nm, nm ∈ featured (Examples.the Examples.proper_edge "Link") ∨
         nm ∈ caption (Examples.the Examples.proper_edge "Link") ∨
         nm ∈ required (Examples.the Examples.proper_edge "Link") →
     is_Some (get Examples.proper_edge "Link" nm)) ∧
  is_Some (source_prop Examples.proper_edge "Link") ∧
  is_Some (target_prop Examples.proper_edge "Link").
Proof.
  destruct (generate_Ok_checked 2 "Link"
              (load id [("Link", data (Examples.the Examples.proper_edge "Link"))]
                 empty_model)
              Examples.proper_edge (Examples.the Examples.proper_edge "Link"))
    as [Hnames Hedge].
  - by vm_compute.
  - by vm_compute.
  - split; [exact Hnames|]. apply Hedge; by vm_compute.
Defined.

(** An edge that declares its source only is not checked: the schema is
    resolved although it has no property for the source. *)
Lemma generate_half_edge_unchecked :
  let m' := Examples.after (generate 2 "Link") half_edge in
  generate 2 "Link" half_edge = Some (m', Ok tt) ∧
  edge_source (Examples.the m' "Link") = Some "from" ∧
  edge_target (Examples.the m' "Link") = None ∧
  source_prop m' "Link" = None ∧ target_prop m' "Link" = None.
Proof. split_and!; by vm_compute. Qed.

(** ** The kinds of error *)

Section RaisesOnly.
Context (E : exn → Prop).
Local Abbreviation only := (raises_only E).

Lemma raises_only_ret {A} (a : A) : only (ret a).
Proof. by intros m m' e. Qed.

Lemma raises_only_raise {A} e : E e → only (@raise A e).
Proof. by intros He m m' e' [= _ <-]. Qed.

Lemma raises_only_bind {A B} (c : M A) (k : A → M B) :
  only c → (∀ a, only (k a)) → only (bind c k).
Proof.
  intros Hc Hk m m' e [(m1 & a & _ & Hrest)|(e' & Hraise & [= ->])]%bind_Some.
  - by eapply Hk.
  - by eapply Hc.
Qed.

Lemma raises_only_reading {A B} (f : Model → A) (k : A → M B) :
  (∀ a, only (k a)) → only (reading f k).
Proof. intros Hk m m' e Hrun. by eapply Hk. Qed.

Lemma raises_only_for_each {A} (l : list A) (body : A → M unit) :
  (∀ x, only (body x)) → only (for_each l body).
Proof.
  intros Hbody. induction l as [|x l IH]; simpl; [apply raises_only_ret|].
  by apply raises_only_bind.
Qed.
End RaisesOnly.

Lemma _add_reverse_raises fuel : ∀ self data other,
  raises_only is_InvalidModel (_add_reverse fuel self data other).
Proof.
  induction fuel as [|fuel IH]; intros self data other; [done|].
  rewrite _add_reverse_unfold.
  destruct (d_name data) as [nm|]; [|apply raises_only_raise; by eexists].
  apply raises_only_reading. intros [prop|]; [apply raises_only_ret|].
  apply raises_only_bind; [done|intros prop].
  apply raises_only_bind; [|intros _; by apply raises_only_bind].
  unfold Property_generate_with.
  destruct (d_type (p_data prop)), (d_range (p_data prop)), (d_reverse (p_data prop));
    try done.
  case_decide; [|done]. apply raises_only_reading. intros [t|]; [|done].
  apply raises_only_bind; [apply IH|done].
Qed.

Lemma Property_generate_raises fuel prop :
  raises_only is_InvalidModel (Property_generate fuel prop).
Proof.
  unfold Property_generate, Property_generate_with.
  destruct (d_type (p_data prop)), (d_range (p_data prop)), (d_reverse (p_data prop));
    try done.
  case_decide; [|done]. apply raises_only_reading. intros [t|]; [|done].
  apply raises_only_bind; [apply _add_reverse_raises|done].
Qed.

Lemma checks_raise self : raises_only is_InvalidModel (checks self).
Proof.
  assert (∀ msg nm, raises_only is_InvalidModel (check_property msg self nm)) as Hcheck.
  { intros msg nm. apply raises_only_reading. intros [p|]; [done|].
    apply raises_only_raise. by eexists. }
  unfold checks.
  repeat (apply raises_only_bind;
          [apply raises_only_reading; intros l; by apply raises_only_for_each|intros _]).
  apply raises_only_reading. intros [s|]; [|done].
  destruct (truthy (edge s)); [|done].
  apply raises_only_reading. intros [src|]; [|apply raises_only_raise; by eexists].
  apply raises_only_reading. intros [tgt|]; [done|apply raises_only_raise; by eexists].
Qed.

Lemma finalize_raises fuel self : raises_only is_InvalidModel (finalize fuel self).
Proof.
  apply raises_only_bind; [|intros _; apply checks_raise].
  apply raises_only_reading. intros props. apply raises_only_for_each.
  intros q. apply Property_generate_raises.
Qed.

Lemma closed_extends_later m m' : grows m m' → closed_extends m → closed_extends m'.
Proof.
  intros Hg Hm x s' Hs' P HP.
  assert (is_Some (registry m !! x)) as [s Hs].
  { apply (grows_registered m m' x Hg). by eexists. }
  rewrite (grows_data m m' x s s') in HP by done.
  apply (grows_registered m m' P Hg). by apply (Hm x s).
Qed.

Lemma parents_raise fuel self l : ∀ m m' e,
  (∀ P mP mP' eP, closed_extends mP → generate fuel P mP = Some (mP', Raise eP) →
     is_InvalidModel eP) →
  closed_extends m → (∀ P, P ∈ l → is_Some (registry m !! P)) →
  for_each l (resolve_parent (generate fuel) self) m = Some (m', Raise e) →
  is_InvalidModel e.
Proof.
  induction l as [|P l IH]; intros m m' e Hgen Hm Hreg; simpl; [done|].
  destruct (Hreg P) as [t Ht]; [left|].
  intros [(m1 & [] & HP & Hrest)|(e' & HP & [= ->])]%bind_Some.
  - assert (grows m m1) as Hg.
    { eapply resolve_parent_grows; [apply generate_grows|done]. }
    eapply (IH m1); [done|by eapply closed_extends_later| |done].
    intros Q HQ. apply (grows_registered m m1 Q Hg), Hreg. by right.
  - revert HP. unfold resolve_parent, reading, Model_get. rewrite Ht.
    intros [(mp & [] & Hp & Hadopt)|(e2 & Hp & [= ->])]%bind_Some.
    + by apply adopt_spec in Hadopt as [[=] _].
    + by eapply Hgen.
Qed.

(** In a model where every declared parent is registered, an invocation
    of [generate] that comes to an end, the recursion being bounded, ends
    normally or with [InvalidModel]: no statement of the method raises
    another exception.  An invocation whose recursion is not bounded, as
    on a cycle of parents, does not come to an end and is no case of this
    statement; the interpreter gives up on it with [RecursionError]. *)
Theorem generate_raises_InvalidModel (fuel : nat) (self : string) (m m' : Model) (e : exn) :
  closed_extends m → generate fuel self m = Some (m', Raise e) → is_InvalidModel e.
Proof.
  revert self m m' e. induction fuel as [|fuel IH]; intros self m m' e Hm Hrun; [done|].
  simpl in Hrun.
  apply bind_Some in Hrun as [(ma & [] & _ & Hfinal)|(e' & Hinherit & [= ->])].
  - by eapply finalize_raises.
  - revert Hinherit. unfold inherit, reading, member.
    destruct (registry m !! self) as [s|] eqn:Hs; simpl; [|done].
    apply parents_raise; [|done|by apply (Hm self s)].
    intros P mP mP' eP. apply IH.
Qed.

Lemma generate_raises_InvalidModel_witness :
  is_InvalidModel (InvalidModel "Missing featured property: title").
Proof.
  apply (generate_raises_InvalidModel 3 "Note" Cases.dangling
           (Examples.after (generate 3 "Note") Cases.dangling)).
  - intros x s Hs P HP.
    assert (x = "Base" ∨ x = "Note") as [-> | ->].
    { destruct (decide (x = "Base")) as [|H1]; [by left|].
      destruct (decide (x = "Note")) as [|H2]; [by right|].
      exfalso. revert Hs. unfold Cases.dangling. simpl.
      by rewrite !lookup_insert_ne, lookup_empty. }
    + vm_compute in Hs. injection Hs as <-. by apply elem_of_nil in HP.
    + vm_compute in Hs. injection Hs as <-.
      apply list_elem_of_singleton in HP as ->. vm_compute. by eexists.
  - by vm_compute.
Defined.

(** ** What [validate] reports *)

Section ValidateFacts.
Variable gettext : string → string.
Variable value : Type.
Variable Property_validate : Property → list value → option string.
Local Abbreviation error_of := (property_error gettext value Property_validate).
Local Abbreviation step := (validate_item gettext value Property_validate).
Local Abbreviation run := (validate gettext value Property_validate).

Lemma validate_items_nil s sup items : ∀ errors,
  foldl (step s sup) errors items = [] ↔
  errors = [] ∧ ∀ item, item ∈ items → error_of s sup item = None.
Proof.
  induction items as [|item items IH]; intros errors; simpl.
  - split; [intros ->; split; [done|by intros ? ?%elem_of_nil]|by intros [-> _]].
  - rewrite IH. unfold validate_item at 1.
    destruct (error_of s sup item) as [e|] eqn:He.
    + split.
      * intros [Hset _]. exfalso. by destruct errors as [|[k v] errors]; simpl in Hset;
          [|case_decide].
      * intros [_ Hall]. specialize (Hall item (list_elem_of_here _ _)). congruence.
    + split.
      * intros [-> Hall]. split; [done|]. by intros i [->|Hi]%elem_of_cons; [|apply Hall].
      * intros [-> Hall]. split; [done|]. intros i Hi. apply Hall. by right.
Qed.

Lemma validate_items_keys s sup items : ∀ errors k e,
  (k, e) ∈ foldl (step s sup) errors items →
  (k, e) ∈ errors ∨ k ∈ Dict.keys items.
Proof.
  induction items as [|[k0 q] items IH]; intros errors k e; simpl; [by left|].
  intros [Hin|Hin]%IH; [|right; by right].
  unfold validate_item in Hin. destruct (error_of s sup (k0, q)); [|by left].
  apply elem_of_dict_set in Hin as [[= -> ->]|Hin]; [right; left|by left].
Qed.

Lemma validate_items_ext s sup1 sup2 items : ∀ errors,
  (∀ k, k ∈ Dict.keys items → Dict.get k sup1 = Dict.get k sup2) →
  foldl (step s sup1) errors items = foldl (step s sup2) errors items.
Proof.
  induction items as [|[k q] items IH]; intros errors Hagree; simpl; [done|].
  assert (step s sup1 errors (k, q) = step s sup2 errors (k, q)) as ->.
  { unfold validate_item, property_error. simpl. by rewrite (Hagree k) by left. }
  apply IH. intros k' Hk'. apply Hagree. by right.
Qed.
End ValidateFacts.

(** [validate] returns normally exactly when no property of the schema has
    an error; otherwise it raises [InvalidData], never another exception,
    with a payload that is not empty and names properties of the schema
    only. *)
Theorem validate_outcome gettext value
    (Property_validate : Property → list value → option string)
    (s : Schema) (data : option (list (string * list value))) :
  (validate gettext value Property_validate s data = Ok tt ↔
   ∀ item, item ∈ properties s →
     property_error gettext value Property_validate s (default [] data) item = None) ∧
  (∀ e, validate gettext value Property_validate s data = Raise e →
     ∃ errors, e = InvalidData (gettext "Entity validation failed")
                     (JDict [("properties", JDict errors)]) ∧
       errors ≠ [] ∧ ∀ k v, (k, v) ∈ errors → k ∈ Dict.keys (properties s)).
Proof.
  unfold validate.
  pose proof (validate_items_nil gettext value Property_validate s (default [] data)
                (properties s) []) as Hnil.
  pose proof (validate_items_keys gettext value Property_validate s (default [] data)
                (properties s) []) as Hkeys.
  destruct (foldl _ [] (properties s)) as [|item errors] eqn:E.
  - split; [|done]. split; [intros _; by apply Hnil|done].
  - split.
    + split; [done|]. intros Hall. destruct Hnil as [_ Hnil].
      by specialize (Hnil (conj eq_refl Hall)).
    + intros e [= <-]. exists (prod_map id JStr <$> item :: errors).
      split_and!; [done|done|]. intros k v Hin.
      apply (list_elem_of_fmap (prod_map id JStr) (item :: errors)) in Hin
        as ([k' e'] & [= -> ->] & Hin).
      destruct (Hkeys k' e' Hin) as [?%elem_of_nil|?]; done.
Qed.

(** Keys of the entity data that are not properties of the schema are
    dropped: two mappings that agree on the properties of the schema are
    validated alike. *)
Theorem validate_drops_unknown_keys gettext value
    (Property_validate : Property → list value → option string)
    (s : Schema) (data1 data2 : list (string * list value)) :
  (∀ k, k ∈ Dict.keys (properties s) → Dict.get k data1 = Dict.get k data2) →
  validate gettext value Property_validate s (Some data1)
  = validate gettext value Property_validate s (Some data2).
Proof.
  intros Hagree. unfold validate. simpl.
  by rewrite (validate_items_ext gettext value Property_validate s data1 data2).
Qed.

Lemma validate_drops_unknown_keys_witness :
  validate id nat (λ _ _, None) (Examples.the Examples.strict "Doc")
    (Some [("unknownField", [7]); ("name", [1]); ("title", [2])])
  = validate id nat (λ _ _, None) (Examples.the Examples.strict "Doc")
    (Some [("title", [2]); ("name", [1])]).
Proof.
  apply (validate_drops_unknown_keys id nat (λ _ _, None)
           (Examples.the Examples.strict "Doc")).
  intros k Hk. vm_compute in Hk.
  apply elem_of_cons in Hk as [->|Hk]; [done|].
  apply list_elem_of_singleton in Hk as ->. done.
Defined.

Lemma get_None_keys {V} k (d : list (string * V)) :
  Dict.get k d = None → k ∉ Dict.keys d.
Proof.
  induction d as [|[k' v'] d IH]; simpl.
  - intros _. apply not_elem_of_nil.
  - case_decide as Hk; [done|]. intros Hget. apply not_elem_of_cons.
    split; [done|by apply IH].
Qed.

(** The payload of [validate] has one entry for each property with an
    error and no other: under the name of a property it holds the error of
    its kind, or the text of [Required] when the property is required, has
    no value and its kind does not complain. *)
Theorem validate_payload gettext value
    (Property_validate : Property → list value → option string)
    (m : Model) (x : string) (s : Schema) (data : option (list (string * list value)))
    (msg : string) (errors : list (string * json)) :
  reachable gettext m → registry m !! x = Some s →
  validate gettext value Property_validate s data
    = Raise (InvalidData msg (JDict [("properties", JDict errors)])) →
  ∀ k, Dict.get k errors
       = JStr <$> (Dict.get k (properties s) ≫= λ p,
                     property_error gettext value Property_validate s (default [] data) (k, p)).
Proof.
  intros Hm Hs Hrun k.
  destruct (reachable_keyed gettext m Hm x s Hs) as [Hnd _].
  unfold validate in Hrun.
  destruct (foldl _ [] (properties s)) as [|item rest] eqn:E; [done|].
  injection Hrun as _ <-.
  change (Dict.get k (prod_map id JStr <$> item :: rest)
          = JStr <$> (Dict.get k (properties s) ≫= λ p,
              property_error gettext value Property_validate s (default [] data) (k, p))).
  rewrite get_fmap_JStr, <- E. f_equal.
  destruct (Dict.get k (properties s)) as [p|] eqn:Hk; simpl.
  - by apply validate_items_get.
  - rewrite validate_items_other; [done|]. by apply get_None_keys.
Qed.

Lemma validate_payload_witness :
  Dict.get "title" [("name", JStr "Required"); ("title", JStr "Required")]
  = JStr <$> (Dict.get "title" (properties (Examples.the Examples.strict "Doc")) ≫= λ p,
                property_error id unit (λ _ _, None)
                  (Examples.the Examples.strict "Doc") (default [] None) ("title", p)).
Proof.
  apply (validate_payload id unit (λ _ _, None) Examples.strict "Doc"
           (Examples.the Examples.strict "Doc") None "Entity validation failed").
  - apply reachable_after, reachable_load.
  - by vm_compute.
  - by vm_compute.
Defined.

(** ** Invariants of the indices *)

#[global] Instance keeps_preorder I : PreOrder (keeps I).
Proof.
  split.
  - intros m. split; [reflexivity|done].
  - intros m1 m2 m3 [Hg12 H12] [Hg23 H23]. split; [by etrans|]. intros H1. by apply H23, H12.
Qed.

Section SetsInvariant.
Context (I : Model → Prop).
(** [I] looks at the sets only, and a round for a resolved parent keeps it. *)
Hypothesis I_sets : ∀ m m', same_sets m m' → grows m m' → I m → I m'.
Hypothesis I_adopt : ∀ self parent m m',
  adopted self parent m m' → grows m m' → declared m self parent →
  is_Some (registry m !! parent) → resolved false m parent → I m → I m'.

Lemma _add_reverse_keeps fuel self data other :
  preserves (keeps I) (_add_reverse fuel self data other).
Proof.
  intros m m' r Hrun.
  pose proof (_add_reverse_grows _ _ _ _ _ _ _ Hrun) as Hg. split; [done|].
  apply I_sets; [|done]. by eapply _add_reverse_same_sets.
Qed.

Lemma finalize_keeps fuel self : preserves (keeps I) (finalize fuel self).
Proof.
  intros m m' r Hrun.
  pose proof (finalize_grows _ _ _ _ _ Hrun) as Hg. split; [done|].
  apply I_sets; [|done]. by eapply finalize_same_sets.
Qed.

Lemma parents_keep fuel self l : ∀ m m' r,
  (∀ P, preserves (keeps I) (generate fuel P)) →
  (∀ P, P ∈ l → declared m self P) →
  for_each l (resolve_parent (generate fuel) self) m = Some (m', r) → keeps I m m'.
Proof.
  induction l as [|P l IH]; intros m m' r Hgen Hdecl; simpl.
  { intros [= <- _]. reflexivity. }
  assert (∀ m1 r1, resolve_parent (generate fuel) self P m = Some (m1, r1) → keeps I m m1)
    as Hround.
  { intros m1 r1. unfold resolve_parent, reading, Model_get.
    destruct (registry m !! P) as [t|] eqn:Ht; [|intros [= <- _]; reflexivity].
    intros [(mp & [] & Hp & Hadopt)|(e & Hp & _)]%bind_Some; [|by eapply Hgen].
    pose proof (Hgen _ _ _ _ Hp) as Hkp. etrans; [exact Hkp|].
    pose proof (adopt_grows _ _ _ _ _ Hadopt) as Hg.
    apply adopt_spec in Hadopt as [_ Had]. split; [done|].
    destruct Hkp as [Hgp _].
    apply (I_adopt self P); [done|done| | |].
    - apply (declared_later m); [done|]. apply Hdecl. left.
    - apply (grows_registered m mp P Hgp). by eexists.
    - eapply (generate_resolved false); [done|by eexists|done]. }
  intros [(m1 & [] & HP & Hrest)|(e & HP & _)]%bind_Some; [|by eapply Hround].
  pose proof (Hround _ _ HP) as Hk1. etrans; [exact Hk1|].
  eapply IH; [done| |done].
  intros Q HQ. apply (declared_later m); [by destruct Hk1|]. apply Hdecl. by right.
Qed.

Lemma generate_keeps fuel : ∀ self, preserves (keeps I) (generate fuel self).
Proof.
  induction fuel as [|fuel IH]; intros self; [apply preserves_diverge|]. simpl.
  apply preserves_bind; [apply _| |intros _; apply finalize_keeps].
  intros m m' r. unfold inherit, reading, member.
  destruct (registry m !! self) as [s|] eqn:Hs; simpl.
  - apply parents_keep; [done|]. intros P HP. by exists s.
  - intros [= <- _]. reflexivity.
Qed.

Lemma evolves_keeps m m' : evolves m m' → keeps I m m'.
Proof.
  induction 1 as [|m1 fuel self m2 r _ IH Hrun|m1 fuel self d o m2 r _ IH Hrun].
  - reflexivity.
  - etrans; [done|]. by eapply generate_keeps.
  - etrans; [done|]. by eapply _add_reverse_keeps.
Qed.
End SetsInvariant.

Lemma same_sets_steady m m' W : same_sets m m' → steady false m m' W.
Proof. intros H. destruct (H W) as (? & ? & ? & ?). by split. Qed.

Lemma index_sound_sets m m' :
  same_sets m m' → grows m m' → index_sound m → index_sound m'.
Proof.
  intros Hsame Hg [Hn Hr Hd Ha Hc].
  assert (∀ X, schemata_of m' X = schemata_of m X) as Hs by (intros X; apply Hsame).
  assert (∀ X, descendants_of m' X = descendants_of m X) as Hds by (intros X; apply Hsame).
  split.
  - intros X. rewrite Hs. destruct (Hsame X) as (_ & -> & _). apply Hn.
  - intros X a. rewrite Hs. intros Hin. apply (grows_registered m m' a Hg). by eapply Hr.
  - intros X a. rewrite Hs, Hds. apply Hd.
  - intros X a. rewrite Hs, Hds. apply Ha.
  - intros X P. rewrite !Hs. intros HP Hne. destruct (Hc X P HP Hne) as [Hres Hsub].
    split; [|done]. apply (resolved_later false m); [done| |done].
    intros V _. by apply same_sets_steady.
Qed.

Lemma index_sound_adopt self parent m m' :
  adopted self parent m m' → grows m m' → declared m self parent →
  is_Some (registry m !! parent) → resolved false m parent →
  index_sound m → index_sound m'.
Proof.
  intros Had Hg Hdecl Hregp Hresp [Hn Hr Hd Ha Hc].
  assert (is_Some (registry m !! self)) as Hself.
  { destruct Hdecl as (s & Hs & _). by eexists. }
  assert (settled false m m') as Hsettled by by eapply adopt_settled.
  split.
  - intros X. apply set_eq. intros a.
    rewrite (ad_names _ _ _ _ Had), (ad_schemata _ _ _ _ Had), Hn. done.
  - intros X a. rewrite (ad_schemata _ _ _ _ Had), (ad_registered _ _ _ _ Had).
    intros [Hin|(-> & _ & Hin)]; by eapply Hr.
  - intros X a. rewrite (ad_schemata _ _ _ _ Had), (ad_descendants _ _ _ _ Had).
    intros [Hin|(-> & _ & Hin)] Hne; [left; by apply Hd|].
    right. split_and!; [done|done|by eapply Hr].
  - intros X a. rewrite (ad_schemata _ _ _ _ Had), (ad_descendants _ _ _ _ Had).
    intros [Hin|(-> & Hin & _)]; [left; by apply Ha|by right].
  - intros X P HP Hne.
    assert (resolved false m P ∧ ∀ a, a ∈ schemata_of m P → a ∈ schemata_of m' X)
      as [Hres Hsub].
    { apply (ad_schemata _ _ _ _ Had) in HP as [HP|(-> & _ & HP)].
      - destruct (Hc X P HP Hne) as [Hres Hsub]. split; [done|].
        intros a Hin. apply (ad_schemata _ _ _ _ Had). left. by apply Hsub.
      - destruct (decide (P = parent)) as [->|Hnp].
        + split; [done|]. intros a Hin. apply (ad_schemata _ _ _ _ Had). by right.
        + destruct (Hc parent P HP Hnp) as [Hres Hsub]. split; [done|].
          intros a Hin. apply (ad_schemata _ _ _ _ Had). right.
          split_and!; [done|done|by apply Hsub]. }
    destruct (settled_resolved false m m' P Hsettled) as [Hres' [Hst _ _ _]];
      [done|done|].
    split; [done|]. intros a. rewrite Hst. apply Hsub.
Qed.

Lemma fresh_index_sound m : fresh m → index_sound m.
Proof.
  intros Hfresh.
  assert (∀ X a, a ∈ schemata_of m X → a = X ∧ is_Some (registry m !! X)) as Hs.
  { intros X a. unfold schemata_of, member.
    destruct (registry m !! X) as [s|] eqn:E; simpl; [|by intros ?%elem_of_empty].
    destruct (Hfresh X s E) as (-> & _). intros ->%elem_of_singleton. by split; [|eexists]. }
  split.
  - intros X. unfold names_of, schemata_of, member.
    destruct (registry m !! X) as [s|] eqn:E; simpl; [|done].
    by destruct (Hfresh X s E) as (-> & -> & _).
  - intros X a [-> Hreg]%Hs. done.
  - intros X a [-> _]%Hs. done.
  - intros X a. unfold descendants_of, member.
    destruct (registry m !! a) as [s|] eqn:E; simpl; [|by intros ?%elem_of_empty].
    destruct (Hfresh a s E) as (_ & _ & -> & _). by intros ?%elem_of_empty.
  - intros X P [-> _]%Hs. done.
Qed.

Lemma load_fresh gettext raw : ∀ m, fresh m → fresh (load gettext raw m).
Proof.
  induction raw as [|[nm cfg] raw IH]; intros m Hm; simpl; [done|].
  pose proof (init_members gettext nm cfg (next_id m)) as Hinit.
  destruct (__init__ gettext nm cfg (next_id m)) as [s next]. simpl in Hinit.
  destruct Hinit as (_ & _ & Hs & Hn & Hd & He & _).
  apply IH. intros x s'. simpl. destruct (decide (nm = x)) as [<-|Hne].
  - rewrite lookup_insert_eq. by intros [= <-].
  - rewrite lookup_insert_ne by done. apply Hm.
Qed.

Lemma reachable_index_sound gettext m : reachable gettext m → index_sound m.
Proof.
  intros [raw Hev].
  apply (evolves_keeps index_sound index_sound_sets index_sound_adopt _ _ Hev).
  apply fresh_index_sound, load_fresh. intros x s. simpl. by rewrite lookup_empty.
Qed.

(** [descendants] is the inverse index of [schemata]: in every reachable
    model a schema is among the descendants of another one exactly when
    that one is among its ancestors. *)
Theorem descendants_inverse_of_schemata gettext (m : Model) (X a : string) :
  reachable gettext m → a ≠ X →
  (X ∈ descendants_of m a ↔ a ∈ schemata_of m X).
Proof.
  intros Hm Hne. destruct (reachable_index_sound gettext m Hm) as [_ _ Hd Ha _].
  split; [apply Ha|]. intros Hin. by apply Hd.
Qed.

Lemma descendants_inverse_of_schemata_witness :
  "Person" ∈ descendants_of Examples.family_resolved "Thing" ↔
  "Thing" ∈ schemata_of Examples.family_resolved "Person".
Proof.
  apply (descendants_inverse_of_schemata id).
  - apply reachable_after, reachable_after, reachable_load.
  - done.
Defined.

(** [names] is kept in step with [schemata]: in every reachable model it
    holds exactly the names of the schemas in [schemata], all of which are
    registered. *)
Theorem names_follow_schemata gettext (m : Model) (X : string) :
  reachable gettext m →
  names_of m X = schemata_of m X ∧
  ∀ a, a ∈ schemata_of m X → ∃ s, registry m !! a = Some s ∧ name s = a.
Proof.
  intros Hm. destruct (reachable_index_sound gettext m Hm) as [Hn Hr _ _ _].
  split; [apply Hn|]. intros a [s Hs]%Hr. exists s. split; [done|].
  destruct (reachable_sound gettext m Hm a s Hs) as (Hf & _).
  apply frozen_name in Hf. rewrite Hf.
  by destruct (init_members gettext a (data s) 0) as (-> & _).
Qed.

Lemma names_follow_schemata_witness :
  names_of Examples.family_resolved "Person" = schemata_of Examples.family_resolved "Person" ∧
  ∀ a, a ∈ schemata_of Examples.family_resolved "Person" →
       ∃ s, registry Examples.family_resolved !! a = Some s ∧ name s = a.
Proof.
  apply (names_follow_schemata id).
  apply reachable_after, reachable_after, reachable_load.
Defined.

(** [is_a] is transitive in every reachable model: the ancestors of an
    ancestor are ancestors. *)
Theorem is_a_transitive gettext (m : Model) (X P Q : string) :
  reachable gettext m →
  is_a m X P = true → is_a m P Q = true → is_a m X Q = true.
Proof.
  intros Hm. unfold is_a. rewrite !bool_decide_eq_true. intros HP HQ.
  destruct (decide (P = X)) as [->|Hne]; [done|].
  destruct (reachable_index_sound gettext m Hm) as [_ _ _ _ Hc].
  destruct (Hc X P HP Hne) as [_ Hsub]. by apply Hsub.
Qed.

Lemma is_a_transitive_witness :
  is_a Examples.family_resolved "Person" "Thing" = true.
Proof.
  apply (is_a_transitive id Examples.family_resolved "Person" "LegalEntity" "Thing").
  - apply reachable_after, reachable_after, reachable_load.
  - by vm_compute.
  - by vm_compute.
Defined.

(** Comparability is symmetric: in every reachable model, a schema that
    [matchable_schemata] yields for another one yields that one in turn. *)
Theorem matchable_schemata_symmetric gettext (m : Model) (A B : string) :
  reachable gettext m →
  B ∈ matchable_schemata m A → A ∈ matchable_schemata m B.
Proof.
  intros Hm HB.
  destruct (reachable_index_sound gettext m Hm) as [_ _ Hd Ha _].
  destruct (registry m !! A) as [sA|] eqn:HsA;
    [|by unfold matchable_schemata, member in HB; rewrite HsA in HB;
         apply elem_of_nil in HB].
  destruct (matchable sA) eqn:HmA;
    [|by unfold matchable_schemata, member in HB; rewrite HsA in HB; simpl in HB;
         rewrite HmA in HB; apply elem_of_nil in HB].
  apply (matchable_schemata_members m A sA HsA HmA) in HB as [Hin (sB & HsB & HmB)].
  apply (matchable_schemata_members m B sB HsB HmB). split; [|by eauto].
  assert (schemata sA = schemata_of m A ∧ descendants sA = descendants_of m A) as [EA1 EA2].
  { unfold schemata_of, descendants_of, member. by rewrite HsA. }
  assert (schemata sB = schemata_of m B ∧ descendants sB = descendants_of m B) as [EB1 EB2].
  { unfold schemata_of, descendants_of, member. by rewrite HsB. }
  rewrite EA1, EA2 in Hin. rewrite EB1, EB2.
  destruct (decide (B = A)) as [->|Hne]; [done|].
  apply elem_of_union in Hin as [Hin|Hin]; apply elem_of_union.
  - right. by apply Hd.
  - left. by apply Ha.
Qed.

Lemma matchable_schemata_symmetric_witness :
  "Person" ∈ matchable_schemata Examples.family_resolved "Thing".
Proof.
  apply (matchable_schemata_symmetric id Examples.family_resolved "Person" "Thing").
  - apply reachable_after, reachable_after, reachable_load.
  - vm_compute. set_solver.
Defined.

(** A completed [generate] has taken in every declared parent: the parent
    is in [extends], its ancestors are in [schemata] and [names], and the
    schema is a descendant of each of them. *)
Theorem generate_Ok_takes_in_parents (fuel : nat) (self P : string) (m m' : Model) :
  generate fuel self m = Some (m', Ok tt) → declared m self P →
  P ∈ extends_of m' self ∧
  schemata_of m' P ⊆ schemata_of m' self ∧
  schemata_of m' P ⊆ names_of m' self ∧
  ∀ a, a ∈ schemata_of m' P → is_Some (registry m' !! a) → self ∈ descendants_of m' a.
Proof.
  intros Hrun Hdecl.
  assert (is_Some (registry m !! self)) as Hreg.
  { destruct Hdecl as (s & Hs & _). by eexists. }
  pose proof (generate_resolved false _ _ _ _ Hrun Hreg (λ H, False_ind _ (Bool.diff_false_true H)))
    as Hres.
  destruct (resolved_covers false m' self P Hres) as [He Hs Hn Hd _]; [|done].
  apply (declared_later m); [|done]. by eapply generate_grows.
Qed.

Lemma generate_Ok_takes_in_parents_witness :
  let m' := Examples.after (generate 4 "Person") Examples.family in
  "LegalEntity" ∈ extends_of m' "Person" ∧
  schemata_of m' "LegalEntity" ⊆ schemata_of m' "Person" ∧
  schemata_of m' "LegalEntity" ⊆ names_of m' "Person" ∧
  ∀ a, a ∈ schemata_of m' "LegalEntity" → is_Some (registry m' !! a) →
       "Person" ∈ descendants_of m' a.
Proof.
  apply (generate_Ok_takes_in_parents 4 "Person" "LegalEntity" Examples.family).
  - by vm_compute.
  - exists (Examples.the Examples.family "Person"). split; [by vm_compute|].
    vm_compute. set_solver.
Defined.

(** ** The order of the properties *)






Section SortingFacts.
Context {A : Type} (key : A → bool * bool * string).






End SortingFacts.




(** ** Inherited properties are shared *)

(** The lookup after the merge: the bindings of the schema first, then
    those of the parent. *)
Lemma get_merge items : ∀ (acc : list (string * Property)) k,
  Dict.get k (foldl merge_item acc items)
  = match Dict.get k acc with
    | Some p => Some p
    | None => Dict.get k items
    end.
Proof.
  induction items as [|[k0 v0] items IH]; intros acc k; simpl.
  - by destruct (Dict.get k acc).
  - rewrite IH. unfold merge_item. simpl.
    destruct (Dict.get k0 acc) as [w|] eqn:Hw.
    + destruct (Dict.get k acc) as [p|] eqn:Hp; [done|].
      case_decide as Hk; [congruence|done].
    + destruct (decide (k = k0)) as [->|Hne].
      * by rewrite DictFacts.get_set_eq, Hw.
      * by rewrite DictFacts.get_set_ne.
Qed.

Lemma get_registered m X k p : get m X k = Some p → is_Some (registry m !! X).
Proof. unfold get, props_of, member. by destruct (registry m !! X); [eexists|]. Qed.

Lemma shared_later_self m m' x :
  grows m m' → (∀ y, is_Some (registry m !! y) → y ∈ schemata_of m y) →
  is_Some (registry m' !! x) → x ∈ schemata_of m' x.
Proof.
  intros Hg Hself Hx. apply (grows_schemata m m' x Hg), Hself.
  by apply (grows_registered m m' x Hg).
Qed.

Lemma adopt_keeps_shared self parent : preserves (keeps shared) (adopt self parent).
Proof.
  intros m m' r Hrun. pose proof (adopt_grows _ _ _ _ _ Hrun) as Hg.
  apply adopt_spec in Hrun as [_ Had]. split; [done|]. intros [Hself Hown]. split.
  - intros x. by apply (shared_later_self m m').
  - intros X k p Hget.
    assert (get m X k = Some p ∨
            (X = self ∧ is_Some (registry m !! self) ∧ get m parent k = Some p)) as Hfrom.
    { destruct (decide (X = self)) as [->|Hne].
      - assert (is_Some (registry m !! self)) as Hreg.
        { apply (ad_registered _ _ _ _ Had). by eapply get_registered. }
        revert Hget. unfold get at 1. rewrite (ad_properties_self _ _ _ _ Had) by done.
        rewrite get_merge. unfold get. destruct (Dict.get k (props_of m self)); [by left|].
        by right.
      - left. revert Hget. unfold get. by rewrite (ad_properties _ _ _ _ Had). }
    destruct Hfrom as [Hold|(-> & Hreg & Hpar)].
    + destruct (Hown X k p Hold) as (Hn & Ho & Hin). split_and!; [done| |].
      * by apply (grows_get m m').
      * by apply (grows_schemata m m' X Hg).
    + destruct (Hown parent k p Hpar) as (Hn & Ho & Hin). split_and!; [done| |].
      * by apply (grows_get m m').
      * apply (ad_schemata _ _ _ _ Had). by right.
Qed.

Lemma _add_reverse_keeps_shared fuel : ∀ self data other,
  preserves (keeps shared) (_add_reverse fuel self data other).
Proof.
  induction fuel as [|fuel IH]; intros self data other m m' r Hrun; [done|].
  pose proof (_add_reverse_grows _ _ _ _ _ _ _ Hrun) as Hg. split; [done|].
  pose proof (_add_reverse_same_sets _ _ _ _ _ _ _ Hrun) as Hsets.
  rewrite _add_reverse_unfold in Hrun.
  destruct (d_name data) as [nm|] eqn:Hnm; [|by injection Hrun as <- _].
  unfold reading in Hrun.
  destruct (get m self nm) as [found|] eqn:Hfree; [by injection Hrun as <- _|].
  destruct (registry m !! self) as [s|] eqn:Hs.
  - (* the name is bound to the new property *)
    assert (_add_reverse (S fuel) self data other m = Some (m', r)) as Hall.
    { by rewrite _add_reverse_unfold, Hnm; unfold reading; rewrite Hfree. }
    destruct (_add_reverse_fresh _ _ _ _ nm _ _ _ (mk_is_Some _ _ Hs) Hnm Hfree Hall)
      as [-> _].
    intros [Hself Hown]. split.
    + intros x. by apply (shared_later_self m _).
    + intros X k p Hget.
      assert ((X = self ∧ k = nm ∧
               p = mkProperty (next_id m) self nm (stub_data data other)) ∨
              get m X k = Some p) as [(-> & -> & ->)|Hold].
      { revert Hget. unfold get, props_of. rewrite member_mutate.
        case_decide as HX; [subst X|by right].
        unfold member. simpl. rewrite Hs. simpl.
        destruct (decide (k = nm)) as [->|Hk].
        - rewrite DictFacts.get_set_eq. intros [= <-]. by left.
        - rewrite DictFacts.get_set_ne by done. intros Hget. right.
          unfold get, props_of, member. by rewrite ?Hs. }
      * simpl. split_and!; [done| |].
        -- rewrite get_set_property; [done|]. simpl. by eexists.
        -- destruct (Hsets self) as (-> & _). apply Hself. by eexists.
      * destruct (Hown X k p Hold) as (Hn & Ho & Hin). split_and!; [done| |].
        -- by apply (grows_get m _ _ _ _ Hg).
        -- destruct (Hsets X) as (-> & _). done.
  - (* nothing is bound on an unregistered name; the inner call is kept *)
    apply bind_Some in Hrun as [(m0 & stub & Hnew & Hrest)|(e & [=] & _)].
    injection Hnew as <- <-.
    assert (∀ m1 r1, Property_generate_with (_add_reverse fuel)
              (mkProperty (next_id m) self nm (stub_data data other)) (bump m)
              = Some (m1, r1) → shared m → shared m1) as Hgen.
    { intros m1 r1 Hstub Hm.
      assert (keeps shared (bump m) m1) as [_ Hk].
      { revert Hstub. apply Property_generate_with_preserves; [apply _|apply IH]. }
      apply Hk. destruct Hm as [Hself Hown]. by split. }
    apply bind_Some in Hrest as [(m1 & [] & Hstub & Hrest)|(e & Hstub & _)];
      [|by eapply Hgen].
    apply bind_Some in Hrest as [(m2 & [] & Hset & Hret)|(e & [=] & _)].
    injection Hset as <-. injection Hret as <- _. intros Hm.
    specialize (Hgen _ _ Hstub Hm).
    assert (registry m1 !! self = None) as Hnone.
    { destruct (registry m1 !! self) eqn:E; [|done].
      assert (is_Some (registry (bump m) !! self)) as [? Hsome]; [|simpl in Hsome; congruence].
      eapply grows_registered; [|by eexists].
      revert Hstub. apply Property_generate_with_preserves; [apply _|].
      apply _add_reverse_grows. }
    assert (registry (mutate self (upd_properties (Dict.set nm
              (mkProperty (next_id m) self nm (stub_data data other)))) m1)
            = registry m1) as Hsame.
    { unfold mutate. simpl. apply map_eq. intros y.
      destruct (decide (self = y)) as [<-|Hne].
      - by rewrite lookup_alter_eq, Hnone.
      - by rewrite lookup_alter_ne. }
    destruct Hgen as [Hself Hown].
    split; unfold get, props_of, schemata_of, member in *; rewrite Hsame; done.
Qed.

Lemma Property_generate_keeps_shared fuel prop :
  preserves (keeps shared) (Property_generate fuel prop).
Proof.
  apply Property_generate_with_preserves; [apply _|]. apply _add_reverse_keeps_shared.
Qed.

Lemma generate_keeps_shared fuel : ∀ self, preserves (keeps shared) (generate fuel self).
Proof.
  induction fuel as [|fuel IH]; intros self.
  - apply preserves_diverge.
  - apply generate_preserves; [apply _| |apply Property_generate_keeps_shared].
    intros parent. apply resolve_parent_preserves; [apply _|apply IH|].
    apply adopt_keeps_shared.
Qed.

Lemma init_properties_owned owner raw : ∀ next acc,
  (∀ k p, (k, p) ∈ acc → p_schema p = owner) →
  ∀ k p, (k, p) ∈ (init_properties owner raw next acc).1 → p_schema p = owner.
Proof.
  induction raw as [|[nm pd] raw IH]; intros next acc Hacc; simpl; [done|].
  apply IH. intros k p [[= -> ->]|Hin]%elem_of_dict_set; [done|by eapply Hacc].
Qed.

Lemma init_owned gettext nm raw next k p :
  (k, p) ∈ properties (__init__ gettext nm raw next).1 → p_schema p = nm.
Proof.
  unfold __init__.
  pose proof (init_properties_owned nm (r_properties raw) next []) as H.
  destruct (init_properties nm (r_properties raw) next []) as [props n1]. simpl in *.
  apply H. by intros k' p' ?%elem_of_nil.
Qed.

Lemma load_owned gettext raw : ∀ m,
  (∀ x s k p, registry m !! x = Some s → (k, p) ∈ properties s → p_schema p = x) →
  ∀ x s k p, registry (load gettext raw m) !! x = Some s →
    (k, p) ∈ properties s → p_schema p = x.
Proof.
  induction raw as [|[nm cfg] raw IH]; intros m Hm; simpl; [done|].
  pose proof (init_owned gettext nm cfg (next_id m)) as Hinit.
  destruct (__init__ gettext nm cfg (next_id m)) as [s next]. simpl in Hinit.
  apply IH. intros x s' k p. simpl. destruct (decide (nm = x)) as [<-|Hne].
  - rewrite lookup_insert_eq. intros [= <-]. apply Hinit.
  - rewrite lookup_insert_ne by done. apply Hm.
Qed.

Lemma load_shared gettext raw : shared (load gettext raw empty_model).
Proof.
  assert (fresh (load gettext raw empty_model)) as Hfresh.
  { apply load_fresh. intros x s. simpl. by rewrite lookup_empty. }
  assert (keyed (load gettext raw empty_model)) as Hkeyed.
  { apply load_keyed. intros x s. simpl. by rewrite lookup_empty. }
  pose proof (load_owned gettext raw empty_model) as Howned.
  assert (∀ x, is_Some (registry (load gettext raw empty_model) !! x) →
               x ∈ schemata_of (load gettext raw empty_model) x) as Hself.
  { intros x [s Hs]. unfold schemata_of, member. rewrite Hs. simpl.
    destruct (Hfresh x s Hs) as (-> & _). by apply elem_of_singleton. }
  split; [done|]. intros X k p Hget.
  pose proof (get_registered _ _ _ _ Hget) as Hreg. destruct (Hreg) as [s Hs].
  assert ((k, p) ∈ properties s) as Hin.
  { apply DictFacts.get_Some_elem_of. revert Hget. unfold get, props_of, member.
    by rewrite Hs. }
  assert (p_schema p = X) as ->.
  { eapply Howned; [|done|done]. intros x s' k' p'. simpl. by rewrite lookup_empty. }
  split_and!; [|done|by apply Hself].
  destruct (Hkeyed _ s Hs) as [_ Hk]. by apply Hk.
Qed.

Lemma evolves_shared m m' : evolves m m' → shared m → shared m'.
Proof.
  induction 1 as [|m1 fuel self m2 r _ IH Hrun|m1 fuel self d o m2 r _ IH Hrun];
    intros Hm; [done|..].
  - by eapply generate_keeps_shared; [|apply IH].
  - by eapply _add_reverse_keeps_shared; [|apply IH].
Qed.

Lemma reachable_shared gettext m : reachable gettext m → shared m.
Proof. intros [raw Hev]. apply (evolves_shared _ _ Hev), load_shared. Qed.

(** Inheritance shares the property objects instead of copying them: in
    every reachable model, a property that a schema has under a name is
    named so, is the very object that its owning schema has under that
    name, and the owner is the schema itself or one of its ancestors. *)
Theorem inherited_property_is_owners (gettext : string → string)
    (m : Model) (X k : string) (p : Property) :
  reachable gettext m → get m X k = Some p →
  p_name p = k ∧ get m (p_schema p) k = Some p ∧ is_a m X (p_schema p) = true.
Proof.
  intros Hm Hget. destruct (reachable_shared gettext m Hm) as [_ Hown].
  destruct (Hown X k p Hget) as (Hn & Ho & Hin). split_and!; [done|done|].
  unfold is_a. by apply bool_decide_eq_true.
Qed.

Lemma inherited_property_is_owners_witness :
  get Examples.family_resolved "Person" "name"
    = Some (mkProperty 0 "Thing" "name" (Examples.scalar "name")) ∧
  get Examples.family_resolved "Thing" "name"
    = Some (mkProperty 0 "Thing" "name" (Examples.scalar "name")) ∧
  is_a Examples.family_resolved "Person" "Thing" = true.
Proof.
  assert (get Examples.family_resolved "Person" "name"
          = Some (mkProperty 0 "Thing" "name" (Examples.scalar "name"))) as Hget
    by (by vm_compute).
  split; [done|].
  refine (proj2 (inherited_property_is_owners id Examples.family_resolved "Person" "name"
            _ _ Hget)).
  apply reachable_after, reachable_after, reachable_load.
Defined.

(** ** Export of the properties *)

Lemma get_filter {V} (P : string * V → Prop) `{!∀ x, Decision (P x)} k v d :
  Dict.get k d = Some v → P (k, v) → Dict.get k (filter P d) = Some v.
Proof.
  induction d as [|[k' v'] d IH]; simpl; [done|].
  destruct (decide (k = k')) as [->|Hne].
  - intros [= ->] HP. rewrite filter_cons_True by done. simpl.
    by rewrite decide_True.
  - intros Hget HP. rewrite filter_cons. case_decide; [|by apply IH].
    simpl. rewrite decide_False by done. by apply IH.
Qed.

Lemma get_filter_None {V} (P : string * V → Prop) `{!∀ x, Decision (P x)} k d :
  (∀ v, (k, v) ∈ d → ¬ P (k, v)) → Dict.get k (filter P d) = None.
Proof.
  intros Hno. destruct (Dict.get k (filter P d)) as [v|] eqn:E; [|done].
  apply DictFacts.get_Some_elem_of, list_elem_of_filter in E as [HP Hin].
  by destruct (Hno v Hin).
Qed.

Lemma keys_NoDup_unique {V} (d : list (string * V)) k v w :
  NoDup (Dict.keys d) → (k, v) ∈ d → (k, w) ∈ d → v = w.
Proof.
  induction d as [|[k' v'] d IH]; simpl; [by intros _ ?%elem_of_nil|].
  intros [Hnotin Hnd]%NoDup_cons Hv Hw.
  assert (∀ u, (k', u) ∈ d → False) as Hno.
  { intros u Hu. apply Hnotin. change k' with (k', u).1.
    by apply (list_elem_of_fmap_2 fst). }
  apply elem_of_cons in Hv as [Hv|Hv]; apply elem_of_cons in Hw as [Hw|Hw].
  - congruence.
  - injection Hv as -> ->. by destruct (Hno w).
  - injection Hw as -> ->. by destruct (Hno v).
  - by apply IH.
Qed.

Lemma get_fmap_values {V W} (f : V → W) k (d : list (string * V)) :
  Dict.get k (prod_map id f <$> d) = f <$> Dict.get k d.
Proof.
  induction d as [|[k' v'] d IH]; simpl; [done|].
  destruct (decide (k = k')); done.
Qed.

Lemma exported_to_dict gettext Property_to_dict s :
  exported (to_dict gettext Property_to_dict s)
  = prod_map id Property_to_dict <$>
      filter (λ item, p_schema item.2 = name s) (properties s).
Proof. done. Qed.

Lemma reachable_name gettext m x s :
  reachable gettext m → registry m !! x = Some s → name s = x.
Proof.
  intros Hm Hs. destruct (reachable_sound gettext m Hm x s Hs) as (Hf & _).
  apply frozen_name in Hf. rewrite Hf.
  by destruct (init_members gettext x (data s) 0) as (-> & _).
Qed.

(** Every property is exported once along the chain of ancestors: in a
    reachable model, a property that a schema has under a name is exported
    under that name by [to_dict] of its owner, which is the schema or one
    of its ancestors, and a schema that is not the owner leaves the name
    out of its own export. *)
Theorem to_dict_exports_at_owner (gettext : string → string)
    (Property_to_dict : Property → json)
    (m : Model) (X k : string) (sx : Schema) (p : Property) :
  reachable gettext m → registry m !! X = Some sx →
  Dict.get k (properties sx) = Some p →
  ∃ so, registry m !! p_schema p = Some so ∧ is_a m X (p_schema p) = true ∧
    Dict.get k (exported (to_dict gettext Property_to_dict so))
      = Some (Property_to_dict p) ∧
    (p_schema p ≠ X →
     Dict.get k (exported (to_dict gettext Property_to_dict sx)) = None).
Proof.
  intros Hm Hsx Hp.
  assert (get m X k = Some p) as Hget.
  { unfold get, props_of, member. by rewrite Hsx. }
  destruct (reachable_shared gettext m Hm) as [_ Hown].
  destruct (Hown X k p Hget) as (Hn & Ho & Hin).
  destruct (get_registered _ _ _ _ Ho) as [so Hso]. exists so.
  split_and!; [done|by apply bool_decide_eq_true| |].
  - rewrite exported_to_dict, get_fmap_values.
    rewrite (get_filter _ k p); [done| |].
    + revert Ho. unfold get, props_of, member. by rewrite Hso.
    + simpl. symmetry. by eapply reachable_name.
  - intros Hne. rewrite exported_to_dict, get_fmap_values.
    rewrite get_filter_None; [done|]. intros v Hv. simpl.
    rewrite (reachable_name gettext m X sx Hm Hsx).
    destruct (reachable_keyed gettext m Hm X sx Hsx) as [Hnd Hk].
    assert (v = p) as ->; [|done].
    apply DictFacts.get_Some_elem_of in Hp.
    by apply (keys_NoDup_unique (properties sx) k).
Qed.

Lemma to_dict_exports_at_owner_witness :
  Dict.get "name"
    (exported (to_dict id (λ p, JStr (p_name p))
                 (Examples.the Examples.family_resolved "Thing")))
    = Some (JStr "name") ∧
  Dict.get "name"
    (exported (to_dict id (λ p, JStr (p_name p))
                 (Examples.the Examples.family_resolved "Person")))
    = None.
Proof.
  assert (reachable id Examples.family_resolved) as Hm.
  { apply reachable_after, reachable_after, reachable_load. }
  assert (registry Examples.family_resolved !! "Person"
          = Some (Examples.the Examples.family_resolved "Person")) as Hsx
    by (by vm_compute).
  assert (Dict.get "name" (properties (Examples.the Examples.family_resolved "Person"))
          = Some (mkProperty 0 "Thing" "name" (Examples.scalar "name"))) as Hp
    by (by vm_compute).
  pose proof (to_dict_exports_at_owner id (λ p, JStr (p_name p))
                Examples.family_resolved "Person" "name"
                (Examples.the Examples.family_resolved "Person")
                (mkProperty 0 "Thing" "name" (Examples.scalar "name")) Hm Hsx Hp)
    as (so & Hso & _ & Hown & Hnot).
  assert (so = Examples.the Examples.family_resolved "Thing") as ->.
  { cbn [p_schema] in Hso. unfold Examples.the. by rewrite Hso. }
  split; [exact Hown|]. by apply Hnot.
Defined.
